(** * goph: remote execution and file transfer client (client.go)

    A shallow embedding of [client.go].  The SSH transport, the SFTP client
    and the operating system are the environment of the program: they are
    modelled by a world (two file systems, the state of the connection, the
    handles that are open) and by an environment [Env] that decides which
    primitive calls fail.  Every function of [client.go] is a computation
    over that world which also yields the list of primitive calls it made. *)

From Stdlib Require Import List String Ascii Bool Arith Lia Permutation.
From Stdlib Require Import Strings.Byte.
Import ListNotations.
Local Open Scope string_scope.
Local Open Scope list_scope.
Set Warnings "-register-all".

(** ** Paths and file systems *)

(** A path is the list of the components of a cleaned absolute path. *)
Definition path := list string.

(** [filepath.Dir]. *)
Definition Dir_of (p : path) : path := removelast p.

(** [filepath.Join] on cleaned paths. *)
Definition Join (a b : path) : path := a ++ b.

Fixpoint prefixb (p q : path) : bool :=
  match p, q with
  | [], _ => true
  | _ :: _, [] => false
  | a :: p', b :: q' => String.eqb a b && prefixb p' q'
  end.

Fixpoint path_eqb (p q : path) : bool :=
  match p, q with
  | [], [] => true
  | a :: p', b :: q' => String.eqb a b && path_eqb p' q'
  | _, _ => false
  end.

Fixpoint strip_prefix (base p : path) : option path :=
  match base, p with
  | [], _ => Some p
  | a :: base', b :: p' => if String.eqb a b then strip_prefix base' p' else None
  | _ :: _, [] => None
  end.

Inductive errno : Type :=
| ENOENT | ENOTDIR | EISDIR | EACCES | EIO | ENOSPC | EOF | ECLOSED | EFAILURE.

(** A file system is the tree below its root directory. *)
Inductive node : Type :=
| File (data : list byte)
| Dir (entries : list (string * node)).

(** What [Stat] tells about a path: a regular file (with its bytes) or a
    directory. *)
Inductive entry : Type :=
| EFile (data : list byte)
| EDir.

Definition entry_of (n : node) : entry :=
  match n with
  | File b => EFile b
  | Dir _ => EDir
  end.

Definition IsDir (e : entry) : bool :=
  match e with
  | EDir => true
  | EFile _ => false
  end.

Fixpoint assoc (k : string) (es : list (string * node)) : option node :=
  match es with
  | [] => None
  | (k', v) :: es' => if String.eqb k k' then Some v else assoc k es'
  end.

Fixpoint set_child (k : string) (v : node) (es : list (string * node))
  : list (string * node) :=
  match es with
  | [] => [(k, v)]
  | (k', v') :: es' =>
      if String.eqb k k' then (k, v) :: es' else (k', v') :: set_child k v es'
  end.

Fixpoint lookup (n : node) (p : path) : option node :=
  match p with
  | [] => Some n
  | c :: p' =>
      match n with
      | Dir es =>
          match assoc c es with
          | Some ch => lookup ch p'
          | None => None
          end
      | File _ => None
      end
  end.

Definition stat_fs (n : node) (p : path) : option entry :=
  option_map entry_of (lookup n p).

(** Why a path that is not there cannot be reached: a component of it is a
    regular file ([ENOTDIR]), or a component is missing ([ENOENT]). *)
Fixpoint unreachable (n : node) (p : path) : errno :=
  match p with
  | [] => ENOENT
  | c :: p' =>
      match n with
      | File _ => ENOTDIR
      | Dir es =>
          match assoc c es with
          | Some ch => unreachable ch p'
          | None => ENOENT
          end
      end
  end.

(** Stores node [x] at path [p]; the parent of [p] has to be a directory,
    otherwise the tree is left as it is. *)
Fixpoint put (p : path) (x : node) (n : node) : node :=
  match p with
  | [] => x
  | c :: p' =>
      match n with
      | Dir es =>
          match assoc c es with
          | Some ch => Dir (set_child c (put p' x ch) es)
          | None =>
              match p' with
              | [] => Dir (set_child c x es)
              | _ :: _ => n
              end
          end
      | File _ => n
      end
  end.

(** [MkdirAll]: creates the directory and the missing ancestors; fails, and
    creates nothing, when a component of the path is a regular file. *)
Fixpoint mkdirAll_fs (p : path) (n : node) : option node :=
  match n with
  | File _ => None
  | Dir es =>
      match p with
      | [] => Some n
      | c :: p' =>
          match mkdirAll_fs p'
                  (match assoc c es with Some ch => ch | None => Dir [] end) with
          | Some ch' => Some (Dir (set_child c ch' es))
          | None => None
          end
      end
  end.


(** The component of [p] that is a regular file, the first one that
    [MkdirAll] finds on its way up from [p]; [p] itself when none is. *)
Fixpoint blocker (n : node) (p : path) : path :=
  match p with
  | [] => []
  | c :: p' =>
      match n with
      | File _ => []
      | Dir es =>
          match assoc c es with
          | Some ch => c :: blocker ch p'
          | None => c :: p'
          end
      end
  end.

(** [Create]: a new empty regular file, or an existing one truncated; the
    parent has to be a directory and the path must not be one.  When the
    parent cannot be reached the error is that of reaching it. *)
Definition create_fs (p : path) (fs : node) : errno + node :=
  match p with
  | [] => inl EISDIR
  | _ :: _ =>
      match stat_fs fs (Dir_of p) with
      | Some EDir =>
          match stat_fs fs p with
          | Some EDir => inl EISDIR
          | _ => inr (put p (File []) fs)
          end
      | Some (EFile _) => inl ENOTDIR
      | None => inl (unreachable fs (Dir_of p))
      end
  end.

(** Writing through the handle of a regular file replaces its bytes. *)
Definition write_fs (p : path) (data : list byte) (fs : node) : node :=
  match stat_fs fs p with
  | Some (EFile _) => put p (File data) fs
  | _ => fs
  end.

(** [readDirNames] sorts the names of a directory; the walk of a tree visits
    the entries of every directory in that order. *)
Fixpoint insert_entry (x : string * node) (l : list (string * node))
  : list (string * node) :=
  match l with
  | [] => [x]
  | y :: l' =>
      if String.leb (fst x) (fst y) then x :: l else y :: insert_entry x l'
  end.

Definition sort_entries (l : list (string * node)) : list (string * node) :=
  fold_right insert_entry [] l.

Fixpoint sort_tree (n : node) : node :=
  match n with
  | File b => File b
  | Dir es => Dir (sort_entries (map (fun kc => (fst kc, sort_tree (snd kc))) es))
  end.

Fixpoint nodupb (l : list string) : bool :=
  match l with
  | [] => true
  | a :: l' => negb (existsb (String.eqb a) l') && nodupb l'
  end.

(** A directory never lists a name twice. *)
Fixpoint wf_node (n : node) : bool :=
  match n with
  | File _ => true
  | Dir es => nodupb (map fst es) && forallb (fun kc => wf_node (snd kc)) es
  end.

(** ** Errors, primitives, events *)

(** The errors the program can return.  An error of the local operating
    system is an [*os.PathError], which names the operation and the path.
    An error of the SFTP client comes from the status the server answered
    with: [StatusError e req] is the error for the status [e] that answered
    the request on the path [req].  The request is kept for the record only:
    what the text of the error names is told by [paths_of] below.  An error
    of the connection is the transport's and carries no path.
    [Wrapped msg e] is [fmt.Errorf(msg + ": %w", e)]. *)
Inductive error : Type :=
| PathError (op : string) (p : path) (e : errno)
| StatusError (e : errno) (req : path)
| ConnError (e : errno)
| RelError (base targ : path)
| Wrapped (msg : string) (e : error).

Inductive result (A : Type) : Type :=
| Ok (a : A)
| Err (e : error).
Arguments Ok {A} a.
Arguments Err {A} e.

Inductive side : Type := Local | Remote.

(** The calls into the operating system, the SFTP client and the SSH
    connection. *)
Inductive prim : Type :=
| Stat (s : side) (p : path)
| Lstat (s : side) (p : path)
| ReadDir (s : side) (p : path)
| Open (s : side) (p : path)
| Create (s : side) (p : path)
| MkdirAll (s : side) (p : path)
| Read (s : side) (p : path)
| Write (s : side) (p : path)
| Sync (p : path)
| CloseFile (s : side) (p : path)
| NewClient
| CloseClient
| NewSession
| CombinedOutput (cmd : string)
| CloseSession
| CloseConn.

(** A call and how it ended. *)
Inductive event : Type := Ev (p : prim) (r : option errno).

Inductive handle : Type :=
| HFile (s : side) (p : path)
| HClient
| HSession.

Definition side_eqb (a b : side) : bool :=
  match a, b with
  | Local, Local | Remote, Remote => true
  | _, _ => false
  end.

Definition handle_eqb (a b : handle) : bool :=
  match a, b with
  | HFile s p, HFile s' p' => side_eqb s s' && path_eqb p p'
  | HClient, HClient | HSession, HSession => true
  | _, _ => false
  end.

Fixpoint release (h : handle) (l : list handle) : list handle :=
  match l with
  | [] => []
  | h' :: l' => if handle_eqb h h' then l' else h' :: release h l'
  end.

(** The world: the local and the remote file system, whether the SSH
    connection is still open, and the handles (files, SFTP clients, sessions)
    that are open. *)
Record World : Type := mkWorld {
  lfs : node;
  rfs : node;
  alive : bool;
  opened : list handle
}.

(** The environment: which primitive calls fail and with what, how many bytes
    reach the destination before a failing write gives up, what a remote
    command prints, and whether the message of the status with which the
    server answers a failed request on a path names that path (the server of
    [pkg/sftp] sends the text of its own error, which does; the server of
    OpenSSH sends a fixed text for each code, which does not). *)
Record Env : Type := mkEnv {
  fault : prim -> option errno;
  cut : path -> nat;
  output : string -> list byte;
  status_names : path -> bool
}.

Definition fs_of (s : side) (w : World) : node :=
  match s with
  | Local => lfs w
  | Remote => rfs w
  end.

Definition set_fs (s : side) (fs : node) (w : World) : World :=
  match s with
  | Local => mkWorld fs (rfs w) (alive w) (opened w)
  | Remote => mkWorld (lfs w) fs (alive w) (opened w)
  end.

Definition acquire (h : handle) (w : World) : World :=
  mkWorld (lfs w) (rfs w) (alive w) (h :: opened w).

Definition drop (h : handle) (w : World) : World :=
  mkWorld (lfs w) (rfs w) (alive w) (release h (opened w)).

Definition err_of (s : side) (op : string) (p : path) (e : errno) : error :=
  match s with
  | Local => PathError op p e
  | Remote => StatusError e p
  end.

(** The error of [MkdirAll p].  When a component [x] of the path is a
    regular file, [os.MkdirAll] returns an [*os.PathError] that names [x],
    and the [MkdirAll] of the SFTP client, which follows it line by line,
    makes the same error of its own instead of passing on a status of the
    server. *)
Definition mkdir_error (s : side) (x p : path) (e : errno) : error :=
  match e with
  | ENOTDIR => PathError "mkdir" x ENOTDIR
  | _ => err_of s "mkdir" p e
  end.

(** ** Computations *)

(** A computation runs in a world and yields a value, the new world and the
    calls it made, in order. *)
Definition M (A : Type) : Type := World -> A * World * list event.

Definition ret {A} (a : A) : M A := fun w => (a, w, []).

Definition bind {A B} (m : M A) (f : A -> M B) : M B :=
  fun w =>
    let '(a, w1, t1) := m w in
    let '(b, w2, t2) := f a w1 in
    (b, w2, t1 ++ t2).

Notation "x <- m ;; k" := (bind m (fun x => k))
  (at level 100, m at next level, right associativity).

(** [defer cleanup; body]: the cleanup runs when the body returns, and what it
    returns is dropped. *)
Definition defer {A B} (cleanup : M B) (body : M A) : M A :=
  a <- body ;; _ <- cleanup ;; ret a.

Definition value {A} (r : A * World * list event) : A := fst (fst r).
Definition world {A} (r : A * World * list event) : World := snd (fst r).
Definition trace {A} (r : A * World * list event) : list event := snd r.


(** ** The primitives *)

Section Program.

Variable E : Env.

(** A call fails when the environment says so, or for a reason of its own; a
    failed call leaves the world as it was. *)
Definition call {A} (pr : prim) (op : World -> errno + (A * World))
  : M (errno + A) :=
  fun w =>
    match fault E pr with
    | Some e => (inl e, w, [Ev pr (Some e)])
    | None =>
        match op w with
        | inl e => (inl e, w, [Ev pr (Some e)])
        | inr (a, w') => (inr a, w', [Ev pr None])
        end
    end.

Definition lift {A} (mk : errno -> error) (r : errno + A) : result A :=
  match r with
  | inl e => Err (mk e)
  | inr a => Ok a
  end.

Definition lift_unit (mk : errno -> error) (r : errno + unit) : option error :=
  match r with
  | inl e => Some (mk e)
  | inr _ => None
  end.

(** An open [*os.File] or [*sftp.File]. *)
Definition file : Type := side * path.

(** The [*sftp.Client] of a file transfer sub-channel. *)
Inductive sftpClient : Type := SftpClient.

(** The [*ssh.Session] of a command sub-channel. *)
Inductive sshSession : Type := SshSession.

Definition fs_Stat (s : side) (p : path) : M (result entry) :=
  r <- call (Stat s p)
         (fun w => match stat_fs (fs_of s w) p with
                   | Some en => inr (en, w)
                   | None => inl (unreachable (fs_of s w) p)
                   end) ;;
  ret (lift (err_of s "stat" p) r).

Definition fs_Lstat (s : side) (p : path) : M (result entry) :=
  r <- call (Lstat s p)
         (fun w => match stat_fs (fs_of s w) p with
                   | Some en => inr (en, w)
                   | None => inl (unreachable (fs_of s w) p)
                   end) ;;
  ret (lift (err_of s "lstat" p) r).

Definition fs_ReadDir (s : side) (p : path) : M (option error) :=
  r <- call (ReadDir s p) (fun w => inr (tt, w)) ;;
  ret (lift_unit (err_of s "open" p) r).

Definition fs_Open (s : side) (p : path) : M (result file) :=
  r <- call (Open s p)
         (fun w => match stat_fs (fs_of s w) p with
                   | Some _ => inr ((s, p), acquire (HFile s p) w)
                   | None => inl (unreachable (fs_of s w) p)
                   end) ;;
  ret (lift (err_of s "open" p) r).

Definition fs_Create (s : side) (p : path) : M (result file) :=
  r <- call (Create s p)
         (fun w => match create_fs p (fs_of s w) with
                   | inl e => inl e
                   | inr fs' => inr ((s, p), acquire (HFile s p) (set_fs s fs' w))
                   end) ;;
  ret (lift (err_of s "open" p) r).

Definition fs_MkdirAll (s : side) (p : path) : M (option error) :=
  fun w =>
    (r <- call (MkdirAll s p)
            (fun w => match mkdirAll_fs p (fs_of s w) with
                      | Some fs' => inr (tt, set_fs s fs' w)
                      | None => inl ENOTDIR
                      end) ;;
     ret (lift_unit (mkdir_error s (blocker (fs_of s w) p) p) r)) w.

(** [os.Stat], [os.Open], [os.Create], [os.MkdirAll]. *)
Definition os_Stat : path -> M (result entry) := fs_Stat Local.
Definition os_Open : path -> M (result file) := fs_Open Local.
Definition os_Create : path -> M (result file) := fs_Create Local.
Definition os_MkdirAll : path -> M (option error) := fs_MkdirAll Local.

(** The methods of [*sftp.Client]. *)
Definition sftp_Stat (c : sftpClient) : path -> M (result entry) := fs_Stat Remote.
Definition sftp_Open (c : sftpClient) : path -> M (result file) := fs_Open Remote.
Definition sftp_Create (c : sftpClient) : path -> M (result file) := fs_Create Remote.
Definition sftp_MkdirAll (c : sftpClient) : path -> M (option error) :=
  fs_MkdirAll Remote.

(** [f.Close()]: the handle is released whatever the call returns. *)
Definition file_Close (f : file) : M (option error) :=
  fun w =>
    let '(s, p) := f in
    let r := fault E (CloseFile s p) in
    (option_map (err_of s "close" p) r, drop (HFile s p) w, [Ev (CloseFile s p) r]).

(** [f.Sync()] on a local file. *)
Definition file_Sync (f : file) : M (option error) :=
  r <- call (Sync (snd f)) (fun w => inr (tt, w)) ;;
  ret (lift_unit (err_of (fst f) "sync" (snd f)) r).

(** [io.Copy(dst, src)]: reads the source to its end and writes what it read;
    a failing write leaves the first [cut] bytes in the destination. *)
Definition io_Copy (dst src : file) : M (option error) :=
  fun w =>
    let '(ss, sp) := src in
    let '(ds, dp) := dst in
    match fault E (Read ss sp) with
    | Some e => (Some (err_of ss "read" sp e), w, [Ev (Read ss sp) (Some e)])
    | None =>
        match stat_fs (fs_of ss w) sp with
        | Some (EFile data) =>
            match fault E (Write ds dp) with
            | Some e =>
                (Some (err_of ds "write" dp e),
                 set_fs ds (write_fs dp (firstn (cut E dp) data) (fs_of ds w)) w,
                 [Ev (Read ss sp) None; Ev (Write ds dp) (Some e)])
            | None =>
                (None,
                 set_fs ds (write_fs dp data (fs_of ds w)) w,
                 [Ev (Read ss sp) None; Ev (Write ds dp) None])
            end
        | Some EDir =>
            (Some (err_of ss "read" sp EISDIR), w, [Ev (Read ss sp) (Some EISDIR)])
        | None =>
            (Some (err_of ss "read" sp ENOENT), w, [Ev (Read ss sp) (Some ENOENT)])
        end
    end.

(** [sftp.NewClient(c.Client)]: a file transfer sub-channel on the connection. *)
Definition sftp_NewClient : M (result sftpClient) :=
  r <- call NewClient
         (fun w => if alive w then inr (SftpClient, acquire HClient w)
                   else inl ECLOSED) ;;
  ret (lift ConnError r).

Definition sftp_Close (c : sftpClient) : M (option error) :=
  fun w =>
    let r := fault E CloseClient in
    (option_map ConnError r, drop HClient w, [Ev CloseClient r]).

(** [c.NewSession()]: a command sub-channel on the connection. *)
Definition ssh_NewSession : M (result sshSession) :=
  r <- call NewSession
         (fun w => if alive w then inr (SshSession, acquire HSession w)
                   else inl ECLOSED) ;;
  ret (lift ConnError r).

(** [sess.CombinedOutput(cmd)]: what the command printed on stdout and stderr,
    and the error of running it. *)
Definition session_CombinedOutput (sess : sshSession) (cmd : string)
  : M (list byte * option error) :=
  fun w =>
    let r := fault E (CombinedOutput cmd) in
    ((output E cmd, option_map ConnError r), w, [Ev (CombinedOutput cmd) r]).

Definition session_Close (sess : sshSession) : M (option error) :=
  fun w =>
    let r := fault E CloseSession in
    (option_map ConnError r, drop HSession w, [Ev CloseSession r]).

(** [c.Client.Close()] of the SSH connection: closing a connection that is
    closed already is an error of the transport. *)
Definition ssh_Close : M (option error) :=
  fun w =>
    if alive w then
      let r := fault E CloseConn in
      (option_map ConnError r, mkWorld (lfs w) (rfs w) false (opened w),
       [Ev CloseConn r])
    else (Some (ConnError ECLOSED), w, [Ev CloseConn (Some ECLOSED)]).

(** [filepath.Rel] for a target below the base.  The walks hand out only
    paths below their root; for any other pair this model reports an error. *)
Definition Rel (base targ : path) : result path :=
  match strip_prefix base targ with
  | Some rel => Ok rel
  | None => Err (RelError base targ)
  end.

(** The function [filepath.Walk] calls at every node: the path, what [Lstat]
    told (nothing when it failed) and the error of reaching the node. *)
Definition WalkFunc : Type := path -> option entry -> option error -> M (option error).

(** [for _, e := range entries { if err := body(e); err != nil { return err } }]
    followed by [return nil]. *)
Definition for_entries (body : string -> node -> M (option error))
  : list (string * node) -> M (option error) :=
  fix loop (es : list (string * node)) : M (option error) :=
    match es with
    | [] => ret None
    | (name, c) :: es' =>
        e <- body name c ;;
        match e with
        | Some e => ret (Some e)
        | None => loop es'
        end
    end.

(** [walk] of [path/filepath] below a node whose [Lstat] succeeded.  A
    directory is read first and the function is called with the error of
    that; the entries are visited in the order of their names.  The errors of
    this model do not include [SkipDir]: an error of the function ends the
    walk. *)
Fixpoint walk (p : path) (n : node) (fn : WalkFunc) {struct n} : M (option error) :=
  match n with
  | File data => fn p (Some (EFile data)) None
  | Dir es =>
      err <- fs_ReadDir Local p ;;
      err1 <- fn p (Some EDir) err ;;
      match err, err1 with
      | None, None =>
          for_entries
            (fun name c =>
               let filename := Join p [name] in
               r <- fs_Lstat Local filename ;;
               match r with
               | Err err => fn filename None (Some err)
               | Ok _ => walk filename c fn
               end) es
      | _, _ => ret err1
      end
  end.

(** [filepath.Walk(root, fn)]. *)
Definition filepath_Walk (root : path) (fn : WalkFunc) : M (option error) :=
  fun w =>
    (r <- fs_Lstat Local root ;;
     match r, lookup (lfs w) root with
     | Ok _, Some n => walk root (sort_tree n) fn
     | Ok _, None => ret None
     | Err err, _ => fn root None (Some err)
     end) w.

(** [for walker.Step() { body }] over the walker of [sftpClient.Walk]: every
    node is handed to the body; on the next step a directory is read, and
    either its entries follow, in the order the server lists them, or the
    directory comes once more with the error of reading it.  The body answers
    [Some e] when it returns [e] from the function, [None] to go on. *)
Fixpoint walker_loop (p : path) (n : node) (body : WalkFunc) {struct n}
  : M (option error) :=
  r <- body p (Some (entry_of n)) None ;;
  match r with
  | Some e => ret (Some e)
  | None =>
      match n with
      | File _ => ret None
      | Dir es =>
          err <- fs_ReadDir Remote p ;;
          match err with
          | Some err => body p (Some EDir) (Some err)
          | None =>
              for_entries (fun name c => walker_loop (Join p [name]) c body) es
          end
      end
  end.

(** [sftpClient.Walk(root)] followed by the loop over its steps. *)
Definition sftp_Walk_loop (c : sftpClient) (root : path) (body : WalkFunc)
  : M (option error) :=
  fun w =>
    (r <- fs_Lstat Remote root ;;
     match r, lookup (rfs w) root with
     | Ok _, Some n => walker_loop root n body
     | Ok _, None => ret None
     | Err err, _ => body root None (Some err)
     end) w.

(** ** client.go *)

(** [Run]. *)
Definition Run (cmd : string) : M (list byte * option error) :=
  r <- ssh_NewSession ;;
  match r with
  | Err err => ret ([], Some err)
  | Ok sess => defer (session_Close sess) (session_CombinedOutput sess cmd)
  end.

(** [NewSftp]. *)
Definition NewSftp : M (result sftpClient) := sftp_NewClient.

(** [Close]. *)
Definition Close : M (option error) := ssh_Close.

(** [uploadFile]. *)
Definition uploadFile (srcPath dstPath : path) : M (option error) :=
  r <- sftp_NewClient ;;
  match r with
  | Err err => ret (Some (Wrapped "failed to create sftp client" err))
  | Ok sftpClient =>
      defer (sftp_Close sftpClient)
        (r <- os_Open srcPath ;;
         match r with
         | Err err => ret (Some (Wrapped "failed to open source file" err))
         | Ok srcFile =>
             defer (file_Close srcFile)
               (r <- sftp_Create sftpClient dstPath ;;
                match r with
                | Err err => ret (Some (Wrapped "failed to create remote file" err))
                | Ok dstFile =>
                    defer (file_Close dstFile) (io_Copy dstFile srcFile)
                end)
         end)
  end.

(** The function [uploadDirectory] hands to [filepath.Walk].  What
    [sftpClient.MkdirAll] returns is not looked at. *)
Definition uploadDirectory_fn (sftpClient : sftpClient) (srcDir dstDir : path)
  : WalkFunc :=
  fun path info err =>
    match err with
    | Some err => ret (Some err)
    | None =>
        match Rel srcDir path with
        | Err err => ret (Some err)
        | Ok relPath =>
            let targetPath := Join dstDir relPath in
            if match info with Some i => IsDir i | None => false end then
              _ <- sftp_MkdirAll sftpClient targetPath ;;
              ret None
            else
              r <- os_Open path ;;
              match r with
              | Err err => ret (Some err)
              | Ok srcFile =>
                  defer (file_Close srcFile)
                    (r <- sftp_Create sftpClient targetPath ;;
                     match r with
                     | Err err => ret (Some err)
                     | Ok dstFile =>
                         defer (file_Close dstFile)
                           (err <- io_Copy dstFile srcFile ;;
                            match err with
                            | Some err => ret (Some err)
                            | None => ret None
                            end)
                     end)
              end
        end
    end.

(** [uploadDirectory]. *)
Definition uploadDirectory (srcDir dstDir : path) : M (option error) :=
  r <- sftp_NewClient ;;
  match r with
  | Err err => ret (Some (Wrapped "failed to create sftp client" err))
  | Ok sftpClient =>
      defer (sftp_Close sftpClient)
        (filepath_Walk srcDir (uploadDirectory_fn sftpClient srcDir dstDir))
  end.

(** [Upload]. *)
Definition Upload (srcPath dstPath : path) : M (option error) :=
  r <- os_Stat srcPath ;;
  match r with
  | Err err => ret (Some (Wrapped "failed to stat source path" err))
  | Ok stat =>
      if IsDir stat then uploadDirectory srcPath dstPath
      else uploadFile srcPath dstPath
  end.

(** [UploadV1]: the upload that does not handle directories. *)
Definition UploadV1 (localPath remotePath : path) : M (option error) :=
  r <- os_Open localPath ;;
  match r with
  | Err err => ret (Some err)
  | Ok local =>
      defer (file_Close local)
        (r <- NewSftp ;;
         match r with
         | Err err => ret (Some err)
         | Ok ftp =>
             defer (sftp_Close ftp)
               (r <- sftp_Create ftp remotePath ;;
                match r with
                | Err err => ret (Some err)
                | Ok remote => defer (file_Close remote) (io_Copy remote local)
                end)
         end)
  end.

(** [downloadFile]. *)
Definition downloadFile (sftpClient : sftpClient) (remotePath localPath : path)
  : M (option error) :=
  r <- sftp_Open sftpClient remotePath ;;
  match r with
  | Err err => ret (Some (Wrapped "failed to open remote file" err))
  | Ok srcFile =>
      defer (file_Close srcFile)
        (err <- os_MkdirAll (Dir_of localPath) ;;
         match err with
         | Some err => ret (Some (Wrapped "failed to create local directories" err))
         | None =>
             r <- os_Create localPath ;;
             match r with
             | Err err => ret (Some (Wrapped "failed to create local file" err))
             | Ok dstFile =>
                 defer (file_Close dstFile)
                   (err <- io_Copy dstFile srcFile ;;
                    match err with
                    | Some err => ret (Some (Wrapped "failed to copy data" err))
                    | None => file_Sync dstFile
                    end)
             end
         end)
  end.

(** The body of the loop of [downloadDirectory]. *)
Definition downloadDirectory_body (sftpClient : sftpClient)
  (remoteDir localDir : path) : WalkFunc :=
  fun path info err =>
    match err with
    | Some err => ret (Some err)
    | None =>
        match Rel remoteDir path with
        | Err err => ret (Some (Wrapped "failed to get relative path" err))
        | Ok relPath =>
            let localPath := Join localDir relPath in
            if match info with Some i => IsDir i | None => false end then
              err <- os_MkdirAll localPath ;;
              match err with
              | Some err => ret (Some (Wrapped "failed to create local directory" err))
              | None => ret None
              end
            else
              err <- downloadFile sftpClient path localPath ;;
              match err with
              | Some err => ret (Some err)
              | None => ret None
              end
        end
    end.

(** [downloadDirectory]. *)
Definition downloadDirectory (sftpClient : sftpClient) (remoteDir localDir : path)
  : M (option error) :=
  sftp_Walk_loop sftpClient remoteDir
    (downloadDirectory_body sftpClient remoteDir localDir).

(** [Download]. *)
Definition Download (remotePath localPath : path) : M (option error) :=
  r <- NewSftp ;;
  match r with
  | Err err => ret (Some err)
  | Ok sftpClient =>
      defer (sftp_Close sftpClient)
        (r <- sftp_Stat sftpClient remotePath ;;
         match r with
         | Err err => ret (Some (Wrapped "failed to stat remote path" err))
         | Ok info =>
             if IsDir info then downloadDirectory sftpClient remotePath localPath
             else downloadFile sftpClient remotePath localPath
         end)
  end.

End Program.

(** ** client.go: the first download, and commands *)

(** A [context.Context]: the background context, or one the caller made. *)
Inductive context : Type :=
| Background
| CallerContext (id : nat).

(** The [Cmd] that [Command] builds, with the fields [client.go] sets. *)
Record Cmd : Type := mkCmd {
  Cmd_Path : string;
  Cmd_Args : list string;
  Cmd_Session : sshSession;
  Cmd_Context : context
}.

Section Commands.

Variable E : Env.

(** [Command]: the sub-channel it opens goes to the [Cmd]; nothing closes it
    here. *)
Definition Command (name : string) (args : list string) : M (result Cmd) :=
  r <- ssh_NewSession E ;;
  match r with
  | Err err => ret (Err err)
  | Ok sess => ret (Ok (mkCmd name args sess Background))
  end.

(** [CommandContext]. *)
Definition CommandContext (ctx : context) (name : string) (args : list string)
  : M (result Cmd) :=
  r <- Command name args ;;
  match r with
  | Err err => ret (Err err)
  | Ok cmd =>
      ret (Ok (mkCmd (Cmd_Path cmd) (Cmd_Args cmd) (Cmd_Session cmd) ctx))
  end.

(** [DownloadV1]: the download that creates the local file first. *)
Definition DownloadV1 (remotePath localPath : path) : M (option error) :=
  r <- os_Create E localPath ;;
  match r with
  | Err err => ret (Some err)
  | Ok local =>
      defer (file_Close E local)
        (r <- NewSftp E ;;
         match r with
         | Err err => ret (Some err)
         | Ok ftp =>
             defer (sftp_Close E ftp)
               (r <- sftp_Open E ftp remotePath ;;
                match r with
                | Err err => ret (Some err)
                | Ok remote =>
                    defer (file_Close E remote)
                      (err <- io_Copy E local remote ;;
                       match err with
                       | Some err => ret (Some err)
                       | None => file_Sync E local
                       end)
                end)
         end)
  end.

End Commands.


(** ** Establishing the connection *)

Module Conn.

(** A host key. *)
Definition key : Type := list byte.

(** A trust store in the style of a known hosts file: hosts and their keys. *)
Definition store : Type := list (string * key).

(** The policies that verify the identity of the host: the check against a
    trust store, and [ssh.InsecureIgnoreHostKey()], which accepts every key. *)
Inductive HostKeyCallback : Type :=
| KnownHostsCallback (trusted : store)
| InsecureIgnoreHostKey.

(** The ways to authenticate are opaque here. *)
Definition Auth : Type := list string.

(** [Config]. *)
Record Config : Type := mkConfig {
  Auth_of : Auth;
  User : string;
  Addr : string;
  Port : nat;
  Timeout : nat;
  Callback : option HostKeyCallback;
  BannerCallback : option string
}.

(** [ssh.ClientConfig]. *)
Record ClientConfig : Type := mkClientConfig {
  cc_User : string;
  cc_Auth : Auth;
  cc_Timeout : nat;
  cc_HostKeyCallback : option HostKeyCallback;
  cc_BannerCallback : option string
}.

Inductive dial_error : Type :=
| ErrNetwork
| ErrMustSpecifyHostKeyCallback
| ErrUnknownHost
| ErrKeyMismatch
| ErrAuth
| ErrKnownHostsFile.

(** An established [*ssh.Client]: the peer, and the policy that accepted its
    key. *)
Record sshClient : Type := mkSshClient {
  peer : string * nat;
  accepted_by : HostKeyCallback
}.

(** [Client]: the connection ([None] is the nil pointer) and its [Config]. *)
Record Client : Type := mkClient {
  Client_of : option sshClient;
  Config_of : Config
}.

(** The network and the machine of the user. *)
Record Network : Type := mkNetwork {
  reachable : string * nat -> bool;
  host_key : string * nat -> key;
  accepts : string -> Auth -> bool;
  known_hosts_file : option store
}.

Fixpoint find_host (h : string) (t : store) : option key :=
  match t with
  | [] => None
  | (h', k) :: t' => if String.eqb h h' then Some k else find_host h t'
  end.

Fixpoint key_eqb (a b : key) : bool :=
  match a, b with
  | [], [] => true
  | x :: a', y :: b' => Byte.eqb x y && key_eqb a' b'
  | _, _ => false
  end.

(** What a policy says about the key a host presents. *)
Definition verify (cb : HostKeyCallback) (host : string) (k : key)
  : option dial_error :=
  match cb with
  | InsecureIgnoreHostKey => None
  | KnownHostsCallback trusted =>
      match find_host host trusted with
      | None => Some ErrUnknownHost
      | Some k' => if key_eqb k k' then None else Some ErrKeyMismatch
      end
  end.

(** 20 seconds. *)
Definition DefaultTimeout : nat := 20.

(** [net.JoinHostPort(addr, fmt.Sprint(port))]. *)
Definition JoinHostPort (addr : string) (port : nat) : string * nat := (addr, port).

Section Dialing.

Variable net : Network.

(** [ssh.Dial]: connects, then refuses a configuration without a host key
    policy, then has the policy verify the key of the host, then
    authenticates. *)
Definition ssh_Dial (proto : string) (addr : string * nat) (config : ClientConfig)
  : sshClient + dial_error :=
  if reachable net addr then
    match cc_HostKeyCallback config with
    | None => inr ErrMustSpecifyHostKeyCallback
    | Some cb =>
        match verify cb (fst addr) (host_key net addr) with
        | Some e => inr e
        | None =>
            if accepts net (cc_User config) (cc_Auth config)
            then inl (mkSshClient addr cb)
            else inr ErrAuth
        end
    end
  else inr ErrNetwork.

(** Modelled from the spec: [DefaultKnownHosts] is declared in a file of the
    repository that is not part of the sources at hand.  The spec has [New]
    verify the host against a trust store in the style of known hosts: the
    function yields the check against the known hosts file of the user, or an
    error when that file cannot be had. *)
Definition DefaultKnownHosts : HostKeyCallback + dial_error :=
  match known_hosts_file net with
  | Some trusted => inl (KnownHostsCallback trusted)
  | None => inr ErrKnownHostsFile
  end.

(** [Dial]. *)
Definition Dial (proto : string) (c : Config) : sshClient + dial_error :=
  ssh_Dial proto (JoinHostPort (Addr c) (Port c))
    (mkClientConfig (User c) (Auth_of c) (Timeout c) (Callback c) (BannerCallback c)).

(** [NewConn]: the client is returned with its configuration also when the
    dial fails. *)
Definition NewConn (config : Config) : option Client * option dial_error :=
  match Dial "tcp" config with
  | inl conn => (Some (mkClient (Some conn) config), None)
  | inr err => (Some (mkClient None config), Some err)
  end.

(** [New]. *)
Definition New (user addr : string) (auth : Auth) : option Client * option dial_error :=
  match DefaultKnownHosts with
  | inr err => (None, Some err)
  | inl callback =>
      NewConn (mkConfig auth user addr 22 DefaultTimeout (Some callback) None)
  end.

(** [NewUnknown]. *)
Definition NewUnknown (user addr : string) (auth : Auth)
  : option Client * option dial_error :=
  NewConn (mkConfig auth user addr 22 DefaultTimeout (Some InsecureIgnoreHostKey) None).

End Dialing.

End Conn.

(** ** Reading traces *)

(** [a] comes before [b] in the trace. *)
Definition precedes (a b : event) (tr : list event) : Prop :=
  exists t1 t2 t3, tr = t1 ++ a :: t2 ++ b :: t3.

Definition prim_eqb (a b : prim) : bool :=
  match a, b with
  | Stat s p, Stat s' p' | Lstat s p, Lstat s' p' | ReadDir s p, ReadDir s' p'
  | Open s p, Open s' p' | Create s p, Create s' p' | MkdirAll s p, MkdirAll s' p'
  | Read s p, Read s' p' | Write s p, Write s' p'
  | CloseFile s p, CloseFile s' p' => side_eqb s s' && path_eqb p p'
  | Sync p, Sync p' => path_eqb p p'
  | NewClient, NewClient | CloseClient, CloseClient | NewSession, NewSession
  | CloseSession, CloseSession | CloseConn, CloseConn => true
  | CombinedOutput c, CombinedOutput c' => String.eqb c c'
  | _, _ => false
  end.

Definition prim_of (e : event) : prim := let 'Ev p _ := e in p.
Definition failed (e : event) : bool :=
  match e with
  | Ev _ (Some _) => true
  | Ev _ None => false
  end.

(** How often a primitive was called. *)
Definition calls (p : prim) (tr : list event) : nat :=
  List.length (filter (fun e => prim_eqb (prim_of e) p) tr).

(** The calls whose result the program does not look at: the closes of the
    deferred clean-up. *)
Definition is_close (e : event) : bool :=
  match prim_of e with
  | CloseFile _ _ | CloseClient | CloseSession => true
  | _ => false
  end.

(** The error a failed primitive returns. *)
Definition prim_error (p : prim) (e : errno) : error :=
  match p with
  | Stat s q => err_of s "stat" q e
  | Lstat s q => err_of s "lstat" q e
  | ReadDir s q => err_of s "open" q e
  | Open s q => err_of s "open" q e
  | Create s q => err_of s "open" q e
  | MkdirAll s q => mkdir_error s q q e
  | Read s q => err_of s "read" q e
  | Write s q => err_of s "write" q e
  | Sync q => err_of Local "sync" q e
  | CloseFile s q => err_of s "close" q e
  | NewClient | CloseClient | NewSession | CombinedOutput _ | CloseSession
  | CloseConn => ConnError e
  end.

(** The error below the messages [fmt.Errorf] wrapped around it. *)
Fixpoint cause (e : error) : error :=
  match e with
  | Wrapped _ e' => cause e'
  | _ => e
  end.

(** The statuses in place of which the SFTP client returns a fixed error of
    the standard library: [os.ErrNotExist] for no such file,
    [os.ErrPermission] for permission denied, [io.EOF] for the end of the
    file. *)
Definition normalised (e : errno) : bool :=
  match e with
  | ENOENT | EACCES | EOF => true
  | _ => false
  end.

(** The paths the text of an error names.  An [*os.PathError] names its
    path.  The fixed errors that the SFTP client returns for some statuses
    name none; for the other statuses the text is the message of the server.
    The messages that [client.go] wraps around an error are fixed texts
    without a path. *)
Fixpoint paths_of (E : Env) (e : error) : list path :=
  match e with
  | PathError _ p _ => [p]
  | StatusError en p =>
      if normalised en then [] else if status_names E p then [p] else []
  | ConnError _ => []
  | RelError a b => [a; b]
  | Wrapped _ e' => paths_of E e'
  end.

(** An environment in which no call fails for a reason outside the model;
    the messages of the server name the path of the request. *)
Definition no_faults : Env :=
  mkEnv (fun _ => None) (fun _ => 0) (fun _ => []) (fun _ => true).

(** ** Concrete worlds and environments *)

(** A world with an empty local and an empty remote file system. *)
Definition empty_world : World := mkWorld (Dir []) (Dir []) true [].

(** The environment in which closing a command sub-channel reports [EOF], as
    it does once the command has ended, and nothing else fails. *)
Definition close_reports_eof : Env :=
  mkEnv (fun p => match p with CloseSession => Some EOF | _ => None end)
        (fun _ => 0) (fun _ => [x68; x69]%byte) (fun _ => true).

Definition errno_eqb (a b : errno) : bool :=
  match a, b with
  | ENOENT, ENOENT | ENOTDIR, ENOTDIR | EISDIR, EISDIR | EACCES, EACCES
  | EIO, EIO | ENOSPC, ENOSPC | EOF, EOF | ECLOSED, ECLOSED
  | EFAILURE, EFAILURE => true
  | _, _ => false
  end.

Definition event_eqb (a b : event) : bool :=
  let 'Ev p r := a in
  let 'Ev p' r' := b in
  prim_eqb p p' &&
  match r, r' with
  | None, None => true
  | Some e, Some e' => errno_eqb e e'
  | _, _ => false
  end.

(** A decision procedure for [precedes]. *)
Fixpoint precedesb (a b : event) (tr : list event) : bool :=
  match tr with
  | [] => false
  | x :: tr' => (event_eqb x a && existsb (event_eqb b) tr') || precedesb a b tr'
  end.

(** The conditions under which neither the upload of the file at [src] to
    [dst] nor the download of [dst] to [back] can fail: no call fails for a
    reason outside the model, the connection is open, the parent of [dst] is a
    remote directory and [dst] is not one, no component of the parent of
    [back] is a local regular file and [back] is not a directory. *)
Definition round_trip_ready (E : Env) (w : World) (src dst back : path) : Prop :=
  (forall pr, fault E pr = None) /\ alive w = true /\
  dst <> [] /\ stat_fs (rfs w) (Dir_of dst) = Some EDir /\
  stat_fs (rfs w) dst <> Some EDir /\
  back <> [] /\
  (forall q d, prefixb q (Dir_of back) = true -> stat_fs (lfs w) q <> Some (EFile d)) /\
  stat_fs (lfs w) back <> Some EDir.

(** A world whose local file system holds the file [a.txt]. *)
Definition one_file_world : World :=
  mkWorld (Dir [("a.txt", File [x01; x02; x03]%byte)]) (Dir []) true [].

(** The remote file system has a regular file where the upload is to make
    the directory [r]; the local directory [d] is empty. *)
Definition blocked_world : World :=
  mkWorld (Dir [("d", Dir [])]) (Dir [("r", File [x2a]%byte)]) true [].

(** ** What a walk leaves behind *)

(** Outside its target [t] a walk leaves every path as it was, or makes a
    missing ancestor of [t] a directory. *)
Definition framed (t : path) (fs fs' : node) (x : path) : Prop :=
  stat_fs fs' x = stat_fs fs x \/
  (prefixb x t = true /\ stat_fs fs x = None /\ stat_fs fs' x = Some EDir).

(** What the walk of the node at [src ++ q], copied from the file system on
    side [from] to [dst ++ q] on side [to], leaves behind, whatever failed:
    the source side, the handles and the connection are as before; outside
    the target the destination is [framed]; a directory of the destination
    stays one; every file that was written completely holds the bytes of its
    source; every directory that was made is there. *)
Definition walk_post (from to : side) (src dst q : path) (w : World)
  (r : option error * World * list event) : Prop :=
  (fs_of from (world r) = fs_of from w /\ opened (world r) = opened w /\
   alive (world r) = alive w) /\
  (forall x, prefixb (dst ++ q) x = false ->
             framed (dst ++ q) (fs_of to w) (fs_of to (world r)) x) /\
  (forall x, stat_fs (fs_of to w) x = Some EDir ->
             stat_fs (fs_of to (world r)) x = Some EDir) /\
  (forall t, In (Ev (Write to t) None) (trace r) ->
     exists rel b, t = (dst ++ q) ++ rel /\
       stat_fs (fs_of from w) (src ++ q ++ rel) = Some (EFile b) /\
       stat_fs (fs_of to (world r)) t = Some (EFile b)) /\
  (forall t, In (Ev (MkdirAll to t) None) (trace r) ->
     stat_fs (fs_of to (world r)) t = Some EDir).

(** The same for the loop over the entries [names] of the directory at
    [src ++ q]: the frame is every path below none of their targets, and a
    file that was written is below one of them. *)
Definition loop_post (from to : side) (src dst q : path) (names : list string)
  (w : World) (r : option error * World * list event) : Prop :=
  (fs_of from (world r) = fs_of from w /\ opened (world r) = opened w /\
   alive (world r) = alive w) /\
  (forall x, (forall n, In n names -> prefixb ((dst ++ q) ++ [n]) x = false) ->
             framed (dst ++ q) (fs_of to w) (fs_of to (world r)) x) /\
  (forall x, stat_fs (fs_of to w) x = Some EDir ->
             stat_fs (fs_of to (world r)) x = Some EDir) /\
  (forall t, In (Ev (Write to t) None) (trace r) ->
     exists n rel b, In n names /\ t = (dst ++ q) ++ n :: rel /\
       stat_fs (fs_of from w) (src ++ q ++ n :: rel) = Some (EFile b) /\
       stat_fs (fs_of to (world r)) t = Some (EFile b)) /\
  (forall t, In (Ev (MkdirAll to t) None) (trace r) ->
     stat_fs (fs_of to (world r)) t = Some EDir).

(** What the step at a regular file, copied from [sp] to [t], leaves
    behind. *)
Definition file_step_post (from to : side) (sp t : path) (w : World)
  (r : option error * World * list event) : Prop :=
  (fs_of from (world r) = fs_of from w /\ opened (world r) = opened w /\
   alive (world r) = alive w) /\
  (forall x, path_eqb x t = false ->
             framed t (fs_of to w) (fs_of to (world r)) x) /\
  (forall x, stat_fs (fs_of to w) x = Some EDir ->
             stat_fs (fs_of to (world r)) x = Some EDir) /\
  (forall t', In (Ev (Write to t') None) (trace r) ->
     t' = t /\
     exists b, stat_fs (fs_of from w) sp = Some (EFile b) /\
               stat_fs (fs_of to (world r)) t = Some (EFile b)) /\
  (forall t', In (Ev (MkdirAll to t') None) (trace r) ->
     stat_fs (fs_of to (world r)) t' = Some EDir).

(** What the step at a directory with target [t] leaves behind. *)
Definition dir_step_post (from to : side) (t : path) (w : World)
  (r : option error * World * list event) : Prop :=
  (fs_of from (world r) = fs_of from w /\ opened (world r) = opened w /\
   alive (world r) = alive w) /\
  (forall x, framed t (fs_of to w) (fs_of to (world r)) x) /\
  (forall x, stat_fs (fs_of to w) x = Some EDir ->
             stat_fs (fs_of to (world r)) x = Some EDir) /\
  (forall t', ~ In (Ev (Write to t') None) (trace r)) /\
  (forall t', In (Ev (MkdirAll to t') None) (trace r) ->
     stat_fs (fs_of to (world r)) t' = Some EDir).

(** A trace without a completed write and without a directory made on side
    [to]. *)
Definition quiet (to : side) (tr : list event) : Prop :=
  forall t, ~ In (Ev (Write to t) None) tr /\ ~ In (Ev (MkdirAll to t) None) tr.

(** The tree [T] is what the file system [fs] holds at [p]. *)
Definition src_agrees (T : node) (fs : node) (p : path) : Prop :=
  forall rel e, stat_fs T rel = Some e -> stat_fs fs (p ++ rel) = Some e.

(** Nothing in [fs] below [t] is of another kind than what [T] has there: no
    regular file where [T] has a directory, no directory where [T] has a
    regular file. *)
Definition compat (T : node) (t : path) (fs : node) : Prop :=
  forall rel e, stat_fs T rel = Some e ->
    match e with
    | EDir => forall b, stat_fs fs (t ++ rel) <> Some (EFile b)
    | EFile _ => stat_fs fs (t ++ rel) <> Some EDir
    end.

(** Every component of [t], and [t] itself, is a directory of [fs]. *)
Definition all_dirs (fs : node) (t : path) : Prop :=
  forall x, prefixb x t = true -> stat_fs fs x = Some EDir.

(** The conditions under which the upload of the directory tree [T] at [src]
    to [dst] cannot fail: no call fails for a reason outside the model, the
    connection is open, [T] is the directory at [src] and lists no name
    twice, no component of [dst] is a remote regular file, and the remote
    file system has nothing of another kind where the nodes of [T] go. *)
Definition upload_ready (E : Env) (w : World) (src dst : path) (T : node) : Prop :=
  (forall pr, fault E pr = None) /\ alive w = true /\
  lookup (lfs w) src = Some T /\ entry_of T = EDir /\ wf_node T = true /\
  (forall x b, prefixb x dst = true -> stat_fs (rfs w) x <> Some (EFile b)) /\
  compat T dst (rfs w).

(** What the target [t] of the root of [T] needs: for a regular file that its
    parent is a directory, for a directory that no component of [t] is a
    regular file. *)
Definition root_ok (T : node) (t : path) (fs : node) : Prop :=
  match T with
  | File _ => t <> [] /\ stat_fs fs (Dir_of t) = Some EDir
  | Dir _ => forall x b, prefixb x t = true -> stat_fs fs x <> Some (EFile b)
  end.

(** ** The shape of a trace *)

(** The calls whose result the program does not look at: the closes of the
    deferred clean-up, and the remote [MkdirAll] of the upload. *)
Definition unchecked (e : event) : bool :=
  is_close e ||
  match prim_of e with
  | MkdirAll Remote _ => true
  | _ => false
  end.

(** No call failed, but for calls whose result is not looked at. *)
Definition clean (tr : list event) : bool :=
  forallb (fun e => unchecked e || negb (failed e)) tr.

(** The trace of a run that ended with the error [err]: up to one call
    nothing failed that is looked at; that call failed, and [err] is its
    error, with or without messages wrapped around it; after it come only
    the closes of the clean-up. *)
Definition aborted_with (tr : list event) (err : error) : Prop :=
  exists pre p en post,
    tr = pre ++ Ev p (Some en) :: post /\
    clean pre = true /\
    forallb is_close post = true /\
    unchecked (Ev p (Some en)) = false /\
    cause err = prim_error p en.

(** A run either returns no error, and then nothing it looks at has failed,
    or it returns the error of the first call that failed, and has stopped
    there. *)
Definition fail_fast (r : option error * World * list event) : Prop :=
  match value r with
  | None => clean (trace r) = true
  | Some err => aborted_with (trace r) err
  end.

(** No rollback: when the transfer from [src] on side [from] to [dst] on side
    [to] has returned, with or without an error, every file it has written
    completely is at the destination with the bytes of its source, and every
    directory it has made is there. *)
Definition written_kept (from to : side) (src dst : path) (w : World)
  (r : option error * World * list event) : Prop :=
  (forall t, In (Ev (Write to t) None) (trace r) ->
     exists rel b, t = dst ++ rel /\
       stat_fs (fs_of from w) (src ++ rel) = Some (EFile b) /\
       stat_fs (fs_of to (world r)) t = Some (EFile b)) /\
  (forall t, In (Ev (MkdirAll to t) None) (trace r) ->
     stat_fs (fs_of to (world r)) t = Some EDir).

(** The local directory [d] holds the file [f]; at the remote path [r/f],
    where the file is to go, there is a directory. *)
Definition clash_world : World :=
  mkWorld (Dir [("d", Dir [("f", File [x61]%byte)])])
          (Dir [("r", Dir [("f", Dir [])])]) true [].

(** A local directory [site] with a file, an empty directory and a directory
    with a file in it; the remote directory [srv] is empty. *)
Definition site_tree : node :=
  Dir [("index.html", File [x3c; x68; x3e]%byte);
       ("empty", Dir []);
       ("css", Dir [("a.css", File [x61; x7b; x7d]%byte)])].

Definition site_world : World :=
  mkWorld (Dir [("site", site_tree)]) (Dir [("srv", Dir [])]) true [].

(** The tree of the local directory [d] of [clash_world]. *)
Definition clash_tree : node := Dir [("f", File [x61]%byte)].

(** A world whose remote file system holds the file [etc/motd]. *)
Definition remote_file_world : World :=
  mkWorld (Dir []) (Dir [("etc", Dir [("motd", File [x68; x69]%byte)])]) true [].

(** A network in which the host [example.org] presents the key [k1], which
    the known hosts file of the user lists. *)
Definition example_net : Conn.Network :=
  Conn.mkNetwork (fun _ => true) (fun _ => [x6b; x31]%byte) (fun _ _ => true)
    (Some [("example.org", [x6b; x31]%byte)]).

(** ** Further conditions and worlds *)

(** The calls that open or close a file transfer sub-channel. *)
Definition channel_call (e : event) : bool :=
  match prim_of e with
  | NewClient | CloseClient => true
  | _ => false
  end.

(** The conditions under which the download of the remote directory tree [T]
    at [src] to [dst] cannot fail: no call fails for a reason outside the
    model, the connection is open, [T] is the directory at [src] and lists no
    name twice, no component of [dst] is a local regular file, and the local
    file system has nothing of another kind where the nodes of [T] go. *)
Definition download_ready (E : Env) (w : World) (src dst : path) (T : node) : Prop :=
  (forall pr, fault E pr = None) /\ alive w = true /\
  lookup (rfs w) src = Some T /\ entry_of T = EDir /\ wf_node T = true /\
  (forall x b, prefixb x dst = true -> stat_fs (lfs w) x <> Some (EFile b)) /\
  compat T dst (lfs w).

(** The remote directory [srv] holds the tree [site_tree]; the local file
    system is empty. *)
Definition remote_site_world : World :=
  mkWorld (Dir []) (Dir [("srv", site_tree)]) true [].

(** The remote path [srv] is a directory; at the local path [out], where the
    download is to make a directory, there is a regular file. *)
Definition blocked_download_world : World :=
  mkWorld (Dir [("out", File [x2a]%byte)]) (Dir [("srv", Dir [])]) true [].

(** The local file [keep.txt] holds three bytes; the remote file system is
    empty. *)
Definition keep_world : World :=
  mkWorld (Dir [("keep.txt", File [x01; x02; x03]%byte)]) (Dir []) true [].

(** A local directory [d]; the remote file system is empty. *)
Definition local_dir_world : World :=
  mkWorld (Dir [("d", Dir [])]) (Dir []) true [].

(** The network of [example_net], but the host presents a key that no known
    hosts file lists, and the user has no known hosts file. *)
Definition stranger_net : Conn.Network :=
  Conn.mkNetwork (fun _ => true) (fun _ => [x6b; x32]%byte) (fun _ _ => true) None.

(** What a transfer from side [from] keeps: the file system of that side,
    the handles and the connection are as before, and no call opens or closes
    a sub-channel. *)
Definition source_kept (from : side) (w w' : World) (tr : list event) : Prop :=
  (fs_of from w' = fs_of from w /\ opened w' = opened w /\ alive w' = alive w) /\
  forallb (fun e => negb (channel_call e)) tr = true.

(** The calls of a transfer that open or close a sub-channel: none when the
    transfer gave up before, the failed opening, or one opening and one
    close. *)
Definition one_sub_channel (tr : list event) : Prop :=
  filter channel_call tr = [] \/
  (exists e, filter channel_call tr = [Ev NewClient (Some e)]) \/
  (exists res, filter channel_call tr = [Ev NewClient None; Ev CloseClient res]).

(** In the trace [tr] every create of a local file comes after a [MkdirAll]
    of its parent directory that succeeded. *)
Definition parents_first (tr : list event) : Prop :=
  forall lp r, In (Ev (Create Local lp) r) tr ->
    precedes (Ev (MkdirAll Local (Dir_of lp)) None) (Ev (Create Local lp) r) tr.

(** ** The error of the first failing call *)

(** The messages that [client.go] wraps around the error of a call; each is
    a fixed text. *)
Definition transfer_messages : list string :=
  ["failed to stat source path"; "failed to create sftp client";
   "failed to open source file"; "failed to create remote file";
   "failed to stat remote path"; "failed to open remote file";
   "failed to create local directories"; "failed to create local file";
   "failed to copy data"; "failed to get relative path";
   "failed to create local directory"].

(** Nothing but messages of [client.go] is wrapped around the cause of the
    error. *)
Fixpoint bare (e : error) : bool :=
  match e with
  | Wrapped msg e' => existsb (String.eqb msg) transfer_messages && bare e'
  | _ => true
  end.

(** [e] is the error that the failed call [p] itself returned.  For
    [MkdirAll] that found a regular file in its way this is the
    [*os.PathError] that names that file, a component of the path asked
    for. *)
Definition own_error (p : prim) (en : errno) (e : error) : Prop :=
  match p, en with
  | MkdirAll _ q, ENOTDIR =>
      exists x, prefixb x q = true /\ e = PathError "mkdir" x ENOTDIR
  | _, _ => e = prim_error p en
  end.

(** The trace of a run that ended with the error [err]: up to one call
    nothing failed that is looked at; that call failed; after it come only
    the closes of the clean-up; and [err] is the error that call returned,
    as it is or below messages of [client.go]. *)
Definition stopped_by (tr : list event) (err : error) : Prop :=
  exists pre p en post,
    tr = pre ++ Ev p (Some en) :: post /\
    clean pre = true /\
    forallb is_close post = true /\
    unchecked (Ev p (Some en)) = false /\
    own_error p en (cause err) /\
    bare err = true.

(** A run either returns no error, and then nothing it looks at has failed,
    or it has stopped at the first call that failed and returns the error of
    that call. *)
Definition first_error_returned (r : option error * World * list event) : Prop :=
  match value r with
  | None => clean (trace r) = true
  | Some err => stopped_by (trace r) err
  end.

(** The remote directory [r] holds the files [a] and [f]; the local file
    system is empty. *)
Definition pair_world : World :=
  mkWorld (Dir [])
          (Dir [("r", Dir [("a", File [x61]%byte); ("f", File [x62]%byte)])])
          true [].

(** The remote file [r/f] cannot be opened, because it is a symbolic link
    to nothing or has been removed since the directory was read: the server
    answers the request to open it with the status for no such file.
    Nothing else fails, and the messages of the server name the path of the
    request. *)
Definition dangling_link : Env :=
  mkEnv (fun p => match p with
                  | Open Remote q =>
                      if path_eqb q ["r"; "f"] then Some ENOENT else None
                  | _ => None
                  end)
        (fun _ => 0) (fun _ => []) (fun _ => true).

(** The network of [example_net], but the host presents the key [k2], while
    the known hosts file of the user lists the key [k1] for it. *)
Definition mismatch_net : Conn.Network :=
  Conn.mkNetwork (fun _ => true) (fun _ => [x6b; x32]%byte) (fun _ _ => true)
    (Some [("example.org", [x6b; x31]%byte)]).

(** The local file [a.txt] is to go below the remote path [srv], which is a
    regular file. *)
Definition file_in_way_world : World :=
  mkWorld (Dir [("a.txt", File [x01; x02; x03]%byte)])
          (Dir [("srv", File [x2a]%byte)]) true [].

(** ** Induction on trees *)

(** The induction principle of trees that gives the hypothesis for every
    entry of a directory. *)
Section NodeInduction.

Variable P : node -> Prop.
Hypothesis P_File : forall b, P (File b).
Hypothesis P_Dir : forall es, Forall (fun kc => P (snd kc)) es -> P (Dir es).

Fixpoint node_ind_nested (n : node) : P n :=
  match n with
  | File b => P_File b
  | Dir es =>
      P_Dir es
        ((fix all (es : list (string * node)) : Forall (fun kc => P (snd kc)) es :=
            match es with
            | [] => Forall_nil _
            | kc :: es' => Forall_cons kc (node_ind_nested (snd kc)) (all es')
            end) es)
  end.

End NodeInduction.

(** ** Facts about the file system *)

Lemma prefixb_refl p : prefixb p p = true.
Proof.
  induction p as [|a p IH]; simpl; auto.
  now rewrite String.eqb_refl.
Qed.

Lemma prefixb_true p q : prefixb p q = true <-> exists r, q = p ++ r.
Proof.
  revert q; induction p as [|a p IH]; intros q; simpl.
  - split; eauto.
  - destruct q as [|b q].
    + split; [discriminate | intros [r Hr]; discriminate].
    + rewrite andb_true_iff, String.eqb_eq, IH. split.
      * intros [-> [r ->]]. now exists r.
      * intros [r Hr]. injection Hr as -> ->. eauto.
Qed.

Lemma path_eqb_eq p q : path_eqb p q = true <-> p = q.
Proof.
  revert q; induction p as [|a p IH]; intros [|b q]; simpl;
    try (split; [discriminate | intros H; discriminate]); try tauto.
  rewrite andb_true_iff, String.eqb_eq, IH. split.
  - now intros [-> ->].
  - intros H; injection H; auto.
Qed.

Lemma assoc_set_child k k' v es :
  assoc k' (set_child k v es) = if String.eqb k' k then Some v else assoc k' es.
Proof.
  induction es as [|[k0 v0] es IH]; simpl.
  - destruct (String.eqb k' k); reflexivity.
  - destruct (String.eqb_spec k k0) as [->|Hk]; simpl.
    + destruct (String.eqb k' k0); reflexivity.
    + rewrite IH. destruct (String.eqb_spec k' k0) as [->|Hk'].
      * destruct (String.eqb_spec k0 k); congruence.
      * reflexivity.
Qed.

Lemma stat_nil n : stat_fs n [] = Some (entry_of n).
Proof. reflexivity. Qed.

Lemma stat_cons_dir es c q :
  stat_fs (Dir es) (c :: q) =
  match assoc c es with
  | Some ch => stat_fs ch q
  | None => None
  end.
Proof. unfold stat_fs; simpl. now destruct (assoc c es). Qed.

Lemma Dir_of_cons c c' p : Dir_of (c :: c' :: p) = c :: Dir_of (c' :: p).
Proof. reflexivity. Qed.

(** What [Stat] tells after a regular file was stored. *)
Lemma stat_put_file p b n q :
  p <> [] ->
  stat_fs n (Dir_of p) = Some EDir ->
  stat_fs n p <> Some EDir ->
  stat_fs (put p (File b) n) q =
  if path_eqb q p then Some (EFile b) else stat_fs n q.
Proof.
  revert n q; induction p as [|c p IH]; intros n q Hne Hpar Hnd; [congruence|].
  destruct n as [d|es].
  { destruct p; [discriminate Hpar | rewrite Dir_of_cons in Hpar; discriminate]. }
  destruct p as [|c' p].
  - assert (put [c] (File b) (Dir es) = Dir (set_child c (File b) es)) as ->.
    { simpl. now destruct (assoc c es). }
    destruct q as [|c0 q]; [reflexivity|].
    rewrite !stat_cons_dir, assoc_set_child. simpl.
    rewrite stat_cons_dir in Hnd.
    destruct (String.eqb_spec c0 c) as [->|Hc]; simpl; [|reflexivity].
    destruct q as [|c1 q]; [reflexivity|]. simpl.
    destruct (assoc c es) as [ch|]; [|reflexivity].
    destruct ch as [d|es']; [reflexivity|]. now rewrite stat_nil in Hnd.
  - rewrite Dir_of_cons, stat_cons_dir in Hpar. rewrite stat_cons_dir in Hnd.
    simpl put. destruct (assoc c es) as [ch|] eqn:Hch; [|discriminate].
    destruct q as [|c0 q]; [reflexivity|].
    rewrite !stat_cons_dir, assoc_set_child. simpl path_eqb.
    destruct (String.eqb_spec c0 c) as [->|Hc]; simpl; [|reflexivity].
    rewrite Hch. apply IH; auto; discriminate.
Qed.

(** What [Stat] tells after [MkdirAll]. *)
Lemma stat_mkdirAll p n n' q :
  mkdirAll_fs p n = Some n' ->
  stat_fs n' q = if prefixb q p then Some EDir else stat_fs n q.
Proof.
  revert n n' q; induction p as [|c p IH]; intros n n' q H.
  - destruct n as [d|es]; simpl in H; [discriminate|]. injection H as <-.
    destruct q; reflexivity.
  - destruct n as [d|es]; simpl in H; [discriminate|].
    destruct (mkdirAll_fs p _) as [ch'|] eqn:Hm; [|discriminate].
    injection H as <-. destruct q as [|c0 q]; [reflexivity|].
    rewrite !stat_cons_dir, assoc_set_child. simpl.
    destruct (String.eqb_spec c0 c) as [->|Hc]; simpl; [|reflexivity].
    rewrite (IH _ _ q Hm). destruct (prefixb q p) eqn:Hq; [reflexivity|].
    destruct (assoc c es); [reflexivity|]. destruct q; [discriminate | reflexivity].
Qed.

(** [MkdirAll] succeeds unless a component of the path is a regular file. *)
Lemma mkdirAll_succeeds p n :
  (forall q b, prefixb q p = true -> stat_fs n q <> Some (EFile b)) ->
  exists n', mkdirAll_fs p n = Some n'.
Proof.
  revert n; induction p as [|c p IH]; intros n H.
  - destruct n as [d|es]; [|simpl; eauto]. exfalso. now apply (H [] d).
  - destruct n as [d|es]; [exfalso; now apply (H [] d)|]. simpl.
    destruct (IH (match assoc c es with Some ch => ch | None => Dir [] end))
      as [ch' Hch'].
    + intros q b Hq Hst. destruct (assoc c es) as [ch|] eqn:Hch.
      * apply (H (c :: q) b); [simpl; now rewrite String.eqb_refl|].
        now rewrite stat_cons_dir, Hch.
      * destruct q; discriminate.
    + rewrite Hch'. eauto.
Qed.

Lemma mkdirAll_fails p n :
  mkdirAll_fs p n = None ->
  exists q b, prefixb q p = true /\ stat_fs n q = Some (EFile b).
Proof.
  revert n; induction p as [|c p IH]; intros n H.
  - destruct n as [d|es]; [|discriminate]. now exists [], d.
  - destruct n as [d|es]; [now exists [], d|]. simpl in H.
    destruct (mkdirAll_fs p _) as [ch'|] eqn:Hm; [discriminate|].
    destruct (IH _ Hm) as (q & b & Hq & Hst).
    destruct (assoc c es) as [ch|] eqn:Hch.
    + exists (c :: q), b. simpl. rewrite String.eqb_refl, stat_cons_dir, Hch. auto.
    + destruct q; discriminate.
Qed.

Lemma mkdirAll_no_file p n n' :
  mkdirAll_fs p n = Some n' ->
  forall q d, prefixb q p = true -> stat_fs n q <> Some (EFile d).
Proof.
  intros Hm q d Hq Hst.
  destruct (prefixb_true q p) as [[r ->] _]; [assumption|].
  clear Hq. revert n n' Hm Hst. induction q as [|c q IH]; intros n n' Hm Hst.
  - destruct n; [destruct r; discriminate | discriminate].
  - destruct n as [b|es]; [discriminate|]. simpl in Hm.
    rewrite stat_cons_dir in Hst.
    destruct (assoc c es) as [ch|]; [|discriminate].
    destruct (mkdirAll_fs (q ++ r) ch) as [ch'|] eqn:Hm'; [|discriminate].
    eapply IH; eauto.
Qed.

(** What [Stat] tells after [Create]. *)
Lemma stat_create p fs fs' q :
  create_fs p fs = inr fs' ->
  stat_fs fs' q = if path_eqb q p then Some (EFile []) else stat_fs fs q.
Proof.
  unfold create_fs. destruct p as [|c p]; [discriminate|].
  destruct (stat_fs fs (Dir_of (c :: p))) as [[d|]|] eqn:Hpar; try discriminate.
  destruct (stat_fs fs (c :: p)) as [[d|]|] eqn:Hst; try discriminate;
    intros H; injection H as <-;
    apply (stat_put_file (c :: p) [] fs q); congruence.
Qed.

Lemma create_succeeds p fs :
  p <> [] -> stat_fs fs (Dir_of p) = Some EDir -> stat_fs fs p <> Some EDir ->
  exists fs', create_fs p fs = inr fs'.
Proof.
  intros Hne Hpar Hnd. unfold create_fs. destruct p as [|c p]; [congruence|].
  rewrite Hpar. destruct (stat_fs fs (c :: p)) as [[d|]|]; eauto. congruence.
Qed.

Lemma create_parent p fs fs' :
  create_fs p fs = inr fs' ->
  p <> [] /\ stat_fs fs (Dir_of p) = Some EDir /\ stat_fs fs p <> Some EDir.
Proof.
  unfold create_fs. destruct p as [|c p]; [discriminate|].
  destruct (stat_fs fs (Dir_of (c :: p))) as [[d|]|] eqn:Hpar; try discriminate.
  destruct (stat_fs fs (c :: p)) as [[d|]|] eqn:Hst; try discriminate;
    intros _; repeat split; congruence.
Qed.

Lemma path_eqb_refl p : path_eqb p p = true.
Proof. now apply path_eqb_eq. Qed.

Lemma Dir_of_snoc p c : Dir_of (p ++ [c]) = p.
Proof. apply removelast_last. Qed.

(** What [Stat] tells after a write through the handle of a file. *)
Lemma stat_write p data fs q :
  p <> [] -> stat_fs fs (Dir_of p) = Some EDir ->
  (exists b, stat_fs fs p = Some (EFile b)) ->
  stat_fs (write_fs p data fs) q =
  if path_eqb q p then Some (EFile data) else stat_fs fs q.
Proof.
  intros Hne Hpar [b Hb]. unfold write_fs. rewrite Hb.
  apply stat_put_file; congruence.
Qed.

(** ** Paths that cannot be reached *)

(** The component that [MkdirAll] names is a component of the path asked
    for. *)
Lemma blocker_prefix fs p : prefixb (blocker fs p) p = true.
Proof.
  revert fs; induction p as [|c p IH]; intros [b|es]; simpl; auto.
  destruct (assoc c es) as [ch|]; simpl; rewrite String.eqb_refl; simpl.
  - apply IH.
  - apply prefixb_refl.
Qed.

(** It is the component that is a regular file, when there is one. *)
Lemma blocker_file fs x p b :
  prefixb x p = true -> stat_fs fs x = Some (EFile b) -> blocker fs p = x.
Proof.
  unfold stat_fs. revert fs p; induction x as [|c x IH]; intros fs p Hpre Hst.
  - simpl in Hst. destruct fs as [d|es]; [|discriminate]. now destruct p.
  - destruct p as [|c' p]; [discriminate|]. simpl in Hpre.
    apply andb_true_iff in Hpre as [Hc Hpre]. apply String.eqb_eq in Hc. subst c'.
    simpl in Hst. destruct fs as [d|es]; [discriminate|]. simpl.
    destruct (assoc c es) as [ch|]; [|discriminate].
    f_equal. now apply IH.
Qed.

(** It is the path asked for, when no component is a regular file. *)
Lemma blocker_none fs p :
  (forall x b, prefixb x p = true -> stat_fs fs x <> Some (EFile b)) ->
  blocker fs p = p.
Proof.
  unfold stat_fs. revert fs; induction p as [|c p IH]; intros fs Hno.
  - reflexivity.
  - destruct fs as [d|es]; [now destruct (Hno [] d)|]. simpl.
    destruct (assoc c es) as [ch|] eqn:Hc; [|reflexivity].
    f_equal. apply IH. intros x b Hx Hst. apply (Hno (c :: x) b).
    + simpl. now rewrite String.eqb_refl.
    + simpl. now rewrite Hc.
Qed.

(** A path none of whose components is a regular file is missing when it
    cannot be looked up. *)
Lemma unreachable_missing fs p :
  (forall x b, prefixb x p = true -> stat_fs fs x <> Some (EFile b)) ->
  unreachable fs p = ENOENT.
Proof.
  unfold stat_fs. revert fs; induction p as [|c p IH]; intros fs Hno;
    [reflexivity|].
  destruct fs as [d|es]; [now destruct (Hno [] d)|]. simpl.
  destruct (assoc c es) as [ch|] eqn:Hc; [|reflexivity].
  apply IH. intros x b Hx Hst. apply (Hno (c :: x) b).
  - simpl. now rewrite String.eqb_refl.
  - simpl. now rewrite Hc.
Qed.

(** A path below a regular file cannot be reached because that file is no
    directory. *)
Lemma unreachable_below_file fs x p b :
  prefixb x p = true -> x <> p -> stat_fs fs x = Some (EFile b) ->
  unreachable fs p = ENOTDIR.
Proof.
  unfold stat_fs. revert fs p; induction x as [|c x IH]; intros fs p Hpre Hne Hst.
  - simpl in Hst. destruct fs as [d|es]; [|discriminate].
    destruct p; [congruence | reflexivity].
  - destruct p as [|c' p]; [discriminate|]. simpl in Hpre.
    apply andb_true_iff in Hpre as [Hc Hpre]. apply String.eqb_eq in Hc. subst c'.
    simpl in Hst. destruct fs as [d|es]; [discriminate|]. simpl.
    destruct (assoc c es) as [ch|]; [|discriminate].
    apply (IH ch p Hpre); [congruence | exact Hst].
Qed.

(** ** Facts about handles *)

Lemma side_eqb_refl s : side_eqb s s = true.
Proof. now destruct s. Qed.

Lemma handle_eqb_refl h : handle_eqb h h = true.
Proof.
  destruct h as [s p| |]; simpl; auto.
  now rewrite side_eqb_refl, path_eqb_refl.
Qed.

Lemma drop_acquire h w : drop h (acquire h w) = w.
Proof. destruct w. unfold drop, acquire; simpl. now rewrite handle_eqb_refl. Qed.

(** ** The claims on single calls *)

Section Claims.

Variable E : Env.

(** C5.  When the local [Stat] of the source path fails, [Upload] returns the
    error of [Stat] wrapped as the failure to stat the source, and has done
    nothing else: the only call is the [Stat], no sub-channel is opened, no
    remote file is created or written, and the world, the remote file system
    with it, is as before. *)
Theorem Upload_stat_failure_is_atomic (src dst : path) (w : World) (err : error) :
  value (os_Stat E src w) = Err err ->
  exists en,
    err = PathError "stat" src en /\
    Upload E src dst w =
    (Some (Wrapped "failed to stat source path" err), w,
     [Ev (Stat Local src) (Some en)]).
Proof.
  unfold Upload, os_Stat, fs_Stat, call, bind, ret, value.
  destruct (fault E (Stat Local src)) as [en|]; simpl.
  - intros [= <-]. now exists en.
  - destruct (stat_fs (lfs w) src) as [en|]; simpl; [discriminate|].
    intros [= <-]. eexists; split; reflexivity.
Qed.

End Claims.

Lemma Upload_stat_failure_is_atomic_witness :
  exists en,
    PathError "stat" ["missing"] ENOENT = PathError "stat" ["missing"] en /\
    Upload no_faults ["missing"] ["dst"] empty_world =
    (Some (Wrapped "failed to stat source path" (PathError "stat" ["missing"] ENOENT)),
     empty_world, [Ev (Stat Local ["missing"]) (Some en)]).
Proof.
  apply (Upload_stat_failure_is_atomic no_faults ["missing"] ["dst"] empty_world).
  reflexivity.
Defined.

(** ** Command execution and closing *)

Section Session.

Variable E : Env.

(** C6, as the code has it.  [Run] asks for one command sub-channel.  When
    that fails it returns no output and the error, and has done nothing else.
    Otherwise it runs the command on the sub-channel, closes the sub-channel
    before it returns, leaving the handles as they were, and returns the
    merged output with the error of running the command; what the close of
    the sub-channel returned is dropped. *)
Theorem Run_one_channel_closed_command_error (cmd : string) (w : World) :
  Run E cmd w =
  match fault E NewSession with
  | Some e => (([], Some (ConnError e)), w, [Ev NewSession (Some e)])
  | None =>
      if alive w then
        ((output E cmd, option_map ConnError (fault E (CombinedOutput cmd))), w,
         [Ev NewSession None;
          Ev (CombinedOutput cmd) (fault E (CombinedOutput cmd));
          Ev CloseSession (fault E CloseSession)])
      else (([], Some (ConnError ECLOSED)), w, [Ev NewSession (Some ECLOSED)])
  end.
Proof.
  unfold Run, ssh_NewSession, session_CombinedOutput, session_Close, defer,
    call, bind, ret, lift.
  destruct (fault E NewSession) as [e|]; simpl; [reflexivity|].
  destruct (alive w) eqn:Ha; simpl; [|reflexivity].
  now rewrite drop_acquire.
Qed.

(** C7, as the code has it.  [Close] hands the call to the connection and
    returns what that returns.  Whatever the first [Close] returned, the
    connection is closed after it, and a second [Close] returns the error of
    the transport for a closed connection and changes nothing. *)
Theorem Close_twice_reports_closed (w : World) :
  let r1 := Close E w in
  let r2 := Close E (world r1) in
  alive (world r1) = false /\
  value r2 = Some (ConnError ECLOSED) /\
  world r2 = world r1.
Proof.
  unfold Close, ssh_Close, world, value.
  destruct (alive w) eqn:Ha; simpl; [auto|].
  rewrite Ha. simpl. auto.
Qed.

End Session.

(** C6, as the spec has it, fails: the close of the sub-channel reports
    [EOF], and [Run] returns no error. *)
Lemma Run_close_error_counterexample :
  let r := Run close_reports_eof "hi" empty_world in
  value (session_Close close_reports_eof SshSession
           (acquire HSession empty_world)) = Some (ConnError EOF) /\
  snd (value r) = None /\
  snd (value r) <>
  value (session_Close close_reports_eof SshSession (acquire HSession empty_world)).
Proof. repeat split; discriminate. Qed.

(** C7, as the spec has it, fails: the first [Close] succeeds and the second
    returns an error. *)
Lemma Close_idempotent_counterexample :
  let r1 := Close no_faults empty_world in
  value r1 = None /\ value (Close no_faults (world r1)) <> None.
Proof. split; [reflexivity | discriminate]. Qed.

(** ** Transfers of single files *)

Ltac unfold_prims :=
  unfold os_Stat, os_Open, os_Create, os_MkdirAll, sftp_Stat, sftp_Open,
    sftp_Create, sftp_MkdirAll, NewSftp, fs_Stat, fs_Open, fs_Create,
    fs_MkdirAll, fs_Lstat, fs_ReadDir, file_Close, file_Sync, io_Copy,
    sftp_NewClient, sftp_Close, call, defer, bind, ret, lift, lift_unit,
    value, world, trace in *.

Ltac done_case :=
  repeat match goal with |- _ /\ _ => split end;
  try reflexivity; try assumption;
  try (let H := fresh in intros H; discriminate H).

Ltac norm_world :=
  unfold drop, acquire, set_fs;
  repeat (progress (simpl;
                    rewrite ?handle_eqb_refl, ?side_eqb_refl, ?path_eqb_refl)).

Lemma Dir_of_neq p : p <> [] -> path_eqb (Dir_of p) p = false.
Proof.
  intros Hne. destruct (path_eqb (Dir_of p) p) eqn:H; [|reflexivity].
  apply path_eqb_eq in H. exfalso.
  destruct (exists_last Hne) as (q & c & ->).
  rewrite Dir_of_snoc in H. apply (f_equal (@List.length string)) in H.
  rewrite length_app in H. simpl in H. lia.
Qed.

(** A file that was created and then written holds what was written;
    nothing else has changed. *)
Lemma stat_create_write p data fs fs1 q :
  create_fs p fs = inr fs1 ->
  stat_fs (write_fs p data fs1) q =
  if path_eqb q p then Some (EFile data) else stat_fs fs q.
Proof.
  intros Hc. destruct (create_parent _ _ _ Hc) as (Hne & Hpar & Hnd).
  rewrite stat_write; auto.
  - rewrite (stat_create _ _ _ q Hc). now destruct (path_eqb q p).
  - rewrite (stat_create _ _ _ _ Hc), Dir_of_neq; auto.
  - exists []. now rewrite (stat_create _ _ _ _ Hc), path_eqb_refl.
Qed.

Section SingleFile.

Variable E : Env.

(** What [uploadFile] leaves behind. *)
Lemma uploadFile_spec src dst w :
  let r := uploadFile E src dst w in
  lfs (world r) = lfs w /\ opened (world r) = opened w /\
  alive (world r) = alive w /\
  (value r = None ->
   exists b, stat_fs (lfs w) src = Some (EFile b) /\
     forall q, stat_fs (rfs (world r)) q =
               if path_eqb q dst then Some (EFile b) else stat_fs (rfs w) q).
Proof.
  destruct w as [l r a o]. unfold uploadFile. unfold_prims. simpl.
  destruct (fault E NewClient); simpl; [done_case|].
  destruct a; simpl; [|done_case].
  destruct (fault E (Open Local src)); simpl; [done_case|].
  destruct (stat_fs l src) as [en|] eqn:Hsrc; simpl; [|done_case].
  destruct (fault E (Create Remote dst)); simpl;
    [norm_world; done_case|].
  destruct (create_fs dst r) as [e|r1] eqn:Hc; simpl;
    [norm_world; done_case|].
  destruct (fault E (Read Local src)); simpl;
    [norm_world; done_case|].
  rewrite Hsrc. destruct en as [b|]; simpl;
    [|norm_world; done_case].
  destruct (fault E (Write Remote dst)); simpl; norm_world;
    done_case.
  intros _. exists b. split; [reflexivity|]. intros q.
  now apply stat_create_write.
Qed.

(** When nothing stands in the way, [uploadFile] succeeds. *)
Lemma uploadFile_succeeds src dst w b :
  (forall pr, fault E pr = None) -> alive w = true ->
  stat_fs (lfs w) src = Some (EFile b) ->
  dst <> [] -> stat_fs (rfs w) (Dir_of dst) = Some EDir ->
  stat_fs (rfs w) dst <> Some EDir ->
  value (uploadFile E src dst w) = None.
Proof.
  intros Hnf Ha Hsrc Hne Hpar Hnd.
  destruct (create_succeeds dst (rfs w) Hne Hpar Hnd) as [r1 Hc].
  destruct w as [l r a o]. simpl in *. subst a.
  unfold uploadFile. unfold_prims. simpl.
  repeat (progress (simpl; rewrite ?Hnf, ?Hsrc, ?Hc)). reflexivity.
Qed.

(** What [downloadFile] leaves behind. *)
Lemma downloadFile_spec c rp lp w :
  let r := downloadFile E c rp lp w in
  rfs (world r) = rfs w /\ opened (world r) = opened w /\
  alive (world r) = alive w /\
  (value r = None ->
   exists b, stat_fs (rfs w) rp = Some (EFile b) /\
     (forall q d, prefixb q (Dir_of lp) = true ->
                  stat_fs (lfs w) q <> Some (EFile d)) /\
     forall q, stat_fs (lfs (world r)) q =
               if path_eqb q lp then Some (EFile b)
               else if prefixb q (Dir_of lp) then Some EDir
               else stat_fs (lfs w) q).
Proof.
  destruct w as [l r a o]. unfold downloadFile. unfold_prims. simpl.
  destruct (fault E (Open Remote rp)); simpl; [done_case|].
  destruct (stat_fs r rp) as [en|] eqn:Hsrc; simpl; [|done_case].
  destruct (fault E (MkdirAll Local (Dir_of lp))); simpl;
    [norm_world; done_case|].
  destruct (mkdirAll_fs (Dir_of lp) l) as [l1|] eqn:Hm; simpl;
    [|norm_world; done_case].
  destruct (fault E (Create Local lp)); simpl;
    [norm_world; done_case|].
  destruct (create_fs lp l1) as [e|l2] eqn:Hc; simpl;
    [norm_world; done_case|].
  destruct (fault E (Read Remote rp)); simpl;
    [norm_world; done_case|].
  rewrite Hsrc. destruct en as [b|]; simpl;
    [|norm_world; done_case].
  destruct (fault E (Write Local lp)); simpl;
    [norm_world; done_case|].
  destruct (fault E (Sync lp)); simpl; norm_world;
    done_case.
  intros _. exists b. split; [reflexivity|]. split.
  - intros q d Hq. now apply (mkdirAll_no_file _ _ _ Hm).
  - intros q. rewrite (stat_create_write _ _ _ _ q Hc).
    now rewrite (stat_mkdirAll _ _ _ q Hm).
Qed.

(** When nothing stands in the way, [downloadFile] succeeds. *)
Lemma downloadFile_succeeds c rp lp w b :
  (forall pr, fault E pr = None) ->
  stat_fs (rfs w) rp = Some (EFile b) ->
  lp <> [] ->
  (forall q d, prefixb q (Dir_of lp) = true -> stat_fs (lfs w) q <> Some (EFile d)) ->
  stat_fs (lfs w) lp <> Some EDir ->
  value (downloadFile E c rp lp w) = None.
Proof.
  intros Hnf Hsrc Hne Hanc Hnd.
  destruct (mkdirAll_succeeds (Dir_of lp) (lfs w) Hanc) as [l1 Hm].
  assert (exists l2, create_fs lp l1 = inr l2) as [l2 Hc].
  { apply create_succeeds; auto.
    - now rewrite (stat_mkdirAll _ _ _ _ Hm), prefixb_refl.
    - rewrite (stat_mkdirAll _ _ _ _ Hm).
      destruct (prefixb lp (Dir_of lp)) eqn:Hp; [|assumption].
      exfalso. apply prefixb_true in Hp as [r Hr].
      apply (f_equal (@List.length string)) in Hr.
      destruct (exists_last Hne) as (q & x & ->).
      rewrite Dir_of_snoc, !length_app in Hr. simpl in Hr. lia. }
  destruct w as [l r a o]. simpl in *.
  unfold downloadFile. unfold_prims. simpl.
  repeat (progress (simpl; rewrite ?Hnf, ?Hsrc, ?Hm, ?Hc)). reflexivity.
Qed.

End SingleFile.

Section RoundTrip.

Variable E : Env.

(** [Upload] of a regular file. *)
Lemma Upload_file_spec src dst w b :
  stat_fs (lfs w) src = Some (EFile b) ->
  let r := Upload E src dst w in
  lfs (world r) = lfs w /\ opened (world r) = opened w /\
  alive (world r) = alive w /\
  (value r = None ->
   forall q, stat_fs (rfs (world r)) q =
             if path_eqb q dst then Some (EFile b) else stat_fs (rfs w) q).
Proof.
  intros Hsrc. pose proof (uploadFile_spec E src dst w) as Hspec.
  unfold Upload, os_Stat, fs_Stat, call, bind, ret, lift.
  destruct (fault E (Stat Local src)); simpl; [done_case|].
  simpl fs_of. rewrite Hsrc. simpl.
  destruct (uploadFile E src dst w) as [[v w'] t]. simpl in *.
  destruct Hspec as (Hl & Ho & Ha & Hr). repeat split; auto.
  intros Hv. destruct (Hr Hv) as (b' & Hb' & Hq).
  rewrite Hsrc in Hb'. injection Hb' as <-. exact Hq.
Qed.

Lemma Upload_file_succeeds src dst w b :
  (forall pr, fault E pr = None) -> alive w = true ->
  stat_fs (lfs w) src = Some (EFile b) ->
  dst <> [] -> stat_fs (rfs w) (Dir_of dst) = Some EDir ->
  stat_fs (rfs w) dst <> Some EDir ->
  value (Upload E src dst w) = None.
Proof.
  intros Hnf Ha Hsrc Hne Hpar Hnd.
  pose proof (uploadFile_succeeds E src dst w b Hnf Ha Hsrc Hne Hpar Hnd) as Hs.
  unfold Upload, os_Stat, fs_Stat, call, bind, ret, lift.
  rewrite Hnf. simpl fs_of. rewrite Hsrc. simpl.
  destruct (uploadFile E src dst w) as [[v w'] t]. exact Hs.
Qed.

(** [Download] of a regular file. *)
Lemma Download_file_spec rp lp w b :
  stat_fs (rfs w) rp = Some (EFile b) ->
  let r := Download E rp lp w in
  rfs (world r) = rfs w /\ opened (world r) = opened w /\
  alive (world r) = alive w /\
  (value r = None ->
   (forall q d, prefixb q (Dir_of lp) = true ->
                stat_fs (lfs w) q <> Some (EFile d)) /\
   forall q, stat_fs (lfs (world r)) q =
             if path_eqb q lp then Some (EFile b)
             else if prefixb q (Dir_of lp) then Some EDir
             else stat_fs (lfs w) q).
Proof.
  intros Hsrc.
  unfold Download, NewSftp, sftp_NewClient, sftp_Stat, fs_Stat, sftp_Close,
    defer, call, bind, ret, lift.
  destruct (fault E NewClient); simpl; [done_case|].
  destruct (alive w) eqn:Ha; simpl; [|done_case].
  destruct (fault E (Stat Remote rp)); simpl.
  { rewrite drop_acquire. done_case. }
  rewrite Hsrc. simpl.
  pose proof (downloadFile_spec E SftpClient rp lp (acquire HClient w)) as Hspec.
  destruct (downloadFile E SftpClient rp lp (acquire HClient w)) as [[v w'] t].
  simpl in *. destruct Hspec as (Hr & Ho & Ha' & Hv).
  destruct w' as [l' r' a' o']. simpl in *. subst.
  split; [reflexivity|]. split; [reflexivity|]. split; [assumption|].
  intros Hnone. destruct (Hv Hnone) as (b' & Hb' & Hanc & Hq).
  rewrite Hsrc in Hb'. injection Hb' as <-. split; assumption.
Qed.

Lemma Download_file_succeeds rp lp w b :
  (forall pr, fault E pr = None) -> alive w = true ->
  stat_fs (rfs w) rp = Some (EFile b) ->
  lp <> [] ->
  (forall q d, prefixb q (Dir_of lp) = true -> stat_fs (lfs w) q <> Some (EFile d)) ->
  stat_fs (lfs w) lp <> Some EDir ->
  value (Download E rp lp w) = None.
Proof.
  intros Hnf Ha Hsrc Hne Hanc Hnd.
  pose proof (downloadFile_succeeds E SftpClient rp lp (acquire HClient w) b
                Hnf Hsrc Hne Hanc Hnd) as Hs.
  unfold Download, NewSftp, sftp_NewClient, sftp_Stat, fs_Stat, sftp_Close,
    defer, call, bind, ret, lift.
  rewrite !Hnf, Ha. simpl. rewrite Hsrc. simpl.
  destruct (downloadFile E SftpClient rp lp (acquire HClient w)) as [[v w'] t].
  exact Hs.
Qed.

(** C2.  Let [src] be a local regular file with bytes [b].  Whenever
    [Upload src dst] and then [Download dst back] both return no error, the
    local file [back] holds exactly [b], and so does [src]; and when nothing
    stands in the way, both do return no error. *)
Theorem upload_download_round_trip (w : World) (src dst back : path) (b : list byte) :
  stat_fs (lfs w) src = Some (EFile b) ->
  let up := Upload E src dst w in
  let down := Download E dst back (world up) in
  (value up = None -> value down = None ->
   stat_fs (lfs (world down)) back = Some (EFile b) /\
   stat_fs (lfs (world down)) src = Some (EFile b)) /\
  (round_trip_ready E w src dst back -> value up = None /\ value down = None).
Proof.
  intros Hsrc up down.
  destruct (Upload_file_spec src dst w b Hsrc) as (Hl & Ho & Ha & Hup).
  fold up in Hl, Ho, Ha, Hup.
  assert (Hdst : value up = None -> stat_fs (rfs (world up)) dst = Some (EFile b)).
  { intros Hv. now rewrite (Hup Hv), path_eqb_refl. }
  split.
  - intros Hv Hd. specialize (Hdst Hv).
    destruct (Download_file_spec dst back (world up) b Hdst) as (_ & _ & _ & Hdown).
    fold down in Hdown. destruct (Hdown Hd) as [Hanc Hst]. clear Hdown. split.
    + now rewrite Hst, path_eqb_refl.
    + rewrite Hst. destruct (path_eqb src back) eqn:Heq; [reflexivity|].
      destruct (prefixb src (Dir_of back)) eqn:Hp; [|now rewrite Hl].
      exfalso. apply (Hanc src b Hp). now rewrite Hl.
  - intros (Hnf & Halive & Hne & Hpar & Hnd & Hbne & Hanc & Hbnd).
    assert (Hv : value up = None)
      by (apply (Upload_file_succeeds src dst w b); auto).
    split; [exact Hv|].
    apply (Download_file_succeeds dst back (world up) b); auto.
    + now rewrite Ha.
    + now rewrite Hl.
    + now rewrite Hl.
Qed.

End RoundTrip.

Lemma upload_download_round_trip_witness :
  let up := Upload no_faults ["a.txt"] ["up.txt"] one_file_world in
  let down := Download no_faults ["up.txt"] ["back"; "a.txt"] (world up) in
  value up = None /\ value down = None /\
  stat_fs (lfs (world down)) ["back"; "a.txt"] = Some (EFile [x01; x02; x03]%byte).
Proof.
  destruct (upload_download_round_trip no_faults one_file_world
              ["a.txt"] ["up.txt"] ["back"; "a.txt"] [x01; x02; x03]%byte
              eq_refl) as [Hsame Hok].
  assert (Hready : round_trip_ready no_faults one_file_world
                     ["a.txt"] ["up.txt"] ["back"; "a.txt"]).
  { repeat split; try reflexivity; try discriminate.
    intros q d Hq Hst. destruct q as [|c [|c' q]]; simpl in Hq.
    - discriminate Hst.
    - rewrite andb_true_r in Hq. apply String.eqb_eq in Hq. subst c.
      discriminate Hst.
    - rewrite andb_false_r in Hq. discriminate Hq. }
  destruct (Hok Hready) as [Hup Hdown].
  split; [exact Hup|]. split; [exact Hdown|]. exact (proj1 (Hsame Hup Hdown)).
Defined.

(** ** Order of the calls *)

Lemma side_eqb_eq a b : side_eqb a b = true -> a = b.
Proof. destruct a, b; simpl; congruence. Qed.

Lemma prim_eqb_eq a b : prim_eqb a b = true -> a = b.
Proof.
  destruct a, b; simpl; try discriminate; try reflexivity;
    try (intros H; apply andb_true_iff in H as [Hs Hp];
         apply side_eqb_eq in Hs; apply path_eqb_eq in Hp; congruence).
  - intros H. apply path_eqb_eq in H. congruence.
  - intros H. apply String.eqb_eq in H. congruence.
Qed.

Lemma errno_eqb_eq a b : errno_eqb a b = true -> a = b.
Proof. destruct a, b; simpl; congruence. Qed.

Lemma event_eqb_eq a b : event_eqb a b = true -> a = b.
Proof.
  destruct a as [p r], b as [p' r']. simpl. intros H.
  apply andb_true_iff in H as [Hp Hr]. apply prim_eqb_eq in Hp. subst p'.
  destruct r, r'; try discriminate; [|reflexivity].
  apply errno_eqb_eq in Hr. now subst.
Qed.

Lemma precedesb_sound a b tr : precedesb a b tr = true -> precedes a b tr.
Proof.
  induction tr as [|x tr IH]; simpl; [discriminate|].
  intros H. apply orb_true_iff in H as [H|H].
  - apply andb_true_iff in H as [Hx Hb]. apply event_eqb_eq in Hx. subst x.
    apply existsb_exists in Hb as (y & Hy & Hby). apply event_eqb_eq in Hby.
    subst y. apply in_split in Hy as (t2 & t3 & ->). now exists [], t2, t3.
  - destruct (IH H) as (t1 & t2 & t3 & ->). now exists (x :: t1), t2, t3.
Qed.

Lemma errno_eqb_refl a : errno_eqb a a = true.
Proof. now destruct a. Qed.

Ltac by_precedesb :=
  apply precedesb_sound; simpl;
  rewrite ?side_eqb_refl, ?path_eqb_refl, ?errno_eqb_refl; simpl;
  rewrite ?orb_true_r; reflexivity.

Ltac pick_event H :=
  simpl in H;
  repeat (destruct H as [H|H]; [try discriminate H|]);
  try contradiction.

Section Order.

Variable E : Env.


End Order.

(** ** [Upload] and [UploadV1] on regular files *)

Section Legacy.

Variable E : Env.

(** C10.  Let the local [Stat] of [src] succeed and report a regular file with
    bytes [b].  Then [Upload] and [UploadV1] leave the same world, with the
    handles that were open before and no others, and one returns an error
    exactly when the other does.  When they return none, each has opened one
    file transfer sub-channel and closed it, has created the remote file and
    written it, and the remote file holds [b]. *)
Theorem Upload_UploadV1_agree_on_files (src dst : path) (w : World) (b : list byte) :
  value (os_Stat E src w) = Ok (EFile b) ->
  let up := Upload E src dst w in
  let v1 := UploadV1 E src dst w in
  world up = world v1 /\
  opened (world up) = opened w /\
  (value up = None <-> value v1 = None) /\
  (value up = None ->
   stat_fs (rfs (world up)) dst = Some (EFile b) /\
   calls NewClient (trace up) = 1 /\ calls NewClient (trace v1) = 1 /\
   calls CloseClient (trace up) = 1 /\ calls CloseClient (trace v1) = 1 /\
   In (Ev (Create Remote dst) None) (trace up) /\
   In (Ev (Create Remote dst) None) (trace v1) /\
   In (Ev (Write Remote dst) None) (trace up) /\
   In (Ev (Write Remote dst) None) (trace v1)).
Proof.
  destruct w as [l r a o].
  unfold Upload, UploadV1, uploadFile. unfold_prims. simpl.
  destruct (fault E (Stat Local src)) as [e0|]; simpl; [discriminate|].
  destruct (stat_fs l src) as [en|] eqn:Hsrc; simpl; [|discriminate].
  intros [= ->]. simpl.
  destruct (fault E NewClient) as [e1|]; simpl.
  { destruct (fault E (Open Local src)); simpl; rewrite ?Hsrc; norm_world;
      repeat split; intros; discriminate. }
  destruct a; simpl.
  2:{ destruct (fault E (Open Local src)); simpl; rewrite ?Hsrc; norm_world;
        repeat split; intros; discriminate. }
  destruct (fault E (Open Local src)) as [e2|]; simpl.
  { repeat split; intros; discriminate. }
  rewrite Hsrc. simpl.
  destruct (fault E (Create Remote dst)) as [e3|]; simpl.
  { norm_world. repeat split; intros; discriminate. }
  destruct (create_fs dst r) as [e|r1] eqn:Hc; simpl.
  { norm_world. repeat split; intros; discriminate. }
  destruct (fault E (Read Local src)) as [e4|]; simpl.
  { norm_world. repeat split; intros; discriminate. }
  rewrite Hsrc. simpl.
  destruct (fault E (Write Remote dst)) as [e5|]; simpl.
  { norm_world. repeat split; intros; discriminate. }
  norm_world. repeat split; auto.
  - now rewrite (stat_create_write _ _ _ _ dst Hc), path_eqb_refl.
  - auto 10.
  - auto 10.
Qed.

End Legacy.

Lemma Upload_UploadV1_agree_on_files_witness :
  let up := Upload no_faults ["a.txt"] ["up.txt"] one_file_world in
  let v1 := UploadV1 no_faults ["a.txt"] ["up.txt"] one_file_world in
  world up = world v1 /\ value up = None /\ value v1 = None /\
  stat_fs (rfs (world up)) ["up.txt"] = Some (EFile [x01; x02; x03]%byte).
Proof.
  destruct (Upload_UploadV1_agree_on_files no_faults ["a.txt"] ["up.txt"]
              one_file_world [x01; x02; x03]%byte eq_refl)
    as (Hw & _ & Hiff & Hok).
  split; [exact Hw|]. split; [reflexivity|]. split; [reflexivity|].
  exact (proj1 (Hok eq_refl)).
Defined.

(** ** The walks *)


(** C1 fails on the code.  The local path [d] is a directory that can be
    read, an empty one, and the remote path [r] is a regular file.  [Upload]
    of [d] to [r] returns no error, and yet the remote file system does not
    mirror the tree: there is no directory at [r], and nothing has changed
    there. *)
Lemma Upload_returns_nil_without_mirror :
  let r := Upload no_faults ["d"] ["r"] blocked_world in
  lookup (lfs blocked_world) ["d"] = Some (Dir []) /\
  value r = None /\
  rfs (world r) = rfs blocked_world /\
  ~ (forall rel e, stat_fs (Dir []) rel = Some e ->
                   stat_fs (rfs (world r)) (["r"] ++ rel) = Some e).
Proof.
  vm_compute. repeat split.
  intros H. specialize (H [] EDir eq_refl). discriminate H.
Qed.

(** C4 fails on the code.  The remote path [r] is a regular file, so
    [MkdirAll] of [r] fails; [Upload] of the empty directory [d] to [r]
    returns no error all the same, and [r] is no directory afterwards. *)
Lemma Upload_drops_MkdirAll_error :
  let r := Upload no_faults ["d"] ["r"] blocked_world in
  value r = None /\
  In (Ev (MkdirAll Remote ["r"]) (Some ENOTDIR)) (trace r) /\
  stat_fs (rfs (world r)) ["r"] = Some (EFile [x2a]%byte).
Proof. vm_compute. intuition. Qed.

(** ** Facts about paths *)

Lemma prefixb_false p q : prefixb p q = false <-> forall r, q <> p ++ r.
Proof.
  split.
  - intros H r Hr. assert (prefixb p q = true) by (apply prefixb_true; eauto).
    congruence.
  - intros H. destruct (prefixb p q) eqn:Hp; [|reflexivity].
    apply prefixb_true in Hp as [r Hr]. now destruct (H r).
Qed.

Lemma prefixb_app_l t a b : prefixb (t ++ a) (t ++ b) = prefixb a b.
Proof.
  induction t as [|c t IH]; simpl; [reflexivity|].
  now rewrite String.eqb_refl.
Qed.

Lemma prefixb_longer t a r : prefixb (t ++ a :: r) t = false.
Proof.
  induction t as [|c t IH]; simpl; [reflexivity|].
  now rewrite String.eqb_refl.
Qed.

Lemma prefixb_app_false t a x : prefixb t x = false -> prefixb (t ++ a) x = false.
Proof.
  rewrite !prefixb_false. intros H r Hr. apply (H (a ++ r)).
  now rewrite app_assoc.
Qed.

Lemma prefixb_snoc x t n :
  prefixb x (t ++ [n]) = true -> x = t ++ [n] \/ prefixb x t = true.
Proof.
  rewrite !prefixb_true. intros [r Hr].
  destruct r as [|c r] using rev_ind.
  - left. now rewrite ?app_nil_r in Hr.
  - right. rewrite app_assoc in Hr. apply app_inj_tail in Hr as [-> _]. eauto.
Qed.

Lemma path_eqb_false p q : path_eqb p q = false <-> p <> q.
Proof.
  split.
  - intros H Heq. apply path_eqb_eq in Heq. congruence.
  - intros H. destruct (path_eqb p q) eqn:Hp; [|reflexivity].
    apply path_eqb_eq in Hp. contradiction.
Qed.

Lemma strip_prefix_app s q : strip_prefix s (s ++ q) = Some q.
Proof.
  induction s as [|c s IH]; simpl; [reflexivity|]. now rewrite String.eqb_refl.
Qed.

Lemma Rel_app s q : Rel s (s ++ q) = Ok q.
Proof. unfold Rel. now rewrite strip_prefix_app. Qed.

(** Sibling entries with different names have targets that do not contain
    one another. *)
Lemma sibling_not_prefix t n m rel :
  n <> m -> prefixb (t ++ [n]) (t ++ m :: rel) = false.
Proof.
  intros H. rewrite prefixb_app_l. simpl.
  destruct (String.eqb_spec n m); [contradiction | reflexivity].
Qed.

Lemma nodupb_cons a l :
  nodupb (a :: l) = true -> ~ In a l /\ nodupb l = true.
Proof.
  simpl. intros H. apply andb_true_iff in H as [Ha Hl]. split; [|assumption].
  intros Hin. apply negb_true_iff in Ha.
  assert (existsb (String.eqb a) l = true); [|congruence].
  apply existsb_exists. exists a. split; [assumption | apply String.eqb_refl].
Qed.

(** ** Facts about [MkdirAll] and [Create] that hold whatever was there *)

Lemma mkdirAll_keeps p n n' x e :
  mkdirAll_fs p n = Some n' -> stat_fs n x = Some e -> stat_fs n' x = Some e.
Proof.
  intros Hm Hx. rewrite (stat_mkdirAll _ _ _ x Hm).
  destruct (prefixb x p) eqn:Hp; [|assumption].
  destruct e as [b|]; [|reflexivity].
  exfalso. exact (mkdirAll_no_file _ _ _ Hm x b Hp Hx).
Qed.

Lemma mkdirAll_frame p n n' x :
  mkdirAll_fs p n = Some n' ->
  stat_fs n' x = stat_fs n x \/
  (prefixb x p = true /\ stat_fs n x = None /\ stat_fs n' x = Some EDir).
Proof.
  intros Hm. destruct (stat_fs n x) as [e|] eqn:Hx.
  - left. eapply mkdirAll_keeps; eauto.
  - rewrite (stat_mkdirAll _ _ _ x Hm), Hx.
    destruct (prefixb x p); auto.
Qed.

Ltac five_parts :=
  split;
  [ repeat split; reflexivity
  | split;
    [ let x := fresh "x" in let Hx := fresh "Hx" in
      intros x Hx; try reflexivity
    | split;
      [ let H := fresh "H" in intros H; try assumption
      | split;
        [ let dst := fresh "dst" in let H := fresh "H" in
          intros dst H; pick_event H
        | let dst := fresh "dst" in let res := fresh "res" in
          let H := fresh "H" in
          intros dst res H; pick_event H ] ] ] ].

(** ** The upload of a directory, whatever fails *)

Section UploadWalk.

Variable E : Env.
Variable c : sftpClient.
Variables s d : path.

Let fn := uploadDirectory_fn E c s d.

Lemma upload_fn_err p info err w : fn p info (Some err) w = (Some err, w, []).
Proof. reflexivity. Qed.

Lemma upload_fn_dir q w :
  fn (s ++ q) (Some EDir) None w =
  match fault E (MkdirAll Remote (d ++ q)) with
  | Some e => (None, w, [Ev (MkdirAll Remote (d ++ q)) (Some e)])
  | None =>
      match mkdirAll_fs (d ++ q) (rfs w) with
      | Some fs' => (None, set_fs Remote fs' w, [Ev (MkdirAll Remote (d ++ q)) None])
      | None => (None, w, [Ev (MkdirAll Remote (d ++ q)) (Some ENOTDIR)])
      end
  end.
Proof.
  unfold fn, uploadDirectory_fn. rewrite Rel_app. unfold Join. unfold_prims. simpl.
  destruct (fault E (MkdirAll Remote (d ++ q))); [reflexivity|].
  destruct (mkdirAll_fs (d ++ q) (rfs w)); reflexivity.
Qed.

Lemma upload_fn_file q b0 w :
  let r := fn (s ++ q) (Some (EFile b0)) None w in
  (lfs (world r) = lfs w /\ opened (world r) = opened w /\
   alive (world r) = alive w) /\
  (forall x, path_eqb x (d ++ q) = false ->
             stat_fs (rfs (world r)) x = stat_fs (rfs w) x) /\
  (stat_fs (rfs w) (d ++ q) = Some EDir ->
   stat_fs (rfs (world r)) (d ++ q) = Some EDir) /\
  (forall dst, In (Ev (Write Remote dst) None) (trace r) ->
     dst = d ++ q /\
     exists b, stat_fs (lfs w) (s ++ q) = Some (EFile b) /\
               stat_fs (rfs (world r)) (d ++ q) = Some (EFile b)) /\
  (forall dst res, ~ In (Ev (MkdirAll Remote dst) res) (trace r)).
Proof.
  destruct w as [l r a o].
  unfold fn, uploadDirectory_fn. rewrite Rel_app. unfold Join.
  unfold_prims. simpl.
  set (t := d ++ q). set (p := s ++ q).
  destruct (fault E (Open Local p)) as [e1|]; simpl; [five_parts|].
  destruct (stat_fs l p) as [en|] eqn:Hsrc; simpl; [|five_parts].
  destruct (fault E (Create Remote t)) as [e2|]; simpl;
    [norm_world; five_parts|].
  destruct (create_fs t r) as [e|r1] eqn:Hc; simpl; [norm_world; five_parts|].
  assert (Hfr1 : forall x, path_eqb x t = false -> stat_fs r1 x = stat_fs r x).
  { intros x Hx. now rewrite (stat_create _ _ _ x Hc), Hx. }
  assert (Hnd : stat_fs r t = Some EDir -> False).
  { intros H. now destruct (create_parent _ _ _ Hc) as (_ & _ & Hn). }
  assert (Hfr2 : forall data x, path_eqb x t = false ->
                   stat_fs (write_fs t data r1) x = stat_fs r x).
  { intros data x Hx. now rewrite (stat_create_write _ _ _ _ x Hc), Hx. }
  destruct (fault E (Read Local p)) as [e3|]; simpl.
  { norm_world; five_parts; [now apply Hfr1 | now destruct Hnd]. }
  rewrite Hsrc. destruct en as [b|]; simpl.
  2:{ norm_world; five_parts; [now apply Hfr1 | now destruct Hnd]. }
  destruct (fault E (Write Remote t)) as [e4|]; simpl.
  { norm_world; five_parts; [now apply Hfr2 | now destruct Hnd]. }
  norm_world; five_parts; [now apply Hfr2 | now destruct Hnd |].
  injection H as <-. split; [reflexivity|]. exists b. split; [reflexivity|].
  now rewrite (stat_create_write _ _ _ _ t Hc), path_eqb_refl.
Qed.

Lemma wf_node_Dir es :
  wf_node (Dir es) = true ->
  nodupb (map fst es) = true /\ forallb (fun kc => wf_node (snd kc)) es = true.
Proof. simpl. intros H. now apply andb_true_iff in H. Qed.

Lemma framed_trans t fs fs1 fs2 x :
  framed t fs fs1 x -> framed t fs1 fs2 x -> framed t fs fs2 x.
Proof.
  unfold framed. intros [H1|(Hp & Hn & Hd)] [H2|(Hp' & Hn' & Hd')].
  - left. congruence.
  - right. repeat split; congruence.
  - right. repeat split; congruence.
  - congruence.
Qed.

Lemma framed_weaken t n fs fs' x :
  prefixb (t ++ [n]) x = false -> framed (t ++ [n]) fs fs' x -> framed t fs fs' x.
Proof.
  intros Hx [H|(Hp & Hn & Hd)]; [now left|]. right. repeat split; auto.
  apply prefixb_snoc in Hp as [->|Hp]; [|assumption].
  now rewrite prefixb_refl in Hx.
Qed.

End UploadWalk.

(** ** Composing what the steps of a walk leave behind *)

Section Compose.

Variables from to : side.
Variables src dst : path.

Lemma quiet_app tr tr' : quiet to tr -> quiet to tr' -> quiet to (tr ++ tr').
Proof.
  intros H H' t. destruct (H t), (H' t).
  split; intros Hin; apply in_app_or in Hin as [?|?]; contradiction.
Qed.

Lemma quiet_nil : quiet to [].
Proof. intros t. split; intros []. Qed.

Lemma framed_refl t fs x : framed t fs fs x.
Proof. now left. Qed.

Lemma walk_post_quiet q w v tr :
  quiet to tr -> walk_post from to src dst q w (v, w, tr).
Proof.
  intros Hq. split; [auto|]. split; [|split; [|split]]; simpl.
  - intros. apply framed_refl.
  - auto.
  - intros t Hin. now destruct (proj1 (Hq t)).
  - intros t Hin. now destruct (proj2 (Hq t)).
Qed.

Lemma loop_post_quiet q names w v tr :
  quiet to tr -> loop_post from to src dst q names w (v, w, tr).
Proof.
  intros Hq. split; [auto|]. split; [|split; [|split]]; simpl.
  - intros. apply framed_refl.
  - auto.
  - intros t Hin. now destruct (proj1 (Hq t)).
  - intros t Hin. now destruct (proj2 (Hq t)).
Qed.

Lemma walk_post_of_file_step q w r :
  file_step_post from to (src ++ q) (dst ++ q) w r ->
  walk_post from to src dst q w r.
Proof.
  intros (HI & Hfr & Hmono & HW & HD).
  split; [exact HI|]. split; [|split; [|split]]; auto.
  - intros x Hx. apply Hfr. apply path_eqb_false. intros ->.
    now rewrite prefixb_refl in Hx.
  - intros t Hin. destruct (HW t Hin) as (-> & b & Hs & Ht).
    exists [], b. now rewrite !app_nil_r.
Qed.

Lemma loop_post_child q n names w r pre v :
  quiet to pre -> In n names ->
  walk_post from to src dst (q ++ [n]) w r ->
  loop_post from to src dst q names w (v, world r, pre ++ trace r).
Proof.
  intros Hq Hn (HI & Hfr & Hmono & HW & HD).
  split; [exact HI|]. split; [|split; [|split]]; simpl.
  - intros x Hx. specialize (Hx n Hn).
    apply (framed_weaken (dst ++ q) n); [assumption|].
    rewrite <- app_assoc. apply Hfr. now rewrite app_assoc.
  - exact Hmono.
  - intros t Hin. apply in_app_or in Hin as [Hin|Hin];
      [now destruct (proj1 (Hq t))|].
    destruct (HW t Hin) as (rel & b & -> & Hs & Ht).
    exists n, rel, b. split; [assumption|].
    rewrite <- !app_assoc in *. simpl in *. auto.
  - intros t Hin. apply in_app_or in Hin as [Hin|Hin];
      [now destruct (proj2 (Hq t))|]. auto.
Qed.

Lemma loop_post_seq q names1 names2 w r1 r2 v :
  (forall n, In n names1 -> ~ In n names2) ->
  loop_post from to src dst q names1 w r1 ->
  loop_post from to src dst q names2 (world r1) r2 ->
  loop_post from to src dst q (names1 ++ names2) w
    (v, world r2, trace r1 ++ trace r2).
Proof.
  intros Hdis ((HI1 & HO1 & HA1) & Hfr1 & Hm1 & HW1 & HD1)
    ((HI2 & HO2 & HA2) & Hfr2 & Hm2 & HW2 & HD2).
  unfold loop_post, world, trace in *; simpl in *.
  split; [repeat split; congruence|].
  split; [|split; [|split]].
  - intros x Hx. eapply framed_trans.
    + apply Hfr1. intros n Hn. apply Hx, in_or_app. now left.
    + apply Hfr2. intros n Hn. apply Hx, in_or_app. now right.
  - auto.
  - intros t Hin. apply in_app_or in Hin as [Hin|Hin].
    + destruct (HW1 t Hin) as (n & rel & b & Hn & -> & Hs & Ht).
      exists n, rel, b. split; [apply in_or_app; now left|].
      split; [reflexivity|]. split; [assumption|].
      destruct (Hfr2 ((dst ++ q) ++ n :: rel)) as [Heq|(_ & Hnone & _)].
      * intros n2 Hn2. apply sibling_not_prefix. intros ->.
        now apply (Hdis n).
      * congruence.
      * congruence.
    + destruct (HW2 t Hin) as (n & rel & b & Hn & -> & Hs & Ht).
      exists n, rel, b. split; [apply in_or_app; now right|].
      split; [reflexivity|]. split; [congruence | assumption].
  - intros t Hin. apply in_app_or in Hin as [Hin|Hin]; auto.
Qed.

Lemma walk_post_dir q names w r0 r1 pre v :
  quiet to pre ->
  dir_step_post from to (dst ++ q) w r0 ->
  loop_post from to src dst q names (world r0) r1 ->
  walk_post from to src dst q w (v, world r1, pre ++ trace r0 ++ trace r1).
Proof.
  intros Hq ((HI0 & HO0 & HA0) & Hfr0 & Hm0 & HW0 & HD0)
    ((HI1 & HO1 & HA1) & Hfr1 & Hm1 & HW1 & HD1).
  unfold walk_post, world, trace in *; simpl in *.
  split; [repeat split; congruence|].
  split; [|split; [|split]].
  - intros x Hx. eapply framed_trans; [apply Hfr0|].
    apply Hfr1. intros n _. now apply prefixb_app_false.
  - auto.
  - intros t Hin. apply in_app_or in Hin as [Hin|Hin];
      [now destruct (proj1 (Hq t))|].
    apply in_app_or in Hin as [Hin|Hin]; [now destruct (HW0 t)|].
    destruct (HW1 t Hin) as (n & rel & b & Hn & -> & Hs & Ht).
    exists (n :: rel), b. split; [reflexivity|]. split; [congruence | assumption].
  - intros t Hin. apply in_app_or in Hin as [Hin|Hin];
      [now destruct (proj2 (Hq t))|].
    apply in_app_or in Hin as [Hin|Hin]; auto.
Qed.

End Compose.

Lemma fs_Lstat_cases E s p w :
  exists r res, fs_Lstat E s p w = (r, w, [Ev (Lstat s p) res]).
Proof.
  unfold fs_Lstat, call, bind, ret.
  destruct (fault E (Lstat s p)); simpl; [eauto|].
  destruct (stat_fs (fs_of s w) p); simpl; eauto.
Qed.

Lemma fs_ReadDir_cases E s p w :
  fs_ReadDir E s p w =
  match fault E (ReadDir s p) with
  | Some e => (Some (err_of s "open" p e), w, [Ev (ReadDir s p) (Some e)])
  | None => (None, w, [Ev (ReadDir s p) None])
  end.
Proof.
  unfold fs_ReadDir, call, bind, ret. now destruct (fault E (ReadDir s p)).
Qed.

Lemma quiet_Lstat to s p res : quiet to [Ev (Lstat s p) res].
Proof. intros t. split; intros [H|[]]; discriminate H. Qed.

Lemma quiet_ReadDir to s p res : quiet to [Ev (ReadDir s p) res].
Proof. intros t. split; intros [H|[]]; discriminate H. Qed.

Lemma walk_Dir E p es fn :
  walk E p (Dir es) fn =
  (err <- fs_ReadDir E Local p ;;
   err1 <- fn p (Some EDir) err ;;
   match err, err1 with
   | None, None =>
       for_entries
         (fun name c =>
            r <- fs_Lstat E Local (Join p [name]) ;;
            match r with
            | Err err => fn (Join p [name]) None (Some err)
            | Ok _ => walk E (Join p [name]) c fn
            end) es
   | _, _ => ret err1
   end).
Proof. reflexivity. Qed.

Lemma walker_loop_eq E p n body :
  walker_loop E p n body =
  (r <- body p (Some (entry_of n)) None ;;
   match r with
   | Some e => ret (Some e)
   | None =>
       match n with
       | File _ => ret None
       | Dir es =>
           err <- fs_ReadDir E Remote p ;;
           match err with
           | Some err => body p (Some EDir) (Some err)
           | None =>
               for_entries
                 (fun name c => walker_loop E (Join p [name]) c body) es
           end
       end
   end).
Proof. destruct n; reflexivity. Qed.

Lemma for_entries_cons body n c es w :
  for_entries body ((n, c) :: es) w =
  let '(e, w1, t1) := body n c w in
  match e with
  | Some e => (Some e, w1, t1)
  | None => let '(v, w2, t2) := for_entries body es w1 in (v, w2, t1 ++ t2)
  end.
Proof.
  simpl. unfold bind. destruct (body n c w) as [[e w1] t1].
  destruct e; [|reflexivity]. simpl. now rewrite ?app_nil_r.
Qed.

Section UploadWalkGeneral.

Variable E : Env.
Variable c : sftpClient.
Variables s d : path.

Let fn := uploadDirectory_fn E c s d.

Lemma upload_fn_dir_post q w :
  dir_step_post Local Remote (d ++ q) w (fn (s ++ q) (Some EDir) None w).
Proof.
  unfold fn. rewrite upload_fn_dir.
  assert (Hsame : forall v tr,
             (forall t', ~ In (Ev (Write Remote t') None) tr) ->
             (forall t', ~ In (Ev (MkdirAll Remote t') None) tr) ->
             dir_step_post Local Remote (d ++ q) w (v, w, tr)).
  { intros v tr H1 H2. split; [auto|]. split; [|split; [|split]]; simpl; auto.
    - intros. apply framed_refl.
    - intros t' Hin. now destruct (H2 t'). }
  destruct (fault E (MkdirAll Remote (d ++ q))) as [e|].
  { apply Hsame; intros t' [H|[]]; discriminate H. }
  destruct (mkdirAll_fs (d ++ q) (rfs w)) as [fs'|] eqn:Hm.
  2:{ apply Hsame; intros t' [H|[]]; discriminate H. }
  split; [now destruct w|]. split; [|split; [|split]]; simpl.
  - intros x. destruct w; simpl in *. now apply mkdirAll_frame.
  - intros x Hx. destruct w; simpl in *. eapply mkdirAll_keeps; eauto.
  - intros t' [H|[]]. discriminate H.
  - intros t' [H|[]]. injection H as <-. destruct w; simpl in *.
    now rewrite (stat_mkdirAll _ _ _ _ Hm), prefixb_refl.
Qed.

Lemma upload_walk_file q b0 w :
  walk_post Local Remote s d q w (walk E (s ++ q) (File b0) fn w).
Proof.
  apply walk_post_of_file_step. simpl walk.
  destruct (upload_fn_file E c s d q b0 w) as (HI & Hfr & Hmono & HW & HD).
  split; [exact HI|]. split; [|split; [|split]]; simpl fs_of.
  - intros x Hx. left. now apply Hfr.
  - intros x Hx. destruct (path_eqb x (d ++ q)) eqn:Heq.
    + apply path_eqb_eq in Heq. subst x. auto.
    + unfold fn. now rewrite Hfr.
  - exact HW.
  - intros t' Hin. now destruct (HD t' None).
Qed.

Lemma upload_loop q :
  forall es,
  nodupb (map fst es) = true ->
  Forall (fun kc => forall q w,
            walk_post Local Remote s d q w (walk E (s ++ q) (snd kc) fn w)) es ->
  forall w,
  loop_post Local Remote s d q (map fst es) w
    (for_entries
       (fun name ch =>
          r <- fs_Lstat E Local (Join (s ++ q) [name]) ;;
          match r with
          | Err err => fn (Join (s ++ q) [name]) None (Some err)
          | Ok _ => walk E (Join (s ++ q) [name]) ch fn
          end) es w).
Proof.
  induction es as [|[n ch] es IHes]; intros Hnd HF w.
  - apply loop_post_quiet, quiet_nil.
  - apply nodupb_cons in Hnd as [Hn Hnd]. simpl in Hn. simpl map.
    rewrite for_entries_cons. cbv beta. unfold bind at 1.
    destruct (fs_Lstat_cases E Local (Join (s ++ q) [n]) w) as (r & res & ->).
    destruct r as [info|err].
    + assert (Hchild := Forall_inv HF (q ++ [n]) w). simpl in Hchild.
      rewrite app_assoc in Hchild. unfold Join at 1 2.
      destruct (walk E ((s ++ q) ++ [n]) ch fn w) as [[v1 w1] t1].
      destruct v1 as [e|].
      * apply (loop_post_child Local Remote s d q n (n :: map fst es) w
                 (Some e, w1, t1) [Ev (Lstat Local ((s ++ q) ++ [n])) res]);
          [apply quiet_Lstat | now left | assumption].
      * specialize (IHes Hnd (Forall_inv_tail HF) w1).
        match type of IHes with
        | loop_post _ _ _ _ _ _ _ (?f ?es ?w) =>
            destruct (f es w) as [[v2 w2] t2]
        end.
        change (n :: map fst es) with ([n] ++ map fst es).
        apply (loop_post_seq Local Remote s d q [n] (map fst es) w
                 (None, w1, [Ev (Lstat Local ((s ++ q) ++ [n])) res] ++ t1)
                 (v2, w2, t2)).
        -- intros n' [<-|[]]. assumption.
        -- apply (loop_post_child Local Remote s d q n [n] w (None, w1, t1));
             [apply quiet_Lstat | now left | assumption].
        -- assumption.
    + unfold fn. rewrite upload_fn_err. simpl.
      apply loop_post_quiet. apply quiet_Lstat.
Qed.

(** The upload of the tree at [s ++ q], whatever fails. *)
Lemma upload_walk_general :
  forall T, wf_node T = true ->
  forall q w, walk_post Local Remote s d q w (walk E (s ++ q) T fn w).
Proof.
  induction T as [b0|es IH] using node_ind_nested; intros Hwf q w.
  - apply upload_walk_file.
  - apply wf_node_Dir in Hwf as [Hnd Hwfs].
    assert (HF : Forall (fun kc => forall q w,
                   walk_post Local Remote s d q w
                     (walk E (s ++ q) (snd kc) fn w)) es).
    { rewrite Forall_forall in *. intros kc Hin. apply IH; [assumption|].
      rewrite forallb_forall in Hwfs. now apply Hwfs. }
    rewrite walk_Dir. unfold bind at 1. rewrite fs_ReadDir_cases.
    destruct (fault E (ReadDir Local (s ++ q))) as [e|]; cbv beta iota.
    + unfold bind at 1. unfold fn. rewrite upload_fn_err. simpl.
      apply walk_post_quiet. apply quiet_ReadDir.
    + unfold bind at 1.
      pose proof (upload_fn_dir_post q w) as Hdir.
      destruct (fn (s ++ q) (Some EDir) None w) as [[err1 w1] t1] eqn:Hfn.
      assert (err1 = None) as ->.
      { unfold fn in Hfn. rewrite upload_fn_dir in Hfn.
        destruct (fault E (MkdirAll Remote (d ++ q)));
          [|destruct (mkdirAll_fs (d ++ q) (rfs w))]; congruence. }
      pose proof (upload_loop q es Hnd HF w1) as Hloop.
      match type of Hloop with
      | loop_post _ _ _ _ _ _ _ (?f ?es ?w) =>
          destruct (f es w) as [[v2 w2] t2]
      end.
      apply (walk_post_dir Local Remote s d q (map fst es) w
               (None, w1, t1) (v2, w2, t2) [Ev (ReadDir Local (s ++ q)) None]);
        [apply quiet_ReadDir | assumption | assumption].
Qed.

End UploadWalkGeneral.

(** ** Sorting the entries changes nothing but their order *)

Lemma leb_false_neq a b : String.leb a b = false -> a <> b.
Proof.
  intros H ->. destruct (String.leb_total b b); congruence.
Qed.

Lemma assoc_insert_entry k x l :
  assoc k (insert_entry x l) =
  if String.eqb k (fst x) then Some (snd x) else assoc k l.
Proof.
  destruct x as [kx vx]. simpl. induction l as [|[ky vy] l IH]; simpl.
  - reflexivity.
  - destruct (String.leb kx ky) eqn:Hle; simpl; [reflexivity|].
    rewrite IH. destruct (String.eqb_spec k kx) as [->|Hk]; [|reflexivity].
    apply leb_false_neq in Hle.
    destruct (String.eqb_spec kx ky); [contradiction | reflexivity].
Qed.

Lemma assoc_sort_entries k l : assoc k (sort_entries l) = assoc k l.
Proof.
  induction l as [|[kx vx] l IH]; simpl; [reflexivity|].
  rewrite assoc_insert_entry. simpl. now rewrite IH.
Qed.

Lemma assoc_map_sort_tree k es :
  assoc k (map (fun kc => (fst kc, sort_tree (snd kc))) es) =
  option_map sort_tree (assoc k es).
Proof.
  induction es as [|[k' v] es IH]; simpl; [reflexivity|].
  destruct (String.eqb k k'); [reflexivity | exact IH].
Qed.

Lemma entry_of_sort_tree T : entry_of (sort_tree T) = entry_of T.
Proof. now destruct T. Qed.

Lemma stat_sort_tree rel : forall T, stat_fs (sort_tree T) rel = stat_fs T rel.
Proof.
  induction rel as [|c rel IH]; intros T.
  - rewrite !stat_nil. now rewrite entry_of_sort_tree.
  - destruct T as [b|es]; [reflexivity|]. simpl sort_tree.
    rewrite !stat_cons_dir, assoc_sort_entries, assoc_map_sort_tree.
    destruct (assoc c es); simpl; auto.
Qed.

Lemma in_insert_entry y x l : In y (insert_entry x l) <-> y = x \/ In y l.
Proof.
  induction l as [|z l IH]; simpl.
  - intuition.
  - destruct (String.leb (fst x) (fst z)); simpl; [intuition|].
    rewrite IH. intuition.
Qed.

Lemma in_sort_entries y l : In y (sort_entries l) <-> In y l.
Proof.
  induction l as [|x l IH]; simpl; [tauto|].
  rewrite in_insert_entry, IH. intuition.
Qed.

Lemma nodupb_NoDup l : nodupb l = true <-> NoDup l.
Proof.
  induction l as [|a l IH]; simpl.
  - split; [constructor | reflexivity].
  - rewrite andb_true_iff, negb_true_iff, IH. split.
    + intros [Ha Hl]. constructor; [|assumption]. intros Hin.
      assert (existsb (String.eqb a) l = true); [|congruence].
      apply existsb_exists. exists a. split; [assumption | apply String.eqb_refl].
    + intros H. inversion H as [|? ? Hn Hl]; subst. split; [|assumption].
      destruct (existsb (String.eqb a) l) eqn:He; [|reflexivity].
      apply existsb_exists in He as (y & Hy & Heq).
      apply String.eqb_eq in Heq. subst y. contradiction.
Qed.

Lemma sort_entries_perm l : Permutation (sort_entries l) l.
Proof.
  induction l as [|x l IH]; simpl; [constructor|].
  assert (Hins : forall m, Permutation (insert_entry x m) (x :: m)).
  { induction m as [|z m IHm]; simpl; [apply Permutation_refl|].
    destruct (String.leb (fst x) (fst z)); [apply Permutation_refl|].
    eapply Permutation_trans; [apply perm_skip, IHm | apply perm_swap]. }
  eapply Permutation_trans; [apply Hins | now apply perm_skip].
Qed.

Lemma wf_sort_tree : forall T, wf_node T = true -> wf_node (sort_tree T) = true.
Proof.
  induction T as [b|es IH] using node_ind_nested; intros Hwf; [reflexivity|].
  apply wf_node_Dir in Hwf as [Hnd Hwfs]. simpl.
  apply andb_true_iff. split.
  - apply nodupb_NoDup. apply nodupb_NoDup in Hnd.
    eapply Permutation_NoDup; [|exact Hnd].
    apply Permutation_sym. eapply Permutation_trans.
    + apply Permutation_map. apply sort_entries_perm.
    + rewrite map_map. simpl. apply Permutation_refl.
  - apply forallb_forall. intros kc Hin.
    apply (proj1 (in_sort_entries _ _)) in Hin.
    apply in_map_iff in Hin as ([k v] & <- & Hin). simpl.
    rewrite Forall_forall in IH. rewrite forallb_forall in Hwfs.
    apply (IH (k, v) Hin). now apply (Hwfs (k, v)).
Qed.

Lemma assoc_In k v es : assoc k es = Some v -> In (k, v) es.
Proof.
  induction es as [|[k' v'] es IH]; simpl; [discriminate|].
  destruct (String.eqb_spec k k') as [->|Hk].
  - intros [= ->]. now left.
  - intros H. right. auto.
Qed.

Lemma In_assoc k v es :
  nodupb (map fst es) = true -> In (k, v) es -> assoc k es = Some v.
Proof.
  induction es as [|[k' v'] es IH]; simpl; [intros _ []|].
  intros Hnd [Heq|Hin].
  - injection Heq as -> ->. now rewrite String.eqb_refl.
  - apply nodupb_cons in Hnd as [Hn Hnd]. simpl in Hn.
    destruct (String.eqb_spec k k') as [->|Hk]; [|auto].
    exfalso. apply Hn. apply in_map_iff. now exists (k', v).
Qed.

Lemma lookup_app n p q :
  lookup n (p ++ q) =
  match lookup n p with
  | Some m => lookup m q
  | None => None
  end.
Proof.
  revert n; induction p as [|c p IH]; intros n; [reflexivity|].
  destruct n as [b|es]; [reflexivity|]. simpl.
  destruct (assoc c es); auto.
Qed.

Lemma stat_app n p q m :
  lookup n p = Some m -> stat_fs n (p ++ q) = stat_fs m q.
Proof. intros H. unfold stat_fs. now rewrite lookup_app, H. Qed.

(** ** The upload of a directory when nothing fails *)

Lemma fs_Lstat_ok E s p w en :
  fault E (Lstat s p) = None -> stat_fs (fs_of s w) p = Some en ->
  fs_Lstat E s p w = (Ok en, w, [Ev (Lstat s p) None]).
Proof.
  intros Hf Hs. unfold fs_Lstat, call, bind, ret. now rewrite Hf, Hs.
Qed.

Lemma stat_File_inv b rel e :
  stat_fs (File b) rel = Some e -> rel = [] /\ e = EFile b.
Proof. destruct rel; [intros [= <-]; auto | discriminate]. Qed.

Section UploadOk.

Variable E : Env.
Variable c : sftpClient.
Variables s d : path.
Hypothesis Hnf : forall pr, fault E pr = None.

Let fn := uploadDirectory_fn E c s d.

Lemma upload_fn_file_ok q b b0 w :
  stat_fs (lfs w) (s ++ q) = Some (EFile b) ->
  d ++ q <> [] -> stat_fs (rfs w) (Dir_of (d ++ q)) = Some EDir ->
  stat_fs (rfs w) (d ++ q) <> Some EDir ->
  let r := fn (s ++ q) (Some (EFile b0)) None w in
  value r = None /\ stat_fs (rfs (world r)) (d ++ q) = Some (EFile b).
Proof.
  intros Hsrc Hne Hpar Hnd.
  destruct (create_succeeds _ _ Hne Hpar Hnd) as [r1 Hc].
  destruct w as [l r a o]. simpl in *.
  unfold fn, uploadDirectory_fn. rewrite Rel_app. unfold Join.
  unfold_prims. simpl.
  repeat (progress (simpl; rewrite ?Hnf, ?Hsrc, ?Hc)).
  split; [reflexivity|].
  now rewrite (stat_create_write _ _ _ _ _ Hc), path_eqb_refl.
Qed.

Lemma upload_fn_dir_ok q w :
  (forall x b, prefixb x (d ++ q) = true -> stat_fs (rfs w) x <> Some (EFile b)) ->
  let r := fn (s ++ q) (Some EDir) None w in
  value r = None /\ all_dirs (rfs (world r)) (d ++ q).
Proof.
  intros Hroot. destruct (mkdirAll_succeeds _ _ Hroot) as [fs' Hm].
  unfold fn. rewrite upload_fn_dir, Hnf, Hm. split; [reflexivity|].
  intros x Hx. destruct w; simpl. now rewrite (stat_mkdirAll _ _ _ _ Hm), Hx.
Qed.

Lemma upload_loop_ok q :
  forall es,
  nodupb (map fst es) = true ->
  forallb (fun kc => wf_node (snd kc)) es = true ->
  Forall (fun kc =>
            wf_node (snd kc) = true ->
            forall q w,
              src_agrees (snd kc) (lfs w) (s ++ q) ->
              compat (snd kc) (d ++ q) (rfs w) ->
              root_ok (snd kc) (d ++ q) (rfs w) ->
              exists w' tr,
                walk E (s ++ q) (snd kc) fn w = (None, w', tr) /\
                forall rel e, stat_fs (snd kc) rel = Some e ->
                              stat_fs (rfs w') ((d ++ q) ++ rel) = Some e) es ->
  forall w,
  all_dirs (rfs w) (d ++ q) ->
  (forall n ch, In (n, ch) es ->
                src_agrees ch (lfs w) (s ++ q ++ [n]) /\
                compat ch ((d ++ q) ++ [n]) (rfs w)) ->
  exists w' tr,
    for_entries
      (fun name ch =>
         r <- fs_Lstat E Local (Join (s ++ q) [name]) ;;
         match r with
         | Err err => fn (Join (s ++ q) [name]) None (Some err)
         | Ok _ => walk E (Join (s ++ q) [name]) ch fn
         end) es w = (None, w', tr) /\
    forall n ch, In (n, ch) es ->
      forall rel e, stat_fs ch rel = Some e ->
                    stat_fs (rfs w') (((d ++ q) ++ [n]) ++ rel) = Some e.
Proof.
  induction es as [|[n ch] es IHes]; intros Hnd Hwfs HF w Hdirs Hch.
  - exists w, []. split; [reflexivity | intros n ch []].
  - apply nodupb_cons in Hnd as [Hn Hnd]. simpl in Hn.
    simpl in Hwfs. apply andb_true_iff in Hwfs as [Hwf Hwfs].
    destruct (Hch n ch (or_introl eq_refl)) as [Hsrc Hcompat].
    assert (Hst : stat_fs (lfs w) (Join (s ++ q) [n]) = Some (entry_of ch)).
    { unfold Join. rewrite <- app_assoc.
      rewrite <- (app_nil_r (q ++ [n])), app_assoc. apply Hsrc. apply stat_nil. }
    rewrite for_entries_cons. cbv beta. unfold bind at 1.
    rewrite (fs_Lstat_ok E Local _ w _ (Hnf _) Hst).
    (* the entry itself *)
    assert (Hroot : root_ok ch (d ++ q ++ [n]) (rfs w)).
    { rewrite (app_assoc d q [n]). destruct ch as [b|es']; simpl.
      - split; [now destruct (d ++ q)|].
        rewrite Dir_of_snoc. apply Hdirs, prefixb_refl.
      - intros x b Hx Hfile. apply prefixb_snoc in Hx as [->|Hx].
        + apply (Hcompat [] EDir eq_refl b). now rewrite ?app_nil_r.
        + rewrite (Hdirs x Hx) in Hfile. discriminate. }
    assert (Hcompat' : compat ch (d ++ q ++ [n]) (rfs w))
      by (rewrite (app_assoc d q [n]); exact Hcompat).
    destruct (Forall_inv HF Hwf (q ++ [n]) w Hsrc Hcompat' Hroot)
      as (w1 & t1 & Hwalk & Hmirror).
    simpl in Hwalk, Hmirror.
    rewrite (app_assoc s q [n]) in Hwalk. rewrite (app_assoc d q [n]) in Hmirror.
    pose proof (upload_walk_general E c s d ch Hwf (q ++ [n]) w) as Hpost.
    rewrite (app_assoc s q [n]) in Hpost. fold fn in Hpost.
    rewrite Hwalk in Hpost. unfold Join at 1 2. rewrite Hwalk.
    destruct Hpost as ((Hl1 & Ho1 & Ha1) & Hfr1 & Hm1 & _ & _).
    rewrite (app_assoc d q [n]) in Hfr1.
    unfold world in *. simpl in Hl1, Ho1, Ha1, Hfr1, Hm1.
    (* the entries after it *)
    assert (Hdirs1 : all_dirs (rfs w1) (d ++ q)).
    { intros x Hx. apply Hm1. now apply Hdirs. }
    assert (Hch1 : forall n' ch', In (n', ch') es ->
                     src_agrees ch' (lfs w1) (s ++ q ++ [n']) /\
                     compat ch' ((d ++ q) ++ [n']) (rfs w1)).
    { intros n' ch' Hin. destruct (Hch n' ch' (or_intror Hin)) as [Hs' Hc'].
      split; [now rewrite Hl1|].
      assert (Hne : n <> n').
      { intros ->. apply Hn. apply in_map_iff. now exists (n', ch'). }
      intros rel e He. specialize (Hc' rel e He).
      assert (Hsame : stat_fs (rfs w1) (((d ++ q) ++ [n']) ++ rel) =
                      stat_fs (rfs w) (((d ++ q) ++ [n']) ++ rel)).
      { rewrite <- app_assoc. simpl.
        destruct (Hfr1 ((d ++ q) ++ n' :: rel)) as [Heq|(Hp & _)].
        - now apply sibling_not_prefix.
        - exact Heq.
        - rewrite prefixb_app_l in Hp. simpl in Hp.
          destruct (String.eqb_spec n' n); [congruence | discriminate]. }
      now rewrite Hsame. }
    destruct (IHes Hnd Hwfs (Forall_inv_tail HF) w1 Hdirs1 Hch1)
      as (w2 & t2 & Hrest & Hmirror2).
    pose proof (upload_loop E c s d q es Hnd) as Hloop.
    assert (HF' : Forall (fun kc => forall q w,
                    walk_post Local Remote s d q w
                      (walk E (s ++ q) (snd kc) fn w)) es).
    { apply Forall_forall. intros kc Hin. intros q' w'.
      apply upload_walk_general. rewrite forallb_forall in Hwfs. now apply Hwfs. }
    specialize (Hloop HF' w1). fold fn in Hloop.
    rewrite Hrest in Hloop. rewrite Hrest.
    destruct Hloop as (_ & Hfr2 & _). unfold world in *. simpl in Hfr2.
    eexists _, _. split; [reflexivity|].
    intros n0 ch0 [Heq|Hin] rel e He.
    + injection Heq as <- <-.
      destruct (Hfr2 (((d ++ q) ++ [n]) ++ rel)) as [Hsame|(_ & Hnone & _)].
      * intros n' Hn'. rewrite <- (app_assoc (d ++ q) [n] rel). simpl.
        apply sibling_not_prefix. intros ->. contradiction.
      * rewrite Hsame. now apply Hmirror.
      * rewrite (Hmirror rel e He) in Hnone. discriminate.
    + now apply (Hmirror2 n0 ch0 Hin).
Qed.

(** When nothing fails, the walk of the tree [T] at [s ++ q] returns no
    error, and the destination reports below [d ++ q] what [T] holds. *)
Lemma upload_walk_ok :
  forall T, wf_node T = true ->
  forall q w,
    src_agrees T (lfs w) (s ++ q) ->
    compat T (d ++ q) (rfs w) ->
    root_ok T (d ++ q) (rfs w) ->
    exists w' tr,
      walk E (s ++ q) T fn w = (None, w', tr) /\
      forall rel e, stat_fs T rel = Some e ->
                    stat_fs (rfs w') ((d ++ q) ++ rel) = Some e.
Proof.
  induction T as [b0|es IH] using node_ind_nested; intros Hwf q w Hsrc Hcompat Hroot.
  - change (walk E (s ++ q) (File b0) fn w)
      with (fn (s ++ q) (Some (EFile b0)) None w).
    destruct Hroot as [Hne Hpar].
    destruct (upload_fn_file_ok q b0 b0 w) as [Hv Hst]; auto.
    { rewrite <- (app_nil_r q), app_assoc. apply Hsrc. reflexivity. }
    { specialize (Hcompat [] (EFile b0) eq_refl). now rewrite ?app_nil_r in Hcompat. }
    destruct (fn (s ++ q) (Some (EFile b0)) None w) as [[v w'] tr].
    unfold value, world in Hv, Hst. simpl in Hv, Hst. subst v. exists w', tr. split; [reflexivity|].
    intros rel e He. apply stat_File_inv in He as [-> ->].
    now rewrite ?app_nil_r.
  - apply wf_node_Dir in Hwf as [Hnd Hwfs].
    rewrite walk_Dir. unfold bind at 1. rewrite fs_ReadDir_cases, Hnf.
    cbv beta iota. unfold bind at 1.
    destruct (upload_fn_dir_ok q w Hroot) as [Hv Hdirs].
    pose proof (upload_fn_dir_post E c s d q w) as Hdir. fold fn in Hdir.
    destruct (fn (s ++ q) (Some EDir) None w) as [[v w1] t1].
    unfold value, world in Hv, Hdirs. simpl in Hv, Hdirs. subst v.
    destruct Hdir as ((Hl1 & _ & _) & Hfr1 & _). unfold world in *.
    simpl in Hl1, Hfr1.
    destruct (upload_loop_ok q es Hnd Hwfs IH w1 Hdirs) as (w2 & t2 & Hloop & Hmirror).
    { intros n ch Hin. apply (In_assoc _ _ _ Hnd) in Hin. split.
      - intros rel e He. rewrite Hl1.
        replace ((s ++ q ++ [n]) ++ rel) with ((s ++ q) ++ n :: rel)
          by (now rewrite <- !app_assoc).
        apply Hsrc. now rewrite stat_cons_dir, Hin.
      - intros rel e He.
        assert (Hc := Hcompat (n :: rel) e). rewrite stat_cons_dir, Hin in Hc.
        specialize (Hc He).
        replace (((d ++ q) ++ [n]) ++ rel) with ((d ++ q) ++ n :: rel)
          by (now rewrite <- !app_assoc).
        destruct (Hfr1 ((d ++ q) ++ n :: rel)) as [->|(Hp & _)]; [exact Hc|].
        now rewrite prefixb_longer in Hp. }
    pose proof (upload_loop E c s d q es Hnd) as Hpost.
    assert (HF' : Forall (fun kc => forall q w,
                    walk_post Local Remote s d q w
                      (walk E (s ++ q) (snd kc) fn w)) es).
    { apply Forall_forall. intros kc Hin. intros q' w'.
      apply upload_walk_general. rewrite forallb_forall in Hwfs. now apply Hwfs. }
    specialize (Hpost HF' w1). fold fn in Hpost. rewrite Hloop in Hpost.
    destruct Hpost as (_ & _ & Hm2 & _). unfold world in Hm2. simpl in Hm2.
    rewrite Hloop. eexists _, _. split; [reflexivity|].
    intros rel e He. destruct rel as [|n rel].
    + rewrite stat_nil in He. injection He as <-. rewrite ?app_nil_r.
      apply Hm2. apply Hdirs, prefixb_refl.
    + rewrite stat_cons_dir in He. destruct (assoc n es) as [ch|] eqn:Ha;
        [|discriminate].
      apply assoc_In in Ha.
      replace ((d ++ q) ++ n :: rel) with (((d ++ q) ++ [n]) ++ rel)
        by (now rewrite <- !app_assoc).
      now apply (Hmirror n ch Ha).
Qed.

End UploadOk.

Lemma fs_Stat_ok E s p w en :
  fault E (Stat s p) = None -> stat_fs (fs_of s w) p = Some en ->
  fs_Stat E s p w = (Ok en, w, [Ev (Stat s p) None]).
Proof.
  intros Hf Hs. unfold fs_Stat, call, bind, ret. now rewrite Hf, Hs.
Qed.

Lemma sftp_NewClient_ok E w :
  fault E NewClient = None -> alive w = true ->
  sftp_NewClient E w = (Ok SftpClient, acquire HClient w, [Ev NewClient None]).
Proof.
  intros Hf Ha. unfold sftp_NewClient, call, bind, ret. now rewrite Hf, Ha.
Qed.

Lemma stat_lookup fs p T : lookup fs p = Some T -> stat_fs fs p = Some (entry_of T).
Proof. intros H. unfold stat_fs. now rewrite H. Qed.

(** X24.  Let [T] be the directory tree at the local path [src], and let
    nothing stand in the way of its upload to [dst].  Then [Upload] returns no
    error, and afterwards the remote file system reports below [dst], at the
    same relative path, every node of [T]: a directory where [T] has a
    directory, an empty one included, and a regular file with the same bytes
    where [T] has a regular file. *)
Theorem Upload_mirrors_directory_tree
  (E : Env) (w : World) (src dst : path) (T : node) :
  upload_ready E w src dst T ->
  let r := Upload E src dst w in
  value r = None /\
  forall rel e, stat_fs T rel = Some e ->
                stat_fs (rfs (world r)) (dst ++ rel) = Some e.
Proof.
  intros (Hnf & Halive & Hlook & Hdir & Hwf & Hanc & Hcompat).
  assert (Hwalk := upload_walk_ok E SftpClient src dst Hnf (sort_tree T)
                     (wf_sort_tree T Hwf) [] (acquire HClient w)).
  rewrite !app_nil_r in Hwalk.
  destruct Hwalk as (w' & tr & Hwalk & Hmirror).
  - intros rel e He. rewrite stat_sort_tree in He.
    destruct w; simpl in *. now rewrite (stat_app _ _ rel _ Hlook).
  - intros rel e He. rewrite stat_sort_tree in He.
    destruct w; simpl. now apply Hcompat.
  - destruct T as [b|es]; [discriminate|]. destruct w; simpl. exact Hanc.
  - assert (Hrun : exists w2 tr2,
              Upload E src dst w = (None, w2, tr2) /\ rfs w2 = rfs w').
    { unfold Upload. unfold bind at 1. unfold os_Stat.
      rewrite (fs_Stat_ok E Local src w EDir (Hnf _)).
      2:{ simpl. rewrite (stat_lookup _ _ _ Hlook). now rewrite Hdir. }
      unfold uploadDirectory. change (IsDir EDir) with true. cbv iota.
      unfold bind at 1. rewrite (sftp_NewClient_ok E w (Hnf _) Halive).
      unfold defer. unfold bind at 1 2. unfold filepath_Walk. unfold bind at 1.
      rewrite (fs_Lstat_ok E Local src (acquire HClient w) EDir (Hnf _)).
      2:{ destruct w; simpl in *. rewrite (stat_lookup _ _ _ Hlook).
          now rewrite Hdir. }
      replace (lookup (lfs (acquire HClient w)) src) with (Some T)
        by (now destruct w).
      rewrite Hwalk. unfold sftp_Close, ret. simpl.
      eexists _, _. split; [reflexivity|]. now destruct w'. }
    destruct Hrun as (w2 & tr2 & Hrun & Hrfs). cbv zeta. rewrite Hrun.
    unfold value, world. simpl. split; [reflexivity|].
    intros rel e He. rewrite Hrfs. apply Hmirror. now rewrite stat_sort_tree.
Qed.

(** ** The first error ends the run *)

Lemma clean_app t1 t2 : clean (t1 ++ t2) = clean t1 && clean t2.
Proof. unfold clean. apply forallb_app. Qed.

Lemma closes_clean tc : forallb is_close tc = true -> clean tc = true.
Proof.
  unfold clean. rewrite !forallb_forall. intros H e He.
  unfold unchecked. now rewrite (H e He).
Qed.

Lemma stops_prefix t1 v w w' t2 :
  clean t1 = true -> first_error_returned (v, w, t2) -> first_error_returned (v, w', t1 ++ t2).
Proof.
  unfold first_error_returned, value, trace. simpl. intros H1. destruct v as [err|].
  - intros (pre & p & en & post & -> & Hpre & Hpost & Hun & Hc & Hb).
    exists (t1 ++ pre), p, en, post. rewrite clean_app, H1, Hpre.
    repeat split; auto. now rewrite app_assoc.
  - intros H2. now rewrite clean_app, H1, H2.
Qed.

Lemma stops_closes tc v w w' t :
  forallb is_close tc = true -> first_error_returned (v, w, t) -> first_error_returned (v, w', t ++ tc).
Proof.
  unfold first_error_returned, value, trace. simpl. intros Hc. destruct v as [err|].
  - intros (pre & p & en & post & -> & Hpre & Hpost & Hun & Hcause & Hb).
    exists pre, p, en, (post ++ tc). rewrite forallb_app, Hpost, Hc.
    repeat split; auto. now rewrite <- app_assoc.
  - intros H. now rewrite clean_app, H, (closes_clean tc Hc).
Qed.

Lemma stops_wrap msg e w w' t :
  existsb (String.eqb msg) transfer_messages = true ->
  first_error_returned (Some e, w, t) ->
  first_error_returned (Some (Wrapped msg e), w', t).
Proof.
  unfold first_error_returned, value, trace. simpl. intros Hmsg.
  intros (pre & p & en & post & -> & Hpre & Hpost & Hun & Hcause & Hb).
  exists pre, p, en, post. repeat split; auto.
  simpl. unfold transfer_messages in Hmsg. simpl in Hmsg. now rewrite Hmsg, Hb.
Qed.

(** A failed call whose result is looked at, nothing before and nothing after
    it. *)
Lemma stops_failed p en err w :
  unchecked (Ev p (Some en)) = false -> own_error p en (cause err) ->
  bare err = true ->
  first_error_returned (Some err, w, [Ev p (Some en)]).
Proof.
  intros Hun Hc Hb. exists [], p, en, []. repeat split; auto.
Qed.

Ltac stop_here :=
  apply stops_failed; [reflexivity | simpl; reflexivity | reflexivity].

Lemma stops_ok w tr : clean tr = true -> first_error_returned (None, w, tr).
Proof. auto. Qed.

(** The loop over the entries stops at the first entry that returns an
    error. *)
Lemma for_entries_stops body es :
  (forall n c, In (n, c) es -> forall w, first_error_returned (body n c w)) ->
  forall w, first_error_returned (for_entries body es w).
Proof.
  induction es as [|[n c] es IH]; intros Hbody w.
  - apply stops_ok. reflexivity.
  - rewrite for_entries_cons.
    assert (H1 := Hbody n c (or_introl eq_refl) w).
    destruct (body n c w) as [[e w1] t1]. destruct e as [e|]; [exact H1|].
    assert (H2 := IH (fun n c Hin => Hbody n c (or_intror Hin)) w1).
    destruct (for_entries body es w1) as [[v w2] t2].
    exact (stops_prefix t1 v w2 w2 t2 H1 H2).
Qed.

Section FailFast.

Variable E : Env.

Lemma fs_Lstat_fail_fast s p w :
  (exists en, fs_Lstat E s p w = (Ok en, w, [Ev (Lstat s p) None])) \/
  (exists e, fs_Lstat E s p w = (Err (prim_error (Lstat s p) e), w,
                                  [Ev (Lstat s p) (Some e)])).
Proof.
  unfold fs_Lstat, call, bind, ret.
  destruct (fault E (Lstat s p)) as [e|]; simpl; [right; eauto|].
  destruct (stat_fs (fs_of s w) p); simpl; [left | right]; eauto.
Qed.

(** [filepath.Walk] below [s] stops at the first error, when the function it
    calls does. *)
Lemma walk_stops (fn : WalkFunc) (s : path) :
  (forall q info w, first_error_returned (fn (s ++ q) info None w)) ->
  (forall p info err w, fn p info (Some err) w = (Some err, w, [])) ->
  forall T q w, first_error_returned (walk E (s ++ q) T fn w).
Proof.
  intros Hfn Herr.
  induction T as [b|es IH] using node_ind_nested; intros q w.
  - apply Hfn.
  - rewrite walk_Dir. unfold bind at 1. rewrite fs_ReadDir_cases.
    destruct (fault E (ReadDir Local (s ++ q))) as [e|]; cbv beta iota.
    + unfold bind at 1. rewrite Herr. simpl.
      stop_here.
    + unfold bind at 1. specialize (Hfn q (Some EDir) w).
      destruct (fn (s ++ q) (Some EDir) None w) as [[err1 w1] t1].
      destruct err1 as [e|].
      * simpl. rewrite ?app_nil_r.
        exact (stops_prefix [Ev (ReadDir Local (s ++ q)) None] _ w1 w1 t1
                 eq_refl Hfn).
      * match goal with
        | |- context [for_entries ?b es w1] =>
            assert (Hloop : first_error_returned (for_entries b es w1));
            [|destruct (for_entries b es w1) as [[v w2] t2]]
        end.
        { apply for_entries_stops. intros n c Hin w0. unfold bind.
          rewrite Forall_forall in IH. specialize (IH (n, c) Hin). simpl in IH.
          destruct (fs_Lstat_fail_fast Local (Join (s ++ q) [n]) w0)
            as [[en ->]|[e ->]].
          - specialize (IH (q ++ [n]) w0). rewrite app_assoc in IH.
            unfold Join.
            destruct (walk E ((s ++ q) ++ [n]) c fn w0) as [[v w2] t2].
            exact (stops_prefix [Ev (Lstat Local ((s ++ q) ++ [n])) None]
                     v w2 w2 t2 eq_refl IH).
          - rewrite Herr. simpl. stop_here. }
        apply (stops_prefix [Ev (ReadDir Local (s ++ q)) None] v w2 w2
                 (t1 ++ t2) eq_refl).
        exact (stops_prefix t1 v w2 w2 t2 Hfn Hloop).
Qed.

(** The loop over the steps of the walker of [sftpClient.Walk] below [s]
    stops at the first error, when its body does. *)
Lemma walker_loop_stops (body : WalkFunc) (s : path) :
  (forall q info w, first_error_returned (body (s ++ q) info None w)) ->
  (forall p info err w, body p info (Some err) w = (Some err, w, [])) ->
  forall T q w, first_error_returned (walker_loop E (s ++ q) T body w).
Proof.
  intros Hbody Herr.
  induction T as [b|es IH] using node_ind_nested; intros q w;
    rewrite walker_loop_eq; unfold bind at 1.
  - specialize (Hbody q (Some (entry_of (File b))) w).
    destruct (body (s ++ q) (Some (entry_of (File b))) None w) as [[r w1] t1].
    destruct r as [e|]; simpl; rewrite ?app_nil_r; exact Hbody.
  - specialize (Hbody q (Some (entry_of (Dir es))) w).
    destruct (body (s ++ q) (Some (entry_of (Dir es))) None w) as [[r w1] t1].
    destruct r as [e|]; [simpl; rewrite ?app_nil_r; exact Hbody|].
    unfold bind at 1. rewrite fs_ReadDir_cases.
    destruct (fault E (ReadDir Remote (s ++ q))) as [e|]; cbv beta iota.
    + rewrite Herr. apply (stops_prefix t1 _ w1 w1); [exact Hbody|].
      simpl. stop_here.
    + match goal with
      | |- context [for_entries ?b es w1] =>
          assert (Hloop : first_error_returned (for_entries b es w1));
          [|destruct (for_entries b es w1) as [[v w2] t2]]
      end.
      { apply for_entries_stops. intros n c Hin w0.
        rewrite Forall_forall in IH. specialize (IH (n, c) Hin (q ++ [n]) w0).
        rewrite app_assoc in IH. exact IH. }
      apply (stops_prefix t1 v w2 w2); [exact Hbody|].
      exact (stops_prefix [Ev (ReadDir Remote (s ++ q)) None] v w2 w2 t2
               eq_refl Hloop).
Qed.

End FailFast.

Ltac found_at pre :=
  exists pre; do 3 eexists; split; [reflexivity|]; repeat split; reflexivity.

Ltac find_failure :=
  unfold fail_fast, value, trace; simpl;
  first
    [ reflexivity
    | found_at (@nil event)
    | eexists [_]; do 3 eexists; split; [reflexivity|]; repeat split; reflexivity
    | eexists [_; _]; do 3 eexists; split; [reflexivity|]; repeat split;
      reflexivity
    | eexists [_; _; _]; do 3 eexists; split; [reflexivity|]; repeat split;
      reflexivity
    | eexists [_; _; _; _]; do 3 eexists; split; [reflexivity|]; repeat split;
      reflexivity
    | eexists [_; _; _; _; _]; do 3 eexists; split; [reflexivity|]; repeat split;
      reflexivity ].

Ltac own_case :=
  simpl;
  first [ reflexivity
        | eexists; split; [|reflexivity]; apply blocker_prefix ].

Ltac stop_after pre :=
  exists pre; do 3 eexists; split; [reflexivity|];
  split; [reflexivity|]; split; [reflexivity|]; split; [reflexivity|];
  split; [own_case | reflexivity].

Ltac find_stop :=
  unfold first_error_returned, value, trace; simpl;
  first
    [ reflexivity
    | stop_after (@nil event)
    | eexists [_]; do 3 eexists; split; [reflexivity|];
      split; [reflexivity|]; split; [reflexivity|]; split; [reflexivity|];
      split; [own_case | reflexivity]
    | eexists [_; _]; do 3 eexists; split; [reflexivity|];
      split; [reflexivity|]; split; [reflexivity|]; split; [reflexivity|];
      split; [own_case | reflexivity]
    | eexists [_; _; _]; do 3 eexists; split; [reflexivity|];
      split; [reflexivity|]; split; [reflexivity|]; split; [reflexivity|];
      split; [own_case | reflexivity]
    | eexists [_; _; _; _]; do 3 eexists; split; [reflexivity|];
      split; [reflexivity|]; split; [reflexivity|]; split; [reflexivity|];
      split; [own_case | reflexivity]
    | eexists [_; _; _; _; _]; do 3 eexists; split; [reflexivity|];
      split; [reflexivity|]; split; [reflexivity|]; split; [reflexivity|];
      split; [own_case | reflexivity] ].

Section FailFastSteps.

Variable E : Env.
Variable c : sftpClient.

Lemma uploadFile_stops s d w : first_error_returned (uploadFile E s d w).
Proof.
  destruct w as [l r a o]. unfold uploadFile. unfold_prims. simpl.
  destruct (fault E NewClient); simpl; [find_stop|].
  destruct a; simpl; [|find_stop].
  destruct (fault E (Open Local s)); simpl; [find_stop|].
  destruct (stat_fs l s) as [en|] eqn:Hsrc; simpl; [|find_stop].
  destruct (fault E (Create Remote d)); simpl; [find_stop|].
  destruct (create_fs d r) as [e|r1]; simpl; [find_stop|].
  destruct (fault E (Read Local s)); simpl; [find_stop|].
  rewrite Hsrc. destruct en as [b|]; simpl; [|find_stop].
  destruct (fault E (Write Remote d)); simpl; find_stop.
Qed.

Lemma downloadFile_stops rp lp w : first_error_returned (downloadFile E c rp lp w).
Proof.
  destruct w as [l r a o]. unfold downloadFile. unfold_prims. simpl.
  destruct (fault E (Open Remote rp)); simpl; [find_stop|].
  destruct (stat_fs r rp) as [en|] eqn:Hsrc; simpl; [|find_stop].
  destruct (fault E (MkdirAll Local (Dir_of lp))) as [e0|]; simpl;
    [destruct e0; find_stop|].
  destruct (mkdirAll_fs (Dir_of lp) l) as [l1|]; simpl; [|find_stop].
  destruct (fault E (Create Local lp)); simpl; [find_stop|].
  destruct (create_fs lp l1) as [e|l2]; simpl; [find_stop|].
  destruct (fault E (Read Remote rp)); simpl; [find_stop|].
  rewrite Hsrc. destruct en as [b|]; simpl; [|find_stop].
  destruct (fault E (Write Local lp)); simpl; [find_stop|].
  destruct (fault E (Sync lp)); simpl; find_stop.
Qed.

Lemma upload_fn_stops s d q info w :
  first_error_returned (uploadDirectory_fn E c s d (s ++ q) info None w).
Proof.
  destruct w as [l r a o]. unfold uploadDirectory_fn. rewrite Rel_app.
  unfold Join. unfold_prims. simpl.
  destruct info as [[b|]|]; simpl.
  3:{ destruct (fault E (Open Local (s ++ q))); simpl; [find_stop|].
      destruct (stat_fs l (s ++ q)) as [en|] eqn:Hsrc; simpl; [|find_stop].
      destruct (fault E (Create Remote (d ++ q))); simpl; [find_stop|].
      destruct (create_fs (d ++ q) r) as [e|r1]; simpl; [find_stop|].
      destruct (fault E (Read Local (s ++ q))); simpl; [find_stop|].
      rewrite Hsrc. destruct en as [b|]; simpl; [|find_stop].
      destruct (fault E (Write Remote (d ++ q))); simpl; find_stop. }
  - destruct (fault E (Open Local (s ++ q))); simpl; [find_stop|].
    destruct (stat_fs l (s ++ q)) as [en|] eqn:Hsrc; simpl; [|find_stop].
    destruct (fault E (Create Remote (d ++ q))); simpl; [find_stop|].
    destruct (create_fs (d ++ q) r) as [e|r1]; simpl; [find_stop|].
    destruct (fault E (Read Local (s ++ q))); simpl; [find_stop|].
    rewrite Hsrc. destruct en as [b'|]; simpl; [|find_stop].
    destruct (fault E (Write Remote (d ++ q))); simpl; find_stop.
  - destruct (fault E (MkdirAll Remote (d ++ q))); simpl; [find_stop|].
    destruct (mkdirAll_fs (d ++ q) r); simpl; find_stop.
Qed.

Lemma download_body_stops s d q info w :
  first_error_returned (downloadDirectory_body E c s d (s ++ q) info None w).
Proof.
  unfold downloadDirectory_body. rewrite Rel_app. unfold Join.
  assert (Hfile : first_error_returned
            (bind (downloadFile E c (s ++ q) (d ++ q))
               (fun err => match err with
                           | Some err => ret (Some err)
                           | None => ret None
                           end) w)).
  { unfold bind. pose proof (downloadFile_stops (s ++ q) (d ++ q) w) as H.
    destruct (downloadFile E c (s ++ q) (d ++ q) w) as [[v w1] t1].
    destruct v; simpl; rewrite ?app_nil_r; exact H. }
  destruct info as [[b|]|]; simpl; try exact Hfile.
  destruct w as [l r a o]. unfold_prims. simpl.
  destruct (fault E (MkdirAll Local (d ++ q))) as [e0|]; simpl;
    [destruct e0; find_stop|].
  destruct (mkdirAll_fs (d ++ q) l); simpl; find_stop.
Qed.

End FailFastSteps.

Section FailFastTransfers.

Variable E : Env.

Lemma sftp_NewClient_cases w :
  sftp_NewClient E w = (Ok SftpClient, acquire HClient w, [Ev NewClient None]) \/
  exists e, sftp_NewClient E w = (Err (prim_error NewClient e), w,
                                   [Ev NewClient (Some e)]).
Proof.
  unfold sftp_NewClient, call, bind, ret.
  destruct (fault E NewClient) as [e|]; simpl; [right; eauto|].
  destruct (alive w); simpl; [left | right]; eauto.
Qed.

Lemma fs_Stat_cases s p w :
  (exists en, stat_fs (fs_of s w) p = Some en /\
              fs_Stat E s p w = (Ok en, w, [Ev (Stat s p) None])) \/
  (exists e, fs_Stat E s p w = (Err (prim_error (Stat s p) e), w,
                                 [Ev (Stat s p) (Some e)])).
Proof.
  unfold fs_Stat, call, bind, ret.
  destruct (fault E (Stat s p)) as [e|]; simpl; [right; eauto|].
  destruct (stat_fs (fs_of s w) p); simpl; [left | right]; eauto.
Qed.

(** The deferred close of the sub-channel comes last and changes nothing of
    the result. *)
Lemma stops_defer_client c (body : M (option error)) w :
  first_error_returned (body w) -> first_error_returned (defer (sftp_Close E c) body w).
Proof.
  intros H. unfold defer, bind, sftp_Close, ret.
  destruct (body w) as [[v w1] t1]. rewrite ?app_nil_r.
  eapply stops_closes; [reflexivity | exact H].
Qed.

Lemma uploadDirectory_stops s d w : first_error_returned (uploadDirectory E s d w).
Proof.
  unfold uploadDirectory. unfold bind at 1.
  destruct (sftp_NewClient_cases w) as [->|[e ->]].
  2:{ apply stops_wrap with (w := w); [reflexivity|]. stop_here. }
  set (w0 := acquire HClient w).
  assert (H : first_error_returned
                (defer (sftp_Close E SftpClient)
                   (filepath_Walk E s (uploadDirectory_fn E SftpClient s d)) w0)).
  { apply stops_defer_client. unfold filepath_Walk. unfold bind at 1.
    destruct (fs_Lstat_fail_fast E Local s w0) as [[en ->]|[e ->]].
    - destruct (lookup (lfs w0) s) as [n|]; [|find_stop].
      pose proof (walk_stops E (uploadDirectory_fn E SftpClient s d) s
                    (fun q info w => upload_fn_stops E SftpClient s d q info w)
                    (fun p info err w => eq_refl) (sort_tree n) [] w0) as H.
      rewrite ?app_nil_r in H.
      destruct (walk E s (sort_tree n) (uploadDirectory_fn E SftpClient s d) w0)
        as [[v w2] t2].
      exact (stops_prefix [Ev (Lstat Local s) None] v w2 w2 t2 eq_refl H).
    - simpl. stop_here. }
  destruct (defer (sftp_Close E SftpClient)
              (filepath_Walk E s (uploadDirectory_fn E SftpClient s d)) w0)
    as [[v w2] t2].
  exact (stops_prefix [Ev NewClient None] v w2 w2 t2 eq_refl H).
Qed.

Lemma downloadDirectory_stops c s d w : first_error_returned (downloadDirectory E c s d w).
Proof.
  unfold downloadDirectory, sftp_Walk_loop. unfold bind at 1.
  destruct (fs_Lstat_fail_fast E Remote s w) as [[en ->]|[e ->]].
  - destruct (lookup (rfs w) s) as [n|]; [|find_stop].
    pose proof (walker_loop_stops E (downloadDirectory_body E c s d) s
                  (fun q info w => download_body_stops E c s d q info w)
                  (fun p info err w => eq_refl) n [] w) as H.
    rewrite ?app_nil_r in H.
    destruct (walker_loop E s n (downloadDirectory_body E c s d) w)
      as [[v w2] t2].
    exact (stops_prefix [Ev (Lstat Remote s) None] v w2 w2 t2 eq_refl H).
  - simpl. stop_here.
Qed.

(** [Upload] stops at the first error and returns it. *)
Lemma Upload_stops s d w : first_error_returned (Upload E s d w).
Proof.
  unfold Upload. unfold bind at 1. unfold os_Stat.
  destruct (fs_Stat_cases Local s w) as [(en & _ & ->)|[e ->]].
  2:{ apply stops_wrap with (w := w); [reflexivity|]. stop_here. }
  destruct (IsDir en).
  - pose proof (uploadDirectory_stops s d w) as H.
    destruct (uploadDirectory E s d w) as [[v w2] t2].
    exact (stops_prefix [Ev (Stat Local s) None] v w2 w2 t2 eq_refl H).
  - pose proof (uploadFile_stops E s d w) as H.
    destruct (uploadFile E s d w) as [[v w2] t2].
    exact (stops_prefix [Ev (Stat Local s) None] v w2 w2 t2 eq_refl H).
Qed.

(** [Download] stops at the first error and returns it. *)
Lemma Download_stops s d w : first_error_returned (Download E s d w).
Proof.
  unfold Download, NewSftp. unfold bind at 1.
  destruct (sftp_NewClient_cases w) as [->|[e ->]].
  2:{ stop_here. }
  set (w0 := acquire HClient w).
  match goal with
  | |- context [defer ?cl ?body w0] =>
      assert (H : first_error_returned (defer cl body w0));
      [|destruct (defer cl body w0) as [[v w2] t2];
        exact (stops_prefix [Ev NewClient None] v w2 w2 t2 eq_refl H)]
  end.
  apply stops_defer_client. unfold bind at 1. unfold sftp_Stat.
  destruct (fs_Stat_cases Remote s w0) as [(en & _ & ->)|[e ->]].
  2:{ apply stops_wrap with (w := w0); [reflexivity|]. stop_here. }
  destruct (IsDir en).
  - pose proof (downloadDirectory_stops SftpClient s d w0) as H.
    destruct (downloadDirectory E SftpClient s d w0) as [[v w2] t2].
    exact (stops_prefix [Ev (Stat Remote s) None] v w2 w2 t2 eq_refl H).
  - pose proof (downloadFile_stops E SftpClient s d w0) as H.
    destruct (downloadFile E SftpClient s d w0) as [[v w2] t2].
    exact (stops_prefix [Ev (Stat Remote s) None] v w2 w2 t2 eq_refl H).
Qed.

End FailFastTransfers.

(** ** The download of a directory, whatever fails *)

Lemma loop_post_prefix from to src dst q names w v w2 pre t :
  quiet to pre ->
  loop_post from to src dst q names w (v, w2, t) ->
  loop_post from to src dst q names w (v, w2, pre ++ t).
Proof.
  intros Hq (HI & Hfr & Hm & HW & HD).
  unfold loop_post, world, trace in *. simpl in *.
  split; [exact HI|]. split; [exact Hfr|]. split; [exact Hm|]. split.
  - intros t0 Hin. apply in_app_or in Hin as [Hin|Hin]; [|auto].
    now destruct (proj1 (Hq t0)).
  - intros t0 Hin. apply in_app_or in Hin as [Hin|Hin]; [|auto].
    now destruct (proj2 (Hq t0)).
Qed.

Lemma prefixb_Dir_of x p : prefixb x (Dir_of p) = true -> prefixb x p = true.
Proof.
  destruct p as [|c p] using rev_ind; [auto|].
  rewrite Dir_of_snoc. intros H. apply prefixb_true in H as [r ->].
  apply prefixb_true. exists (r ++ [c]). now rewrite app_assoc.
Qed.

Lemma framed_Dir_of p fs fs' x : framed (Dir_of p) fs fs' x -> framed p fs fs' x.
Proof.
  intros [H|(Hp & Hn & Hd)]; [now left|]. right.
  repeat split; auto. now apply prefixb_Dir_of.
Qed.

Section DownloadWalk.

Variable E : Env.
Variable c : sftpClient.
Variables s d : path.

Let body := downloadDirectory_body E c s d.

Lemma downloadFile_step rp lp w :
  file_step_post Remote Local rp lp w (downloadFile E c rp lp w).
Proof.
  destruct w as [l r a o]. unfold downloadFile. unfold_prims. simpl.
  assert (Hsame : forall v (tr : list event) o',
            o' = o ->
            (forall t', ~ In (Ev (Write Local t') None) tr) ->
            (forall t', ~ In (Ev (MkdirAll Local t') None) tr) ->
            file_step_post Remote Local rp lp (mkWorld l r a o)
              (v, mkWorld l r a o', tr)).
  { intros v tr o' -> H1 H2. split; [auto|]. split; [|split; [|split]]; simpl; auto.
    - intros. apply framed_refl.
    - intros t' Hin. now destruct (H1 t').
    - intros t' Hin. now destruct (H2 t'). }
  destruct (fault E (Open Remote rp)) as [e1|]; simpl.
  { apply Hsame; auto; intros t' H; pick_event H. }
  destruct (stat_fs r rp) as [en|] eqn:Hsrc; simpl.
  2:{ apply Hsame; auto; intros t' H; pick_event H. }
  destruct (fault E (MkdirAll Local (Dir_of lp))) as [e2|]; simpl.
  { apply Hsame; [norm_world; reflexivity| |]; intros t' H; pick_event H. }
  destruct (mkdirAll_fs (Dir_of lp) l) as [l1|] eqn:Hm; simpl.
  2:{ apply Hsame; [norm_world; reflexivity| |]; intros t' H; pick_event H. }
  assert (Hfr1 : forall x, framed lp l l1 x).
  { intros x. apply framed_Dir_of. now apply mkdirAll_frame. }
  assert (Hm1 : forall x, stat_fs l x = Some EDir -> stat_fs l1 x = Some EDir).
  { intros x Hx. eapply mkdirAll_keeps; eauto. }
  assert (Hd1 : stat_fs l1 (Dir_of lp) = Some EDir).
  { now rewrite (stat_mkdirAll _ _ _ _ Hm), prefixb_refl. }
  assert (Hstep : forall v (tr : list event) l' o',
            o' = o ->
            (forall x, path_eqb x lp = false -> stat_fs l' x = stat_fs l1 x) ->
            (stat_fs l1 lp = Some EDir -> stat_fs l' lp = Some EDir) ->
            (forall t', In (Ev (Write Local t') None) tr ->
                        t' = lp /\ exists b, stat_fs r rp = Some (EFile b) /\
                                             stat_fs l' lp = Some (EFile b)) ->
            (forall t', In (Ev (MkdirAll Local t') None) tr -> t' = Dir_of lp) ->
            file_step_post Remote Local rp lp (mkWorld l r a o)
              (v, mkWorld l' r a o', tr)).
  { intros v tr l' o' -> Hfr Hat HW HD.
    assert (Hmono : forall x, stat_fs l1 x = Some EDir -> stat_fs l' x = Some EDir).
    { intros x Hx. destruct (path_eqb x lp) eqn:Heq.
      - apply path_eqb_eq in Heq. subst x. auto.
      - now rewrite Hfr. }
    split; [auto|]. split; [|split; [|split]]; simpl.
    - intros x Hx. unfold framed. rewrite (Hfr x Hx). apply Hfr1.
    - auto.
    - exact HW.
    - intros t' Hin. rewrite (HD t' Hin). auto. }
  destruct (fault E (Create Local lp)) as [e3|]; simpl.
  { norm_world. apply Hstep; auto; intros t' H; pick_event H. now injection H. }
  destruct (create_fs lp l1) as [e|l2] eqn:Hc; simpl.
  { norm_world. apply Hstep; auto; intros t' H; pick_event H. now injection H. }
  assert (Hfr2 : forall x, path_eqb x lp = false -> stat_fs l2 x = stat_fs l1 x).
  { intros x Hx. now rewrite (stat_create _ _ _ x Hc), Hx. }
  assert (Hnd : stat_fs l1 lp = Some EDir -> False).
  { intros H. now destruct (create_parent _ _ _ Hc) as (_ & _ & Hn). }
  assert (Hfr3 : forall data x, path_eqb x lp = false ->
                   stat_fs (write_fs lp data l2) x = stat_fs l1 x).
  { intros data x Hx. now rewrite (stat_create_write _ _ _ _ x Hc), Hx. }
  destruct (fault E (Read Remote rp)) as [e4|]; simpl.
  { norm_world. apply Hstep; auto; try (now intros H; destruct Hnd);
      intros t' H; pick_event H. now injection H. }
  rewrite Hsrc. destruct en as [b|]; simpl.
  2:{ norm_world. apply Hstep; auto; try (now intros H; destruct Hnd);
        intros t' H; pick_event H. now injection H. }
  destruct (fault E (Write Local lp)) as [e5|]; simpl.
  { norm_world. apply Hstep; auto; try (now intros H; destruct Hnd);
      intros t' H; pick_event H. now injection H. }
  assert (Hfinal : forall v rs o',
            o' = o ->
            file_step_post Remote Local rp lp (mkWorld l r a o)
              (v, mkWorld (write_fs lp b l2) r a o',
               [Ev (Open Remote rp) None; Ev (MkdirAll Local (Dir_of lp)) None;
                Ev (Create Local lp) None; Ev (Read Remote rp) None;
                Ev (Write Local lp) None; Ev (Sync lp) rs;
                Ev (CloseFile Local lp) (fault E (CloseFile Local lp));
                Ev (CloseFile Remote rp) (fault E (CloseFile Remote rp))])).
  { intros v rs o' Ho. apply Hstep; auto; try (now intros H; destruct Hnd).
    - intros t' H. pick_event H. injection H as <-. split; [reflexivity|].
      exists b. split; [exact Hsrc|].
      now rewrite (stat_create_write _ _ _ _ lp Hc), path_eqb_refl.
    - intros t' H. pick_event H. now injection H. }
  destruct (fault E (Sync lp)) as [e6|]; simpl; norm_world; now apply Hfinal.
Qed.

Lemma download_body_err p info err w : body p info (Some err) w = (Some err, w, []).
Proof. reflexivity. Qed.

Lemma download_body_dir q w :
  exists v w1 res,
    body (s ++ q) (Some EDir) None w = (v, w1, [Ev (MkdirAll Local (d ++ q)) res]) /\
    (v = None <-> res = None) /\
    dir_step_post Remote Local (d ++ q) w (v, w1, [Ev (MkdirAll Local (d ++ q)) res]).
Proof.
  unfold body, downloadDirectory_body. rewrite Rel_app. unfold Join.
  unfold_prims. simpl.
  assert (Hsame : forall v e,
             dir_step_post Remote Local (d ++ q) w
               (v, w, [Ev (MkdirAll Local (d ++ q)) (Some e)])).
  { intros v e. split; [auto|]. split; [|split; [|split]]; simpl; auto.
    - intros. apply framed_refl.
    - intros t' [H|[]]. discriminate H.
    - intros t' [H|[]]. discriminate H. }
  destruct (fault E (MkdirAll Local (d ++ q))) as [e|]; simpl.
  { eexists _, _, _. split; [reflexivity|]. split; [split; discriminate|].
    apply Hsame. }
  destruct (mkdirAll_fs (d ++ q) (lfs w)) as [fs'|] eqn:Hm; simpl.
  2:{ eexists _, _, _. split; [reflexivity|]. split; [split; discriminate|].
      apply Hsame. }
  eexists _, _, _. split; [reflexivity|]. split; [tauto|].
  split; [now destruct w|]. split; [|split; [|split]]; simpl.
  - intros x. destruct w; simpl in *. now apply mkdirAll_frame.
  - intros x Hx. destruct w; simpl in *. eapply mkdirAll_keeps; eauto.
  - intros t' [H|[]]. discriminate H.
  - intros t' [H|[]]. injection H as <-. destruct w; simpl in *.
    now rewrite (stat_mkdirAll _ _ _ _ Hm), prefixb_refl.
Qed.

Lemma download_body_file q b w :
  file_step_post Remote Local (s ++ q) (d ++ q) w
    (body (s ++ q) (Some (EFile b)) None w).
Proof.
  unfold body, downloadDirectory_body. rewrite Rel_app. unfold Join.
  change (IsDir (EFile b)) with false. cbv iota. unfold bind.
  pose proof (downloadFile_step (s ++ q) (d ++ q) w) as H.
  destruct (downloadFile E c (s ++ q) (d ++ q) w) as [[v w1] t1].
  destruct v; simpl; rewrite ?app_nil_r; exact H.
Qed.

Lemma download_loop q :
  forall es,
  nodupb (map fst es) = true ->
  Forall (fun kc => forall q w,
            walk_post Remote Local s d q w
              (walker_loop E (s ++ q) (snd kc) body w)) es ->
  forall w,
  loop_post Remote Local s d q (map fst es) w
    (for_entries
       (fun name ch => walker_loop E (Join (s ++ q) [name]) ch body) es w).
Proof.
  induction es as [|[n ch] es IHes]; intros Hnd HF w.
  - apply loop_post_quiet, quiet_nil.
  - apply nodupb_cons in Hnd as [Hn Hnd]. simpl in Hn. simpl map.
    rewrite for_entries_cons. cbv beta.
    assert (Hchild := Forall_inv HF (q ++ [n]) w). simpl in Hchild.
    rewrite app_assoc in Hchild. unfold Join at 1.
    destruct (walker_loop E ((s ++ q) ++ [n]) ch body w) as [[v1 w1] t1].
    destruct v1 as [e|].
    + apply (loop_post_child Remote Local s d q n (n :: map fst es) w
               (Some e, w1, t1) []);
        [apply quiet_nil | now left | assumption].
    + specialize (IHes Hnd (Forall_inv_tail HF) w1).
      match type of IHes with
      | loop_post _ _ _ _ _ _ _ (?f ?es ?w) =>
          destruct (f es w) as [[v2 w2] t2]
      end.
      change (n :: map fst es) with ([n] ++ map fst es).
      apply (loop_post_seq Remote Local s d q [n] (map fst es) w
               (None, w1, t1) (v2, w2, t2)).
      * intros n' [<-|[]]. assumption.
      * apply (loop_post_child Remote Local s d q n [n] w (None, w1, t1) []);
          [apply quiet_nil | now left | assumption].
      * assumption.
Qed.

(** The download of the tree at [s ++ q], whatever fails. *)
Lemma download_walk_general :
  forall T, wf_node T = true ->
  forall q w, walk_post Remote Local s d q w (walker_loop E (s ++ q) T body w).
Proof.
  induction T as [b0|es IH] using node_ind_nested; intros Hwf q w;
    rewrite walker_loop_eq; unfold bind at 1.
  - pose proof (download_body_file q b0 w) as H. simpl entry_of.
    destruct (body (s ++ q) (Some (EFile b0)) None w) as [[v w1] t1].
    apply walk_post_of_file_step.
    destruct v; simpl; rewrite ?app_nil_r; exact H.
  - apply wf_node_Dir in Hwf as [Hnd Hwfs].
    assert (HF : Forall (fun kc => forall q w,
                   walk_post Remote Local s d q w
                     (walker_loop E (s ++ q) (snd kc) body w)) es).
    { rewrite Forall_forall in *. intros kc Hin. apply IH; [assumption|].
      rewrite forallb_forall in Hwfs. now apply Hwfs. }
    simpl entry_of.
    destruct (download_body_dir q w) as (v & w1 & res & -> & Hv & Hdir).
    destruct v as [e|].
    + simpl. rewrite ?app_nil_r.
      apply (walk_post_dir Remote Local s d q [] w
               (Some e, w1, [Ev (MkdirAll Local (d ++ q)) res])
               (Some e, w1, []) [] (Some e));
        [apply quiet_nil | assumption | apply loop_post_quiet, quiet_nil].
    + unfold bind at 1. rewrite fs_ReadDir_cases.
      destruct (fault E (ReadDir Remote (s ++ q))) as [e|]; cbv beta iota.
      * rewrite download_body_err.
        apply (walk_post_dir Remote Local s d q [] w
                 (None, w1, [Ev (MkdirAll Local (d ++ q)) res])
                 (Some (err_of Remote "open" (s ++ q) e), w1,
                  [Ev (ReadDir Remote (s ++ q)) (Some e)] ++ []) []
                 (Some (err_of Remote "open" (s ++ q) e)));
          [apply quiet_nil | assumption |].
        apply loop_post_quiet. simpl. apply quiet_ReadDir.
      * pose proof (download_loop q es Hnd HF w1) as Hloop.
        match type of Hloop with
        | loop_post _ _ _ _ _ _ _ (?f ?es ?w) =>
            destruct (f es w) as [[v2 w2] t2]
        end.
        apply (walk_post_dir Remote Local s d q (map fst es) w
                 (None, w1, [Ev (MkdirAll Local (d ++ q)) res])
                 (v2, w2, [Ev (ReadDir Remote (s ++ q)) None] ++ t2) [] v2);
          [apply quiet_nil | assumption |].
        apply loop_post_prefix; [apply quiet_ReadDir | assumption].
Qed.

End DownloadWalk.

(** ** No rollback *)

Section Kept.

Variables from to : side.
Variables src dst : path.

Lemma written_kept_quiet w v w' tr :
  quiet to tr -> written_kept from to src dst w (v, w', tr).
Proof.
  intros Hq. split; intros t Hin.
  - now destruct (proj1 (Hq t)).
  - now destruct (proj2 (Hq t)).
Qed.

Lemma written_kept_around w w0 v v' w2 w2' pre t post :
  quiet to pre -> quiet to post ->
  fs_of from w0 = fs_of from w -> fs_of to w2' = fs_of to w2 ->
  written_kept from to src dst w0 (v, w2, t) ->
  written_kept from to src dst w (v', w2', pre ++ t ++ post).
Proof.
  intros Hpre Hpost Hfrom Hto [HW HD].
  unfold written_kept, world, trace in *. simpl in *. split; intros x Hin.
  - apply in_app_or in Hin as [Hin|Hin]; [now destruct (proj1 (Hpre x))|].
    apply in_app_or in Hin as [Hin|Hin]; [|now destruct (proj1 (Hpost x))].
    destruct (HW x Hin) as (rel & b & -> & Hs & Ht).
    exists rel, b. rewrite <- Hfrom, Hto. auto.
  - apply in_app_or in Hin as [Hin|Hin]; [now destruct (proj2 (Hpre x))|].
    apply in_app_or in Hin as [Hin|Hin]; [|now destruct (proj2 (Hpost x))].
    rewrite Hto. auto.
Qed.

Lemma written_kept_of_walk w r :
  walk_post from to src dst [] w r -> written_kept from to src dst w r.
Proof.
  intros (_ & _ & _ & HW & HD). split; [|exact HD].
  intros t Hin. destruct (HW t Hin) as (rel & b & Ht & Hs & Hd).
  rewrite app_nil_r in Ht. simpl in Hs. eauto.
Qed.

End Kept.

Ltac quiet_list :=
  let t := fresh "t" in
  let H := fresh "H" in
  intros t; split; intros H; simpl in H;
  repeat (destruct H as [H|H]; [discriminate H|]); contradiction.

Section KeptTransfers.

Variable E : Env.

Lemma Upload_keeps_written src dst w T :
  wf_node T = true -> entry_of T = EDir -> lookup (lfs w) src = Some T ->
  written_kept Local Remote src dst w (Upload E src dst w).
Proof.
  intros Hwf Hdir Hlook.
  unfold Upload. unfold bind at 1. unfold os_Stat.
  destruct (fs_Stat_cases E Local src w) as [(en & Hst & ->)|[e ->]].
  2:{ apply written_kept_quiet. quiet_list. }
  simpl in Hst. rewrite (stat_lookup _ _ _ Hlook), Hdir in Hst.
  injection Hst as <-. change (IsDir EDir) with true. cbv iota.
  unfold uploadDirectory. unfold bind at 1.
  destruct (sftp_NewClient_cases E w) as [->|[e ->]].
  2:{ apply written_kept_quiet. quiet_list. }
  set (w0 := acquire HClient w).
  unfold defer, filepath_Walk. unfold bind at 1 2.
  destruct (fs_Lstat_fail_fast E Local src w0) as [[en ->]|[e ->]].
  2:{ apply written_kept_quiet. quiet_list. }
  replace (lookup (lfs w0) src) with (Some T) by (now destruct w).
  pose proof (upload_walk_general E SftpClient src dst (sort_tree T)
                (wf_sort_tree T Hwf) [] w0) as Hpost.
  rewrite app_nil_r in Hpost. apply written_kept_of_walk in Hpost.
  destruct (walk E src (sort_tree T) (uploadDirectory_fn E SftpClient src dst) w0)
    as [[v w2] t2].
  unfold bind, sftp_Close, ret. cbv beta iota.
  apply (written_kept_around Local Remote src dst w w0 v v w2 (drop HClient w2)
           ([Ev (Stat Local src) None] ++ [Ev NewClient None]
              ++ [Ev (Lstat Local src) None])
           t2 ([Ev CloseClient (fault E CloseClient)] ++ [])).
  - quiet_list.
  - quiet_list.
  - now destruct w.
  - now destruct w2.
  - exact Hpost.
Qed.

Lemma Download_keeps_written src dst w T :
  wf_node T = true -> entry_of T = EDir -> lookup (rfs w) src = Some T ->
  written_kept Remote Local src dst w (Download E src dst w).
Proof.
  intros Hwf Hdir Hlook.
  unfold Download, NewSftp. unfold bind at 1.
  destruct (sftp_NewClient_cases E w) as [->|[e ->]].
  2:{ apply written_kept_quiet. quiet_list. }
  set (w0 := acquire HClient w).
  match goal with
  | |- context [defer ?cl ?body w0] =>
      assert (H : written_kept Remote Local src dst w0 (body w0))
  end.
  { unfold bind at 1. unfold sftp_Stat.
    destruct (fs_Stat_cases E Remote src w0) as [(en & Hst & ->)|[e ->]].
    2:{ apply written_kept_quiet. quiet_list. }
    replace (fs_of Remote w0) with (rfs w) in Hst by (now destruct w).
    rewrite (stat_lookup _ _ _ Hlook), Hdir in Hst.
    injection Hst as <-. change (IsDir EDir) with true. cbv iota.
    unfold downloadDirectory, sftp_Walk_loop. unfold bind at 1.
    destruct (fs_Lstat_fail_fast E Remote src w0) as [[en ->]|[e ->]].
    2:{ apply written_kept_quiet. quiet_list. }
    replace (lookup (rfs w0) src) with (Some T) by (now destruct w).
    pose proof (download_walk_general E SftpClient src dst T Hwf [] w0) as Hpost.
    rewrite app_nil_r in Hpost. apply written_kept_of_walk in Hpost.
    destruct (walker_loop E src T (downloadDirectory_body E SftpClient src dst) w0)
      as [[v w2] t2].
    rewrite <- (app_nil_r t2).
    apply (written_kept_around Remote Local src dst w0 w0 v v w2 w2
             ([Ev (Stat Remote src) None] ++ [Ev (Lstat Remote src) None])
             t2 []); auto; quiet_list. }
  unfold defer. unfold bind at 1.
  match type of H with
  | written_kept _ _ _ _ _ ?x => destruct x as [[v w2] t2]
  end.
  unfold bind, sftp_Close, ret. cbv beta iota.
  apply (written_kept_around Remote Local src dst w w0 v v w2 (drop HClient w2)
           [Ev NewClient None] t2 ([Ev CloseClient (fault E CloseClient)] ++ []));
    try quiet_list; try exact H.
  - now destruct w.
  - now destruct w2.
Qed.

(** The messages wrapped around an error add no path to it. *)
Lemma paths_of_cause (err : error) : paths_of E err = paths_of E (cause err).
Proof. induction err; simpl; auto. Qed.

(** C3, as the code has it.  Let [T] be a directory tree that lists no name
    twice.  When [T] is at the local path [src], [Upload src dst] either
    returns no error, and then no call failed but for the remote [MkdirAll]
    and the closes, whose results it does not look at; or one call failed,
    what came before it did not, after it come only the closes of the
    clean-up, and the error returned is the error that call returned, as it
    is or below messages of [client.go].  In either case every file that was
    written completely is at the destination with the bytes of its source,
    and every directory that was made is there: nothing is rolled back.  The
    error names the paths that the error of the failed call names, and no
    other.  The same holds for [Download src dst] when [T] is at the remote
    path [src]. *)
Theorem directory_transfer_fails_fast_and_keeps_written
  (w : World) (src dst : path) (T : node) :
  wf_node T = true -> entry_of T = EDir ->
  (lookup (lfs w) src = Some T ->
   first_error_returned (Upload E src dst w) /\
   written_kept Local Remote src dst w (Upload E src dst w) /\
   forall err, value (Upload E src dst w) = Some err ->
               paths_of E err = paths_of E (cause err)) /\
  (lookup (rfs w) src = Some T ->
   first_error_returned (Download E src dst w) /\
   written_kept Remote Local src dst w (Download E src dst w) /\
   forall err, value (Download E src dst w) = Some err ->
               paths_of E err = paths_of E (cause err)).
Proof.
  intros Hwf Hdir. split; intros Hlook; (split; [|split]).
  - apply Upload_stops.
  - now apply (Upload_keeps_written src dst w T).
  - intros err _. apply paths_of_cause.
  - apply Download_stops.
  - now apply (Download_keeps_written src dst w T).
  - intros err _. apply paths_of_cause.
Qed.

End KeptTransfers.

(** C3, as the spec has it, fails.  The remote directory [r] holds the files
    [a] and [f], and [f] cannot be opened: the server answers with the status
    for no such file, in place of which the SFTP client returns
    [os.ErrNotExist].  [Download] writes [a], stops at the open of [f] and
    returns the error of that call below the message of [downloadFile]; the
    error names no path at all, neither the remote file that failed nor the
    local file it was to become. *)
Lemma Download_error_names_no_path_counterexample :
  let r := Download dangling_link ["r"] ["d"] pair_world in
  In (Ev (Write Local ["d"; "a"]) None) (trace r) /\
  In (Ev (Open Remote ["r"; "f"]) (Some ENOENT)) (trace r) /\
  value r = Some (Wrapped "failed to open remote file"
                    (StatusError ENOENT ["r"; "f"])) /\
  paths_of dangling_link
    (Wrapped "failed to open remote file" (StatusError ENOENT ["r"; "f"])) = [].
Proof. vm_compute. intuition. Qed.

Lemma directory_transfer_fails_fast_and_keeps_written_witness :
  let r := Download dangling_link ["r"] ["d"] pair_world in
  let u := Upload no_faults ["d"] ["r"] clash_world in
  (first_error_returned r /\
   written_kept Remote Local ["r"] ["d"] pair_world r /\
   forall err, value r = Some err ->
               paths_of dangling_link err = paths_of dangling_link (cause err)) /\
  (value r = Some (Wrapped "failed to open remote file"
                     (StatusError ENOENT ["r"; "f"])) /\
   In (Ev (Write Local ["d"; "a"]) None) (trace r) /\
   stat_fs (lfs (world r)) ["d"; "a"] = Some (EFile [x61]%byte)) /\
  (first_error_returned u /\
   written_kept Local Remote ["d"] ["r"] clash_world u /\
   forall err, value u = Some err ->
               paths_of no_faults err = paths_of no_faults (cause err)) /\
  (value u = Some (StatusError EISDIR ["r"; "f"]) /\
   paths_of no_faults (StatusError EISDIR ["r"; "f"]) = [["r"; "f"]]).
Proof.
  split; [|split; [|split]].
  - exact (proj2 (directory_transfer_fails_fast_and_keeps_written dangling_link
                    pair_world ["r"] ["d"]
                    (Dir [("a", File [x61]%byte); ("f", File [x62]%byte)])
                    eq_refl eq_refl) eq_refl).
  - vm_compute. intuition.
  - exact (proj1 (directory_transfer_fails_fast_and_keeps_written no_faults
                    clash_world ["d"] ["r"] clash_tree eq_refl eq_refl) eq_refl).
  - vm_compute. intuition.
Defined.

Lemma Upload_mirrors_directory_tree_witness :
  let r := Upload no_faults ["site"] ["srv"; "www"] site_world in
  value r = None /\
  stat_fs (rfs (world r)) ["srv"; "www"; "empty"] = Some EDir /\
  stat_fs (rfs (world r)) ["srv"; "www"; "css"; "a.css"] =
  Some (EFile [x61; x7b; x7d]%byte).
Proof.
  assert (Hready : upload_ready no_faults site_world ["site"] ["srv"; "www"]
                     site_tree).
  { repeat split; try reflexivity.
    - intros x b Hx Hst. destruct x as [|c1 [|c2 [|c3 x]]]; simpl in Hx.
      + discriminate Hst.
      + rewrite andb_true_r in Hx. apply String.eqb_eq in Hx. subst c1.
        discriminate Hst.
      + rewrite andb_true_r in Hx. apply andb_true_iff in Hx as [H1 H2].
        apply String.eqb_eq in H1, H2. subst c1 c2. discriminate Hst.
      + rewrite !andb_false_r in Hx. discriminate Hx.
    - intros rel e _. destruct e; discriminate. }
  destruct (Upload_mirrors_directory_tree no_faults site_world ["site"]
              ["srv"; "www"] site_tree Hready) as [Hv Hm].
  split; [exact Hv|]. split.
  - exact (Hm ["empty"] EDir eq_refl).
  - exact (Hm ["css"; "a.css"] (EFile [x61; x7b; x7d]%byte) eq_refl).
Defined.


(** ** The policy that verifies the host *)

(** C9.  [New] dials with the policy that [DefaultKnownHosts] yields, the
    check against the known hosts file of the user, and with no other: the
    client it returns has that policy in its configuration, and has a
    connection only when that policy accepted the key the host presented at
    port 22 of the address.  When the known hosts file cannot be had, [New]
    does not dial.  [NewUnknown] dials with the policy that accepts every
    key, set by name, and a connection of its client was accepted by that
    policy.  [NewConn] keeps the configuration it was given and dials with
    the policy in it: a connection is only ever established by the policy
    its configuration names, after that policy accepted the key of the host.
    Dialing a configuration without a policy yields an error and no
    connection. *)
Theorem host_key_policy_is_explicit
  (net : Conn.Network) (user addr : string) (auth : Conn.Auth) :
  (match Conn.known_hosts_file net with
   | Some trusted =>
       Conn.DefaultKnownHosts net = inl (Conn.KnownHostsCallback trusted) /\
       exists c, fst (Conn.New net user addr auth) = Some c /\
                 Conn.Callback (Conn.Config_of c) =
                 Some (Conn.KnownHostsCallback trusted) /\
                 forall conn, Conn.Client_of c = Some conn ->
                   Conn.peer conn = (addr, 22) /\
                   Conn.accepted_by conn = Conn.KnownHostsCallback trusted /\
                   Conn.verify (Conn.KnownHostsCallback trusted) addr
                     (Conn.host_key net (addr, 22)) = None
   | None => Conn.New net user addr auth = (None, Some Conn.ErrKnownHostsFile)
   end) /\
  (exists c, fst (Conn.NewUnknown net user addr auth) = Some c /\
             Conn.Callback (Conn.Config_of c) = Some Conn.InsecureIgnoreHostKey /\
             forall conn, Conn.Client_of c = Some conn ->
               Conn.peer conn = (addr, 22) /\
               Conn.accepted_by conn = Conn.InsecureIgnoreHostKey) /\
  (forall config,
     exists c, fst (Conn.NewConn net config) = Some c /\
               Conn.Config_of c = config /\
               forall conn, Conn.Client_of c = Some conn ->
                 snd (Conn.NewConn net config) = None /\
                 Conn.Dial net "tcp" config = inl conn) /\
  (forall proto config conn,
     Conn.Dial net proto config = inl conn ->
     Conn.Callback config = Some (Conn.accepted_by conn) /\
     Conn.verify (Conn.accepted_by conn) (Conn.Addr config)
       (Conn.host_key net (Conn.JoinHostPort (Conn.Addr config) (Conn.Port config)))
     = None) /\
  (forall config,
     Conn.Callback config = None ->
     exists err, Conn.NewConn net config =
                 (Some (Conn.mkClient None config), Some err) /\
                 (err = Conn.ErrMustSpecifyHostKeyCallback \/
                  err = Conn.ErrNetwork)).
Proof.
  assert (Hdial : forall proto config conn,
            Conn.Dial net proto config = inl conn ->
            Conn.peer conn = (Conn.Addr config, Conn.Port config) /\
            Conn.Callback config = Some (Conn.accepted_by conn) /\
            Conn.verify (Conn.accepted_by conn) (Conn.Addr config)
              (Conn.host_key net
                 (Conn.JoinHostPort (Conn.Addr config) (Conn.Port config)))
            = None).
  { intros proto config conn. unfold Conn.Dial, Conn.ssh_Dial. simpl.
    destruct (Conn.reachable net _); [|discriminate].
    destruct (Conn.Callback config) as [cb|]; [|discriminate].
    destruct (Conn.verify cb _ _) eqn:Hv; [discriminate|].
    destruct (Conn.accepts net _ _); [|discriminate].
    intros [= <-]. simpl. split; [reflexivity|]. split; [reflexivity | exact Hv]. }
  split; [|split; [|split; [|split]]].
  - unfold Conn.New, Conn.DefaultKnownHosts.
    destruct (Conn.known_hosts_file net) as [trusted|]; [|reflexivity].
    split; [reflexivity|]. unfold Conn.NewConn.
    destruct (Conn.Dial net "tcp" _) as [conn|err] eqn:Hd;
      eexists; (split; [reflexivity|]); (split; [reflexivity|]);
      simpl; intros conn' [= <-].
    destruct (Hdial _ _ _ Hd) as (Hp & Hcb & Hv). simpl in Hp, Hcb, Hv.
    injection Hcb as Hcb. rewrite <- Hcb in Hv. auto.
  - unfold Conn.NewUnknown, Conn.NewConn.
    destruct (Conn.Dial net "tcp" _) as [conn|err] eqn:Hd;
      eexists; (split; [reflexivity|]); (split; [reflexivity|]);
      simpl; intros conn' [= <-].
    destruct (Hdial _ _ _ Hd) as (Hp & Hcb & _). simpl in Hp, Hcb.
    injection Hcb as Hcb. auto.
  - intros config. unfold Conn.NewConn.
    destruct (Conn.Dial net "tcp" config) as [conn|err];
      eexists; (split; [reflexivity|]); (split; [reflexivity|]);
      simpl; intros conn' [= <-]. auto.
  - intros proto config conn Hd. now destruct (Hdial _ _ _ Hd) as (_ & Hcb & Hv).
  - intros config Hnone. unfold Conn.NewConn, Conn.Dial, Conn.ssh_Dial. simpl.
    rewrite Hnone. destruct (Conn.reachable net _); eexists; split; eauto.
Qed.

Lemma host_key_policy_is_explicit_witness :
  (exists c, fst (Conn.New example_net "root" "example.org" []) = Some c /\
             Conn.Callback (Conn.Config_of c) =
             Some (Conn.KnownHostsCallback [("example.org", [x6b; x31]%byte)]) /\
             exists conn, Conn.Client_of c = Some conn) /\
  (exists c, fst (Conn.New mismatch_net "root" "example.org" []) = Some c /\
             Conn.Callback (Conn.Config_of c) =
             Some (Conn.KnownHostsCallback [("example.org", [x6b; x31]%byte)]) /\
             Conn.Client_of c = None) /\
  snd (Conn.New mismatch_net "root" "example.org" []) = Some Conn.ErrKeyMismatch /\
  (exists err,
     Conn.NewConn example_net
       (Conn.mkConfig [] "root" "example.org" 22 20 None None) =
     (Some (Conn.mkClient None
              (Conn.mkConfig [] "root" "example.org" 22 20 None None)),
      Some err) /\
     (err = Conn.ErrMustSpecifyHostKeyCallback \/ err = Conn.ErrNetwork)).
Proof.
  destruct (host_key_policy_is_explicit example_net "root" "example.org" [])
    as (Hnew & _ & _ & _ & Hnil).
  destruct (host_key_policy_is_explicit mismatch_net "root" "example.org" [])
    as (Hbad & _).
  simpl in Hnew, Hbad.
  split; [|split; [|split]].
  - destruct Hnew as (_ & c & Hc & Hcb & _). exists c.
    split; [exact Hc|]. split; [exact Hcb|].
    injection Hc as <-. eexists. reflexivity.
  - destruct Hbad as (_ & c & Hc & Hcb & Hconn). exists c.
    split; [exact Hc|]. split; [exact Hcb|].
    destruct (Conn.Client_of c) as [conn|]; [|reflexivity].
    destruct (Hconn conn eq_refl) as (_ & _ & Hv). discriminate Hv.
  - reflexivity.
  - apply Hnil. reflexivity.
Defined.

(** * Further properties of client.go *)

(** ** [Download] and [DownloadV1] on single paths *)

Lemma set_child_assoc k v es : assoc k es = Some v -> set_child k v es = es.
Proof.
  induction es as [|[k' v'] es IH]; simpl; [discriminate|].
  destruct (String.eqb_spec k k') as [->|Hk].
  - now intros [= ->].
  - intros H. now rewrite IH.
Qed.

(** [MkdirAll] of a directory that is there changes nothing. *)
Lemma mkdirAll_existing p : forall n, stat_fs n p = Some EDir -> mkdirAll_fs p n = Some n.
Proof.
  induction p as [|c p IH]; intros n H.
  - destruct n; [discriminate | reflexivity].
  - destruct n as [b|es]; [discriminate|]. rewrite stat_cons_dir in H. simpl.
    destruct (assoc c es) as [ch|] eqn:Hch; [|discriminate].
    rewrite (IH ch H). now rewrite (set_child_assoc _ _ _ Hch).
Qed.

(** Below a path that is not there, nothing is. *)
Lemma stat_below_missing n p : p <> [] -> stat_fs n (Dir_of p) = None -> stat_fs n p = None.
Proof.
  intros Hne. destruct (exists_last Hne) as (q & c & ->).
  rewrite Dir_of_snoc. unfold stat_fs. rewrite lookup_app.
  now destruct (lookup n q).
Qed.

Section SinglePaths.

Variable E : Env.

(** X1.  When the sub-channel is open and the [Stat] of the remote path fails,
    [Download] returns the error of [Stat] wrapped as the failure to stat the
    remote path, closes the sub-channel and has done nothing else: no local
    call is made, and the world, the local file system with it, is as
    before. *)
Theorem Download_stat_failure_is_atomic (rp lp : path) (w : World) (err : error) :
  fault E NewClient = None -> alive w = true ->
  value (sftp_Stat E SftpClient rp w) = Err err ->
  exists en,
    err = StatusError en rp /\
    Download E rp lp w =
    (Some (Wrapped "failed to stat remote path" err), w,
     [Ev NewClient None; Ev (Stat Remote rp) (Some en);
      Ev CloseClient (fault E CloseClient)]).
Proof.
  intros Hnc Ha.
  unfold Download, NewSftp, sftp_NewClient, sftp_Stat, fs_Stat, sftp_Close,
    defer, call, bind, ret, lift, value.
  rewrite Hnc, Ha. simpl.
  destruct (fault E (Stat Remote rp)) as [en|]; simpl.
  - intros [= <-]. exists en. now rewrite drop_acquire.
  - destruct (stat_fs (rfs w) rp) as [en|]; simpl; [discriminate|].
    intros [= <-]. eexists. rewrite drop_acquire. split; reflexivity.
Qed.

(** X2.  Let the remote path not exist, and let the local file be one that
    can be created.  Whatever else fails, [Download] returns an error and
    leaves the world as it was, whereas [DownloadV1], which creates the local
    file before it looks at the remote one, returns an error and leaves an
    empty file at the local path, whatever that file held; it changes no other
    path and leaves no handle open. *)
Theorem DownloadV1_truncates_before_it_opens (rp lp : path) (w : World) :
  stat_fs (rfs w) rp = None ->
  fault E (Create Local lp) = None ->
  lp <> [] -> stat_fs (lfs w) (Dir_of lp) = Some EDir ->
  stat_fs (lfs w) lp <> Some EDir ->
  let r := Download E rp lp w in
  let r1 := DownloadV1 E rp lp w in
  (value r <> None /\ world r = w) /\
  value r1 <> None /\
  (forall q, stat_fs (lfs (world r1)) q =
             if path_eqb q lp then Some (EFile []) else stat_fs (lfs w) q) /\
  rfs (world r1) = rfs w /\ opened (world r1) = opened w.
Proof.
  intros Hrp Hf Hne Hpar Hnd.
  destruct (create_succeeds lp (lfs w) Hne Hpar Hnd) as [l1 Hc].
  assert (Hst := fun q => stat_create lp (lfs w) l1 q Hc).
  destruct w as [l r a o]. simpl in *. split.
  - unfold Download. unfold_prims. simpl.
    destruct (fault E NewClient); simpl; [split; [discriminate | reflexivity]|].
    destruct a; simpl; [|split; [discriminate | reflexivity]].
    destruct (fault E (Stat Remote rp)); simpl.
    + norm_world. split; [discriminate | reflexivity].
    + rewrite Hrp. simpl. norm_world. split; [discriminate | reflexivity].
  - unfold DownloadV1. unfold_prims. simpl. rewrite Hf, Hc. simpl.
    destruct (fault E NewClient); simpl; [norm_world; done_case; try exact Hst|].
    destruct a; simpl; [|norm_world; done_case; try exact Hst].
    destruct (fault E (Open Remote rp)); simpl; [norm_world; done_case; try exact Hst|].
    rewrite Hrp. simpl. norm_world. done_case; try exact Hst.
Qed.

(** X3.  Let nothing fail for a reason outside the model, and let the remote
    path be a regular file.  When the parent of the local path is a directory
    that is there, [Download] and [DownloadV1] both return no error and leave
    the same world, in which the local file holds the bytes of the remote
    one. *)
Theorem Download_DownloadV1_agree_on_files (rp lp : path) (w : World) (b : list byte) :
  (forall pr, fault E pr = None) -> alive w = true ->
  stat_fs (rfs w) rp = Some (EFile b) ->
  lp <> [] -> stat_fs (lfs w) (Dir_of lp) = Some EDir ->
  stat_fs (lfs w) lp <> Some EDir ->
  let r := Download E rp lp w in
  let r1 := DownloadV1 E rp lp w in
  value r = None /\ value r1 = None /\ world r = world r1 /\
  stat_fs (lfs (world r)) lp = Some (EFile b).
Proof.
  intros Hnf Ha Hrp Hne Hpar Hnd.
  destruct (create_succeeds lp (lfs w) Hne Hpar Hnd) as [l1 Hc].
  pose proof (mkdirAll_existing _ _ Hpar) as Hm.
  destruct w as [l r a o]. simpl in *. subst a.
  unfold Download, DownloadV1, downloadFile. unfold_prims. simpl.
  repeat (progress (simpl; rewrite ?Hnf, ?Hrp, ?Hm, ?Hc)).
  norm_world. done_case.
  now rewrite (stat_create_write _ _ _ _ lp Hc), path_eqb_refl.
Qed.

(** X4.  Let nothing fail for a reason outside the model, let the remote path
    be a regular file, and let the parent of the local path not exist.
    [DownloadV1] makes no directory: the create of the local file fails, that
    error is returned as it is and nothing else is done.  [Download] makes
    the missing directories first and returns no error; afterwards the parent
    is a directory and the local file holds the bytes of the remote one. *)
Theorem Download_makes_parents_DownloadV1_does_not
  (rp lp : path) (w : World) (b : list byte) :
  (forall pr, fault E pr = None) -> alive w = true ->
  stat_fs (rfs w) rp = Some (EFile b) ->
  lp <> [] -> stat_fs (lfs w) (Dir_of lp) = None ->
  (forall q d, prefixb q (Dir_of lp) = true -> stat_fs (lfs w) q <> Some (EFile d)) ->
  DownloadV1 E rp lp w =
  (Some (PathError "open" lp ENOENT), w, [Ev (Create Local lp) (Some ENOENT)]) /\
  let r := Download E rp lp w in
  value r = None /\
  stat_fs (lfs (world r)) (Dir_of lp) = Some EDir /\
  stat_fs (lfs (world r)) lp = Some (EFile b).
Proof.
  intros Hnf Ha Hrp Hne Hpar Hanc. split.
  - unfold DownloadV1. unfold_prims. rewrite Hnf. simpl.
    unfold create_fs. destruct lp as [|c p]; [congruence|].
    now rewrite Hpar, (unreachable_missing _ _ Hanc).
  - assert (Hnd : stat_fs (lfs w) lp <> Some EDir)
      by (rewrite (stat_below_missing _ _ Hne Hpar); discriminate).
    pose proof (Download_file_succeeds E rp lp w b Hnf Ha Hrp Hne Hanc Hnd) as Hv.
    destruct (Download_file_spec E rp lp w b Hrp) as (_ & _ & _ & Hspec).
    cbv zeta. split; [exact Hv|]. destruct (Hspec Hv) as [_ Hst]. split.
    + rewrite Hst, (Dir_of_neq lp Hne). now rewrite prefixb_refl.
    + now rewrite Hst, path_eqb_refl.
Qed.

End SinglePaths.

Lemma Download_stat_failure_is_atomic_witness :
  exists en,
    StatusError ENOENT ["missing"] = StatusError en ["missing"] /\
    Download no_faults ["missing"] ["keep.txt"] keep_world =
    (Some (Wrapped "failed to stat remote path" (StatusError ENOENT ["missing"])),
     keep_world,
     [Ev NewClient None; Ev (Stat Remote ["missing"]) (Some en);
      Ev CloseClient (fault no_faults CloseClient)]).
Proof.
  apply (Download_stat_failure_is_atomic no_faults ["missing"] ["keep.txt"]
           keep_world); reflexivity.
Defined.

Lemma DownloadV1_truncates_before_it_opens_witness :
  stat_fs (lfs keep_world) ["keep.txt"] = Some (EFile [x01; x02; x03]%byte) /\
  world (Download no_faults ["missing"] ["keep.txt"] keep_world) = keep_world /\
  stat_fs (lfs (world (DownloadV1 no_faults ["missing"] ["keep.txt"] keep_world)))
    ["keep.txt"] = Some (EFile []).
Proof.
  destruct (DownloadV1_truncates_before_it_opens no_faults ["missing"] ["keep.txt"]
              keep_world eq_refl eq_refl) as ((_ & Hw) & _ & Hst & _).
  - discriminate.
  - reflexivity.
  - discriminate.
  - split; [reflexivity|]. split; [exact Hw|]. exact (Hst ["keep.txt"]).
Defined.

Lemma Download_DownloadV1_agree_on_files_witness :
  let r := Download no_faults ["etc"; "motd"] ["motd"] remote_file_world in
  let r1 := DownloadV1 no_faults ["etc"; "motd"] ["motd"] remote_file_world in
  value r = None /\ value r1 = None /\ world r = world r1 /\
  stat_fs (lfs (world r)) ["motd"] = Some (EFile [x68; x69]%byte).
Proof.
  apply (Download_DownloadV1_agree_on_files no_faults ["etc"; "motd"] ["motd"]
           remote_file_world [x68; x69]%byte);
    try reflexivity; discriminate.
Defined.

Lemma Download_makes_parents_DownloadV1_does_not_witness :
  DownloadV1 no_faults ["etc"; "motd"] ["tmp"; "motd"] remote_file_world =
  (Some (PathError "open" ["tmp"; "motd"] ENOENT), remote_file_world,
   [Ev (Create Local ["tmp"; "motd"]) (Some ENOENT)]) /\
  let r := Download no_faults ["etc"; "motd"] ["tmp"; "motd"] remote_file_world in
  value r = None /\
  stat_fs (lfs (world r)) (Dir_of ["tmp"; "motd"]) = Some EDir /\
  stat_fs (lfs (world r)) ["tmp"; "motd"] = Some (EFile [x68; x69]%byte).
Proof.
  apply (Download_makes_parents_DownloadV1_does_not no_faults ["etc"; "motd"]
           ["tmp"; "motd"] remote_file_world [x68; x69]%byte);
    try reflexivity; try discriminate.
  intros q d Hq Hst. destruct q as [|c1 [|c2 q]]; simpl in Hq.
  - discriminate Hst.
  - rewrite andb_true_r in Hq. apply String.eqb_eq in Hq. subst c1.
    discriminate Hst.
  - rewrite andb_false_r in Hq. discriminate Hq.
Defined.

(** ** [Upload] and [UploadV1] at the edges *)

Section UploadEdges.

Variable E : Env.

(** X5.  [UploadV1] does not look at what the local path is.  Let nothing
    fail for a reason outside the model and let the local path be a
    directory: the open of the directory succeeds, the remote file is
    created, and only the copy fails, with the error of reading a directory.
    [UploadV1] returns that error and leaves an empty file at the remote
    path; it changes no other path and leaves no handle open. *)
Theorem UploadV1_of_directory_leaves_empty_file (src dst : path) (w : World) :
  (forall pr, fault E pr = None) -> alive w = true ->
  stat_fs (lfs w) src = Some EDir ->
  dst <> [] -> stat_fs (rfs w) (Dir_of dst) = Some EDir ->
  stat_fs (rfs w) dst <> Some EDir ->
  let r := UploadV1 E src dst w in
  value r = Some (PathError "read" src EISDIR) /\
  (forall q, stat_fs (rfs (world r)) q =
             if path_eqb q dst then Some (EFile []) else stat_fs (rfs w) q) /\
  lfs (world r) = lfs w /\ opened (world r) = opened w.
Proof.
  intros Hnf Ha Hsrc Hne Hpar Hnd.
  destruct (create_succeeds dst (rfs w) Hne Hpar Hnd) as [r1 Hc].
  assert (Hst := fun q => stat_create dst (rfs w) r1 q Hc).
  destruct w as [l r a o]. simpl in *. subst a.
  unfold UploadV1. unfold_prims. simpl.
  repeat (progress (simpl; rewrite ?Hnf, ?Hsrc, ?Hc)).
  norm_world. done_case; try exact Hst.
Qed.

(** X6.  [Upload] of a regular file makes no remote directory.  Let nothing
    fail for a reason outside the model, let the local path be a regular file
    and let the parent of the remote path not be there: the create of the
    remote file fails, [Upload] returns that error wrapped as the failure to
    create the remote file, closes what it opened, and the world is as
    before.  The create fails for the reason for which the parent cannot be
    reached: because it is missing, when no component of it is a regular
    file, and because a component of it is a regular file otherwise. *)
Theorem Upload_of_file_makes_no_remote_directory
  (src dst : path) (w : World) (b : list byte) :
  (forall pr, fault E pr = None) -> alive w = true ->
  stat_fs (lfs w) src = Some (EFile b) ->
  dst <> [] -> stat_fs (rfs w) (Dir_of dst) = None ->
  let en := unreachable (rfs w) (Dir_of dst) in
  Upload E src dst w =
  (Some (Wrapped "failed to create remote file" (StatusError en dst)), w,
   [Ev (Stat Local src) None; Ev NewClient None; Ev (Open Local src) None;
    Ev (Create Remote dst) (Some en); Ev (CloseFile Local src) None;
    Ev CloseClient None]) /\
  ((forall x d, prefixb x (Dir_of dst) = true ->
                stat_fs (rfs w) x <> Some (EFile d)) -> en = ENOENT) /\
  (forall x d, prefixb x (Dir_of dst) = true ->
               stat_fs (rfs w) x = Some (EFile d) -> en = ENOTDIR).
Proof.
  intros Hnf Ha Hsrc Hne Hpar en. split; [|split].
  - assert (Hc : create_fs dst (rfs w) = inl en).
    { unfold create_fs. destruct dst; [congruence|]. now rewrite Hpar. }
    destruct w as [l r a o]. simpl in *. subst a.
    unfold Upload, uploadFile. unfold_prims. simpl.
    repeat (progress (simpl; rewrite ?Hnf, ?Hsrc, ?Hc)).
    norm_world. reflexivity.
  - intros Hno. now apply unreachable_missing.
  - intros x d Hx Hst.
    apply (unreachable_below_file (rfs w) x (Dir_of dst) d Hx); [|exact Hst].
    intros ->. congruence.
Qed.

(** X7.  [UploadV1] and [DownloadV1] stop at the first call that fails and
    return the error of that call as it is, with no message wrapped around
    it: up to that call nothing failed, and after it come only the closes of
    the clean-up.  When they return no error, no call failed but for
    closes. *)
Theorem V1_transfers_fail_fast_and_unwrapped (a b : path) (w : World) :
  (fail_fast (UploadV1 E a b w) /\
   forall err, value (UploadV1 E a b w) = Some err -> cause err = err) /\
  (fail_fast (DownloadV1 E a b w) /\
   forall err, value (DownloadV1 E a b w) = Some err -> cause err = err).
Proof.
  destruct w as [l r al o]. split; split.
  - unfold UploadV1. unfold_prims. simpl.
    destruct (fault E (Open Local a)); simpl; [find_failure|].
    destruct (stat_fs l a) as [en|] eqn:Hsrc; simpl; [|find_failure].
    destruct (fault E NewClient); simpl; [find_failure|].
    destruct al; simpl; [|find_failure].
    destruct (fault E (Create Remote b)); simpl; [find_failure|].
    destruct (create_fs b r) as [e|r1]; simpl; [find_failure|].
    destruct (fault E (Read Local a)); simpl; [find_failure|].
    rewrite Hsrc. destruct en as [d|]; simpl; [|find_failure].
    destruct (fault E (Write Remote b)); simpl; find_failure.
  - unfold UploadV1. unfold_prims. simpl.
    destruct (fault E (Open Local a)); simpl; [now intros err [= <-]|].
    destruct (stat_fs l a) as [en|] eqn:Hsrc; simpl; [|now intros err [= <-]].
    destruct (fault E NewClient); simpl; [now intros err [= <-]|].
    destruct al; simpl; [|now intros err [= <-]].
    destruct (fault E (Create Remote b)); simpl; [now intros err [= <-]|].
    destruct (create_fs b r) as [e|r1]; simpl; [now intros err [= <-]|].
    destruct (fault E (Read Local a)); simpl; [now intros err [= <-]|].
    rewrite Hsrc. destruct en as [d|]; simpl; [|now intros err [= <-]].
    destruct (fault E (Write Remote b)); simpl; [now intros err [= <-]|].
    discriminate.
  - unfold DownloadV1. unfold_prims. simpl.
    destruct (fault E (Create Local b)); simpl; [find_failure|].
    destruct (create_fs b l) as [e|l1]; simpl; [find_failure|].
    destruct (fault E NewClient); simpl; [find_failure|].
    destruct al; simpl; [|find_failure].
    destruct (fault E (Open Remote a)); simpl; [find_failure|].
    destruct (stat_fs r a) as [en|] eqn:Hsrc; simpl; [|find_failure].
    destruct (fault E (Read Remote a)); simpl; [find_failure|].
    rewrite Hsrc. destruct en as [d|]; simpl; [|find_failure].
    destruct (fault E (Write Local b)); simpl; [find_failure|].
    destruct (fault E (Sync b)); simpl; find_failure.
  - unfold DownloadV1. unfold_prims. simpl.
    destruct (fault E (Create Local b)); simpl; [now intros err [= <-]|].
    destruct (create_fs b l) as [e|l1]; simpl; [now intros err [= <-]|].
    destruct (fault E NewClient); simpl; [now intros err [= <-]|].
    destruct al; simpl; [|now intros err [= <-]].
    destruct (fault E (Open Remote a)); simpl; [now intros err [= <-]|].
    destruct (stat_fs r a) as [en|] eqn:Hsrc; simpl; [|now intros err [= <-]].
    destruct (fault E (Read Remote a)); simpl; [now intros err [= <-]|].
    rewrite Hsrc. destruct en as [d|]; simpl; [|now intros err [= <-]].
    destruct (fault E (Write Local b)); simpl; [now intros err [= <-]|].
    destruct (fault E (Sync b)); simpl; [now intros err [= <-]|].
    discriminate.
Qed.

End UploadEdges.

Lemma UploadV1_of_directory_leaves_empty_file_witness :
  let r := UploadV1 no_faults ["d"] ["up"] local_dir_world in
  value r = Some (PathError "read" ["d"] EISDIR) /\
  stat_fs (rfs (world r)) ["up"] = Some (EFile []).
Proof.
  destruct (UploadV1_of_directory_leaves_empty_file no_faults ["d"] ["up"]
              local_dir_world) as (Hv & Hst & _);
    try reflexivity; try discriminate.
  split; [exact Hv | exact (Hst ["up"])].
Defined.

Lemma Upload_of_file_makes_no_remote_directory_witness :
  (Upload no_faults ["a.txt"] ["new"; "a.txt"] one_file_world =
   (Some (Wrapped "failed to create remote file"
            (StatusError ENOENT ["new"; "a.txt"])),
    one_file_world,
    [Ev (Stat Local ["a.txt"]) None; Ev NewClient None;
     Ev (Open Local ["a.txt"]) None;
     Ev (Create Remote ["new"; "a.txt"]) (Some ENOENT);
     Ev (CloseFile Local ["a.txt"]) None; Ev CloseClient None])) /\
  (Upload no_faults ["a.txt"] ["srv"; "www"; "a.txt"] file_in_way_world =
   (Some (Wrapped "failed to create remote file"
            (StatusError ENOTDIR ["srv"; "www"; "a.txt"])),
    file_in_way_world,
    [Ev (Stat Local ["a.txt"]) None; Ev NewClient None;
     Ev (Open Local ["a.txt"]) None;
     Ev (Create Remote ["srv"; "www"; "a.txt"]) (Some ENOTDIR);
     Ev (CloseFile Local ["a.txt"]) None; Ev CloseClient None])).
Proof.
  split.
  - apply (Upload_of_file_makes_no_remote_directory no_faults ["a.txt"]
             ["new"; "a.txt"] one_file_world [x01; x02; x03]%byte);
      try reflexivity; discriminate.
  - apply (Upload_of_file_makes_no_remote_directory no_faults ["a.txt"]
             ["srv"; "www"; "a.txt"] file_in_way_world [x01; x02; x03]%byte);
      try reflexivity; discriminate.
Defined.

(** ** After [Close], and commands *)

Section Closed.

Variable E : Env.

(** X8.  After [Close], whatever it returned, no sub-channel can be opened:
    [NewSftp] and [Run] return an error, and [Upload], [UploadV1] and
    [Download] return an error and leave the world as [Close] left it; none
    of them creates or writes a file. *)
Theorem after_Close_nothing_is_transferred (a b : path) (cmd : string) (w : World) :
  let w1 := world (Close E w) in
  (exists e, value (NewSftp E w1) = Err e) /\
  (exists e, Run E cmd w1 =
             (([], Some (ConnError e)), w1, [Ev NewSession (Some e)])) /\
  (value (Upload E a b w1) <> None /\ world (Upload E a b w1) = w1) /\
  (value (UploadV1 E a b w1) <> None /\ world (UploadV1 E a b w1) = w1) /\
  (value (Download E a b w1) <> None /\ world (Download E a b w1) = w1).
Proof.
  intros w1.
  assert (Hdead : alive w1 = false).
  { unfold w1, Close, ssh_Close, world. now destruct (alive w) eqn:Ha. }
  clearbody w1. destruct w1 as [l r al o]. simpl in Hdead. subst al.
  split; [|split; [|split; [|split]]].
  - unfold NewSftp. unfold_prims. simpl.
    destruct (fault E NewClient); simpl; eauto.
  - unfold Run, ssh_NewSession. unfold_prims. simpl.
    destruct (fault E NewSession); simpl; eauto.
  - unfold Upload, uploadDirectory, uploadFile. unfold_prims. simpl.
    destruct (fault E (Stat Local a)); simpl; [done_case|].
    destruct (stat_fs l a) as [en|]; simpl; [|done_case].
    destruct (IsDir en); destruct (fault E NewClient); simpl; done_case.
  - unfold UploadV1. unfold_prims. simpl.
    destruct (fault E (Open Local a)); simpl; [done_case|].
    destruct (stat_fs l a) as [en|]; simpl; [|done_case].
    destruct (fault E NewClient); simpl; norm_world; done_case.
  - unfold Download. unfold_prims. simpl.
    destruct (fault E NewClient); simpl; done_case.
Qed.

(** X9.  [Command] and [CommandContext] ask for one command sub-channel and
    never close it.  When that fails they return the error and no [Cmd], and
    the world is as before.  Otherwise the sub-channel is open when they
    return, and the [Cmd] carries it with the name and the arguments given;
    its context is the background context for [Command] and the context
    given for [CommandContext], and that is all the two differ in. *)
Theorem Command_leaves_sub_channel_open
  (ctx : context) (name : string) (args : list string) (w : World) :
  let r := Command E name args w in
  let rc := CommandContext E ctx name args w in
  world rc = world r /\ trace rc = trace r /\
  calls CloseSession (trace r) = 0 /\
  match value r with
  | Ok cmd =>
      cmd = mkCmd name args (Cmd_Session cmd) Background /\
      value rc = Ok (mkCmd name args (Cmd_Session cmd) ctx) /\
      trace r = [Ev NewSession None] /\
      opened (world r) = HSession :: opened w
  | Err err =>
      value rc = Err err /\ world r = w /\
      exists e, err = ConnError e /\ trace r = [Ev NewSession (Some e)]
  end.
Proof.
  unfold CommandContext, Command, ssh_NewSession. unfold_prims.
  destruct (fault E NewSession) as [e|]; simpl.
  - repeat split; eauto.
  - destruct (alive w); simpl; repeat split; eauto.
Qed.

End Closed.

(** ** [NewUnknown] *)

(** X10.  [NewUnknown] looks neither at the key the host presents nor at the
    known hosts file: on two networks that reach the same hosts and accept the
    same users it returns the same, whatever the keys of the hosts and the
    known hosts files are.  It dials port 22 of the address, and the client it
    returns has a connection exactly when it returns no error. *)
Theorem NewUnknown_ignores_host_key
  (net net' : Conn.Network) (user addr : string) (auth : Conn.Auth) :
  (forall a, Conn.reachable net a = Conn.reachable net' a) ->
  (forall u au, Conn.accepts net u au = Conn.accepts net' u au) ->
  Conn.NewUnknown net user addr auth = Conn.NewUnknown net' user addr auth /\
  exists c, fst (Conn.NewUnknown net user addr auth) = Some c /\
    match Conn.Client_of c, snd (Conn.NewUnknown net user addr auth) with
    | Some conn, None =>
        Conn.peer conn = (addr, 22) /\
        Conn.accepted_by conn = Conn.InsecureIgnoreHostKey
    | None, Some err => err = Conn.ErrNetwork \/ err = Conn.ErrAuth
    | _, _ => False
    end.
Proof.
  intros Hr Ha.
  unfold Conn.NewUnknown, Conn.NewConn, Conn.Dial, Conn.ssh_Dial,
    Conn.JoinHostPort. simpl.
  rewrite <- Hr, <- Ha.
  destruct (Conn.reachable net (addr, 22)); simpl.
  - destruct (Conn.accepts net user auth); simpl;
      (split; [reflexivity|]); eexists; (split; [reflexivity|]); simpl; auto.
  - split; [reflexivity|]. eexists. split; [reflexivity|]. simpl. auto.
Qed.

Lemma NewUnknown_ignores_host_key_witness :
  Conn.NewUnknown example_net "root" "example.org" [] =
  Conn.NewUnknown stranger_net "root" "example.org" [] /\
  snd (Conn.NewUnknown stranger_net "root" "example.org" []) = None.
Proof.
  split; [|reflexivity].
  apply (NewUnknown_ignores_host_key example_net stranger_net "root"
           "example.org" []); reflexivity.
Defined.

(** ** What every step of a walk keeps *)

(** A relation between the world before, the world after and the calls made
    that holds for no call at all, for the calls by which a walk looks at a
    node, and for one run after another, holds for a walk when it holds for
    the function the walk calls. *)
Section WalkRelation.

Variable E : Env.
Variable R : World -> World -> list event -> Prop.
Hypothesis R_nil : forall w, R w w [].
Hypothesis R_Lstat : forall w s p res, R w w [Ev (Lstat s p) res].
Hypothesis R_ReadDir : forall w s p res, R w w [Ev (ReadDir s p) res].
Hypothesis R_app :
  forall w w1 w2 t1 t2, R w w1 t1 -> R w1 w2 t2 -> R w w2 (t1 ++ t2).

Lemma for_entries_rel body es :
  (forall n c, In (n, c) es ->
     forall w v w' tr, body n c w = (v, w', tr) -> R w w' tr) ->
  forall w v w' tr, for_entries body es w = (v, w', tr) -> R w w' tr.
Proof.
  induction es as [|[n c] es IH]; intros Hbody w v w' tr Heq.
  - injection Heq as <- <- <-. apply R_nil.
  - rewrite for_entries_cons in Heq.
    assert (H1 := Hbody n c (or_introl eq_refl) w).
    destruct (body n c w) as [[e w1] t1]. specialize (H1 _ _ _ eq_refl).
    destruct e as [e|]; [now injection Heq as <- <- <-|].
    assert (H2 := IH (fun n c Hin => Hbody n c (or_intror Hin)) w1).
    destruct (for_entries body es w1) as [[v2 w2] t2].
    specialize (H2 _ _ _ eq_refl). injection Heq as <- <- <-.
    exact (R_app _ _ _ _ _ H1 H2).
Qed.

Lemma walk_rel (fn : WalkFunc) :
  (forall p info err w v w' tr, fn p info err w = (v, w', tr) -> R w w' tr) ->
  forall T p w v w' tr, walk E p T fn w = (v, w', tr) -> R w w' tr.
Proof.
  intros Hfn.
  induction T as [b|es IH] using node_ind_nested; intros p w v w' tr Heq.
  - exact (Hfn _ _ _ _ _ _ _ Heq).
  - rewrite walk_Dir in Heq. unfold bind at 1 in Heq.
    rewrite fs_ReadDir_cases in Heq.
    destruct (fault E (ReadDir Local p)) as [e|]; cbv beta iota in Heq.
    + unfold bind at 1 in Heq.
      assert (H1 := Hfn p (Some EDir) (Some (err_of Local "open" p e)) w).
      destruct (fn p (Some EDir) (Some (err_of Local "open" p e)) w)
        as [[err1 w1] t1].
      specialize (H1 _ _ _ eq_refl). unfold ret in Heq.
      injection Heq as <- <- <-. rewrite ?app_nil_r.
      exact (R_app w w w1 [Ev (ReadDir Local p) (Some e)] t1 (R_ReadDir _ _ _ _) H1).
    + unfold bind at 1 in Heq. assert (H1 := Hfn p (Some EDir) None w).
      destruct (fn p (Some EDir) None w) as [[err1 w1] t1].
      specialize (H1 _ _ _ eq_refl).
      destruct err1 as [e|].
      * unfold ret in Heq. injection Heq as <- <- <-. rewrite ?app_nil_r.
        exact (R_app w w w1 [Ev (ReadDir Local p) None] t1 (R_ReadDir _ _ _ _) H1).
      * match type of Heq with
        | context [for_entries ?b es w1] =>
            assert (Hloop : forall v w' tr,
                      for_entries b es w1 = (v, w', tr) -> R w1 w' tr);
            [|destruct (for_entries b es w1) as [[v2 w2] t2]]
        end.
        { apply for_entries_rel. intros n c Hin w0 v0 w0' tr0 Hb.
          unfold bind at 1 in Hb.
          rewrite Forall_forall in IH. specialize (IH (n, c) Hin). simpl in IH.
          destruct (fs_Lstat_fail_fast E Local (Join p [n]) w0)
            as [[en Hl]|[e Hl]]; rewrite Hl in Hb.
          - specialize (IH (Join p [n]) w0).
            destruct (walk E (Join p [n]) c fn w0) as [[v3 w3] t3].
            specialize (IH _ _ _ eq_refl). injection Hb as <- <- <-.
            exact (R_app w0 w0 _ [Ev (Lstat Local (Join p [n])) None] _
                     (R_Lstat _ _ _ _) IH).
          - assert (H2 := Hfn (Join p [n]) None
                            (Some (prim_error (Lstat Local (Join p [n])) e)) w0).
            destruct (fn (Join p [n]) None
                        (Some (prim_error (Lstat Local (Join p [n])) e)) w0)
              as [[v3 w3] t3].
            specialize (H2 _ _ _ eq_refl). injection Hb as <- <- <-.
            exact (R_app w0 w0 _ [Ev (Lstat Local (Join p [n])) (Some e)] _
                     (R_Lstat _ _ _ _) H2). }
        specialize (Hloop _ _ _ eq_refl). injection Heq as <- <- <-.
        apply (R_app w w w2 [Ev (ReadDir Local p) None] (t1 ++ t2)
                 (R_ReadDir _ _ _ _)).
        exact (R_app _ _ _ _ _ H1 Hloop).
Qed.

Lemma walker_loop_rel (body : WalkFunc) :
  (forall p info err w v w' tr, body p info err w = (v, w', tr) -> R w w' tr) ->
  forall T p w v w' tr, walker_loop E p T body w = (v, w', tr) -> R w w' tr.
Proof.
  intros Hbody.
  induction T as [b|es IH] using node_ind_nested; intros p w v w' tr Heq;
    rewrite walker_loop_eq in Heq; unfold bind at 1 in Heq.
  - assert (H1 := Hbody p (Some (entry_of (File b))) None w).
    destruct (body p (Some (entry_of (File b))) None w) as [[r w1] t1].
    specialize (H1 _ _ _ eq_refl).
    destruct r as [e|]; unfold ret in Heq; injection Heq as <- <- <-;
      rewrite ?app_nil_r; exact H1.
  - assert (H1 := Hbody p (Some (entry_of (Dir es))) None w).
    destruct (body p (Some (entry_of (Dir es))) None w) as [[r w1] t1].
    specialize (H1 _ _ _ eq_refl).
    destruct r as [e|];
      [unfold ret in Heq; injection Heq as <- <- <-; rewrite ?app_nil_r; exact H1|].
    unfold bind at 1 in Heq. rewrite fs_ReadDir_cases in Heq.
    destruct (fault E (ReadDir Remote p)) as [e|]; cbv beta iota in Heq.
    + assert (H2 := Hbody p (Some EDir) (Some (err_of Remote "open" p e)) w1).
      destruct (body p (Some EDir) (Some (err_of Remote "open" p e)) w1)
        as [[v2 w2] t2].
      specialize (H2 _ _ _ eq_refl). injection Heq as <- <- <-.
      apply (R_app w w1 w2 t1 _ H1).
      exact (R_app w1 w1 w2 [Ev (ReadDir Remote p) (Some e)] t2
               (R_ReadDir _ _ _ _) H2).
    + match type of Heq with
      | context [for_entries ?b es w1] =>
          assert (Hloop : forall v w' tr,
                    for_entries b es w1 = (v, w', tr) -> R w1 w' tr);
          [|destruct (for_entries b es w1) as [[v2 w2] t2]]
      end.
      { apply for_entries_rel. intros n c Hin w0.
        rewrite Forall_forall in IH. exact (IH (n, c) Hin (Join p [n]) w0). }
      specialize (Hloop _ _ _ eq_refl). injection Heq as <- <- <-.
      apply (R_app w w1 w2 t1 _ H1).
      exact (R_app w1 w1 w2 [Ev (ReadDir Remote p) None] t2
               (R_ReadDir _ _ _ _) Hloop).
Qed.

Lemma filepath_Walk_rel (fn : WalkFunc) root :
  (forall p info err w v w' tr, fn p info err w = (v, w', tr) -> R w w' tr) ->
  forall w v w' tr, filepath_Walk E root fn w = (v, w', tr) -> R w w' tr.
Proof.
  intros Hfn w v w' tr Heq. unfold filepath_Walk in Heq. unfold bind at 1 in Heq.
  destruct (fs_Lstat_fail_fast E Local root w) as [[en Hl]|[e Hl]];
    rewrite Hl in Heq.
  - destruct (lookup (lfs w) root) as [n|].
    + assert (H := walk_rel fn Hfn (sort_tree n) root w).
      destruct (walk E root (sort_tree n) fn w) as [[v2 w2] t2].
      specialize (H _ _ _ eq_refl). injection Heq as <- <- <-.
      exact (R_app w w _ [Ev (Lstat Local root) None] _ (R_Lstat _ _ _ _) H).
    + unfold ret in Heq. injection Heq as <- <- <-. apply R_Lstat.
  - assert (H := Hfn root None (Some (prim_error (Lstat Local root) e)) w).
    destruct (fn root None (Some (prim_error (Lstat Local root) e)) w)
      as [[v2 w2] t2].
    specialize (H _ _ _ eq_refl). injection Heq as <- <- <-.
    exact (R_app w w _ [Ev (Lstat Local root) (Some e)] _ (R_Lstat _ _ _ _) H).
Qed.

Lemma sftp_Walk_loop_rel c (body : WalkFunc) root :
  (forall p info err w v w' tr, body p info err w = (v, w', tr) -> R w w' tr) ->
  forall w v w' tr, sftp_Walk_loop E c root body w = (v, w', tr) -> R w w' tr.
Proof.
  intros Hbody w v w' tr Heq. unfold sftp_Walk_loop in Heq.
  unfold bind at 1 in Heq.
  destruct (fs_Lstat_fail_fast E Remote root w) as [[en Hl]|[e Hl]];
    rewrite Hl in Heq.
  - destruct (lookup (rfs w) root) as [n|].
    + assert (H := walker_loop_rel body Hbody n root w).
      destruct (walker_loop E root n body w) as [[v2 w2] t2].
      specialize (H _ _ _ eq_refl). injection Heq as <- <- <-.
      exact (R_app w w _ [Ev (Lstat Remote root) None] _ (R_Lstat _ _ _ _) H).
    + unfold ret in Heq. injection Heq as <- <- <-. apply R_Lstat.
  - assert (H := Hbody root None (Some (prim_error (Lstat Remote root) e)) w).
    destruct (body root None (Some (prim_error (Lstat Remote root) e)) w)
      as [[v2 w2] t2].
    specialize (H _ _ _ eq_refl). injection Heq as <- <- <-.
    exact (R_app w w _ [Ev (Lstat Remote root) (Some e)] _ (R_Lstat _ _ _ _) H).
Qed.

End WalkRelation.

(** ** The side a transfer reads from, and its sub-channel *)

Lemma source_kept_nil from w : source_kept from w w [].
Proof. repeat split. Qed.

Lemma source_kept_one from w pr res :
  channel_call (Ev pr res) = false -> source_kept from w w [Ev pr res].
Proof. intros H. repeat split. simpl. now rewrite H. Qed.

Lemma source_kept_app from w w1 w2 t1 t2 :
  source_kept from w w1 t1 -> source_kept from w1 w2 t2 ->
  source_kept from w w2 (t1 ++ t2).
Proof.
  intros ((H1 & H2 & H3) & H4) ((K1 & K2 & K3) & K4).
  split; [repeat split; congruence|]. now rewrite forallb_app, H4, K4.
Qed.

Lemma filter_none (f : event -> bool) tr :
  forallb (fun e => negb (f e)) tr = true -> filter f tr = [].
Proof.
  induction tr as [|e tr IH]; simpl; [reflexivity|].
  intros H. apply andb_true_iff in H as [He Htr].
  apply negb_true_iff in He. rewrite He. auto.
Qed.

Ltac kept_case :=
  unfold source_kept; norm_world; done_case.

Section SourceKept.

Variable E : Env.
Variable c : sftpClient.

Lemma uploadFile_kept s d w :
  (lfs (world (uploadFile E s d w)) = lfs w /\
   opened (world (uploadFile E s d w)) = opened w /\
   alive (world (uploadFile E s d w)) = alive w) /\
  one_sub_channel (trace (uploadFile E s d w)).
Proof.
  unfold one_sub_channel.
  destruct w as [l r a o]. unfold uploadFile. unfold_prims. simpl.
  destruct (fault E NewClient); simpl; [kept_case; eauto|].
  destruct a; simpl; [|kept_case; eauto].
  destruct (fault E (Open Local s)); simpl; [kept_case; eauto|].
  destruct (stat_fs l s) as [en|] eqn:Hsrc; simpl; [|kept_case; eauto].
  destruct (fault E (Create Remote d)); simpl; [kept_case; eauto|].
  destruct (create_fs d r) as [e|r1]; simpl; [kept_case; eauto|].
  destruct (fault E (Read Local s)); simpl; [kept_case; eauto|].
  rewrite Hsrc. destruct en as [b|]; simpl; [|kept_case; eauto].
  destruct (fault E (Write Remote d)); simpl; kept_case; eauto.
Qed.

Lemma upload_fn_kept s d p info err w v w' tr :
  uploadDirectory_fn E c s d p info err w = (v, w', tr) ->
  source_kept Local w w' tr.
Proof.
  intros Heq.
  assert (K : source_kept Local w
                (world (uploadDirectory_fn E c s d p info err w))
                (trace (uploadDirectory_fn E c s d p info err w))).
  { clear Heq. destruct w as [l r a o]. unfold uploadDirectory_fn.
    destruct err as [err|]; [kept_case|].
    destruct (Rel s p) as [rel|err]; [|kept_case].
    unfold Join. set (t := d ++ rel).
    assert (Hfile : source_kept Local (mkWorld l r a o)
              (world
                 ((r0 <- os_Open E p ;;
                   match r0 with
                   | Err err => ret (Some err)
                   | Ok srcFile =>
                       defer (file_Close E srcFile)
                         (r1 <- sftp_Create E c t ;;
                          match r1 with
                          | Err err => ret (Some err)
                          | Ok dstFile =>
                              defer (file_Close E dstFile)
                                (err <- io_Copy E dstFile srcFile ;;
                                 match err with
                                 | Some err => ret (Some err)
                                 | None => ret None
                                 end)
                          end)
                   end) (mkWorld l r a o)))
              (trace
                 ((r0 <- os_Open E p ;;
                   match r0 with
                   | Err err => ret (Some err)
                   | Ok srcFile =>
                       defer (file_Close E srcFile)
                         (r1 <- sftp_Create E c t ;;
                          match r1 with
                          | Err err => ret (Some err)
                          | Ok dstFile =>
                              defer (file_Close E dstFile)
                                (err <- io_Copy E dstFile srcFile ;;
                                 match err with
                                 | Some err => ret (Some err)
                                 | None => ret None
                                 end)
                          end)
                   end) (mkWorld l r a o)))).
    { unfold_prims. simpl.
      destruct (fault E (Open Local p)); simpl; [kept_case|].
      destruct (stat_fs l p) as [en|] eqn:Hsrc; simpl; [|kept_case].
      destruct (fault E (Create Remote t)); simpl; [kept_case|].
      destruct (create_fs t r) as [e|r1]; simpl; [kept_case|].
      destruct (fault E (Read Local p)); simpl; [kept_case|].
      rewrite Hsrc. destruct en as [b|]; simpl; [|kept_case].
      destruct (fault E (Write Remote t)); simpl; kept_case. }
    destruct info as [[b|]|]; simpl; try exact Hfile.
    unfold_prims. simpl.
    destruct (fault E (MkdirAll Remote t)); simpl; [kept_case|].
    destruct (mkdirAll_fs t r); simpl; kept_case. }
  now rewrite Heq in K.
Qed.

Lemma downloadFile_kept rp lp w v w' tr :
  downloadFile E c rp lp w = (v, w', tr) -> source_kept Remote w w' tr.
Proof.
  intros Heq.
  assert (K : source_kept Remote w (world (downloadFile E c rp lp w))
                (trace (downloadFile E c rp lp w))).
  { clear Heq. destruct w as [l r a o]. unfold downloadFile. unfold_prims. simpl.
    destruct (fault E (Open Remote rp)); simpl; [kept_case|].
    destruct (stat_fs r rp) as [en|] eqn:Hsrc; simpl; [|kept_case].
    destruct (fault E (MkdirAll Local (Dir_of lp))); simpl; [kept_case|].
    destruct (mkdirAll_fs (Dir_of lp) l) as [l1|]; simpl; [|kept_case].
    destruct (fault E (Create Local lp)); simpl; [kept_case|].
    destruct (create_fs lp l1) as [e|l2]; simpl; [kept_case|].
    destruct (fault E (Read Remote rp)); simpl; [kept_case|].
    rewrite Hsrc. destruct en as [b|]; simpl; [|kept_case].
    destruct (fault E (Write Local lp)); simpl; [kept_case|].
    destruct (fault E (Sync lp)); simpl; kept_case. }
  now rewrite Heq in K.
Qed.

Lemma download_body_kept s d p info err w v w' tr :
  downloadDirectory_body E c s d p info err w = (v, w', tr) ->
  source_kept Remote w w' tr.
Proof.
  unfold downloadDirectory_body.
  destruct err as [err|]; [intros [= <- <- <-]; apply source_kept_nil|].
  destruct (Rel s p) as [rel|err]; [|intros [= <- <- <-]; apply source_kept_nil].
  unfold Join.
  assert (Hfile : forall v w' tr,
            (err <- downloadFile E c p (d ++ rel) ;;
             match err with
             | Some err => ret (Some err)
             | None => ret None
             end) w = (v, w', tr) -> source_kept Remote w w' tr).
  { intros v0 w0 tr0 Heq. unfold bind in Heq.
    pose proof (downloadFile_kept p (d ++ rel) w) as K.
    destruct (downloadFile E c p (d ++ rel) w) as [[v1 w1] t1].
    specialize (K _ _ _ eq_refl).
    destruct v1; unfold ret in Heq; injection Heq as <- <- <-;
      now rewrite ?app_nil_r. }
  destruct info as [[b|]|]; simpl; try exact (Hfile v w' tr).
  destruct w as [l r a o]. unfold_prims. simpl.
  destruct (fault E (MkdirAll Local (d ++ rel))); simpl;
    [intros [= <- <- <-]; kept_case|].
  destruct (mkdirAll_fs (d ++ rel) l); simpl; intros [= <- <- <-]; kept_case.
Qed.

Lemma uploadDirectory_walk_kept s d w v w' tr :
  filepath_Walk E s (uploadDirectory_fn E c s d) w = (v, w', tr) ->
  source_kept Local w w' tr.
Proof.
  apply (filepath_Walk_rel E (source_kept Local)).
  - apply source_kept_nil.
  - intros. now apply source_kept_one.
  - intros. now apply source_kept_one.
  - apply source_kept_app.
  - intros p info err w0 v0 w0' tr0. apply upload_fn_kept.
Qed.

Lemma downloadDirectory_kept s d w v w' tr :
  downloadDirectory E c s d w = (v, w', tr) -> source_kept Remote w w' tr.
Proof.
  apply (sftp_Walk_loop_rel E (source_kept Remote)).
  - apply source_kept_nil.
  - intros. now apply source_kept_one.
  - intros. now apply source_kept_one.
  - apply source_kept_app.
  - intros p info err w0 v0 w0' tr0. apply download_body_kept.
Qed.

End SourceKept.

Section OneSubChannel.

Variable E : Env.

(** A sub-channel that was opened and is closed by a deferred close around a
    body that keeps the side [from]: the handles are as before the opening,
    and the opening and the close are the only calls on sub-channels. *)
Lemma defer_client_kept from (body : M (option error)) w :
  (forall v w' tr, body (acquire HClient w) = (v, w', tr) ->
                   source_kept from (acquire HClient w) w' tr) ->
  forall v w' tr,
    defer (sftp_Close E SftpClient) body (acquire HClient w) = (v, w', tr) ->
    (fs_of from w' = fs_of from w /\ opened w' = opened w /\
     alive w' = alive w) /\
    filter channel_call (Ev NewClient None :: tr) =
    [Ev NewClient None; Ev CloseClient (fault E CloseClient)].
Proof.
  intros K v w' tr Heq. unfold defer in Heq. unfold bind at 1 in Heq.
  destruct (body (acquire HClient w)) as [[v2 w2] t2].
  destruct (K _ _ _ eq_refl) as ((K1 & K2 & K3) & K4).
  unfold bind, sftp_Close, ret in Heq. injection Heq as <- <- <-.
  destruct w as [l r a o], w2 as [l2 r2 a2 o2]. simpl in K2, K3. subst.
  split.
  - destruct from; simpl in *; subst; auto.
  - simpl. rewrite filter_app, (filter_none _ _ K4). reflexivity.
Qed.

(** The body of [Download] below the deferred close of its sub-channel. *)
Lemma Download_inner_kept src dst w v w' tr :
  (r <- sftp_Stat E SftpClient src ;;
   match r with
   | Err err => ret (Some (Wrapped "failed to stat remote path" err))
   | Ok info =>
       if IsDir info then downloadDirectory E SftpClient src dst
       else downloadFile E SftpClient src dst
   end) w = (v, w', tr) ->
  source_kept Remote w w' tr.
Proof.
  intros Hb. unfold bind at 1 in Hb. unfold sftp_Stat in Hb.
  destruct (fs_Stat_cases E Remote src w) as [(en & _ & Hs)|[e Hs]];
    rewrite Hs in Hb.
  2:{ unfold ret in Hb. injection Hb as <- <- <-. now apply source_kept_one. }
  destruct (IsDir en).
  - pose proof (downloadDirectory_kept E SftpClient src dst w) as K.
    destruct (downloadDirectory E SftpClient src dst w) as [[v3 w3] t3].
    injection Hb as <- <- <-.
    apply (source_kept_app Remote w w w3 [Ev (Stat Remote src) None]);
      [now apply source_kept_one | exact (K _ _ _ eq_refl)].
  - pose proof (downloadFile_kept E SftpClient src dst w) as K.
    destruct (downloadFile E SftpClient src dst w) as [[v3 w3] t3].
    injection Hb as <- <- <-.
    apply (source_kept_app Remote w w w3 [Ev (Stat Remote src) None]);
      [now apply source_kept_one | exact (K _ _ _ eq_refl)].
Qed.

(** X11.  Whatever fails, [Upload] changes nothing on the local side: when it
    returns, the local file system is as before, every handle it opened,
    files and sub-channel, is closed, and the connection is as it was;
    only the remote file system can have changed. *)
Theorem Upload_changes_only_the_remote_side (src dst : path) (w : World) :
  let r := Upload E src dst w in
  lfs (world r) = lfs w /\ opened (world r) = opened w /\
  alive (world r) = alive w.
Proof.
  cbv zeta. destruct (Upload E src dst w) as [[v w'] tr] eqn:Heq.
  unfold world. simpl.
  unfold Upload in Heq. unfold bind at 1 in Heq. unfold os_Stat in Heq.
  destruct (fs_Stat_cases E Local src w) as [(en & _ & Hs)|[e Hs]];
    rewrite Hs in Heq.
  2:{ unfold ret in Heq. injection Heq as <- <- <-. auto. }
  destruct (IsDir en).
  - unfold uploadDirectory in Heq. unfold bind at 1 in Heq.
    destruct (sftp_NewClient_cases E w) as [Hc|[e Hc]]; rewrite Hc in Heq.
    2:{ unfold ret in Heq. injection Heq as <- <- <-. auto. }
    match type of Heq with
    | context [defer ?cl ?body ?w0] =>
        destruct (defer cl body w0) as [[v2 w2] t2] eqn:Hd
    end.
    injection Heq as <- <- <-.
    exact (proj1 (defer_client_kept Local _ w
                    (uploadDirectory_walk_kept E SftpClient src dst _)
                    _ _ _ Hd)).
  - destruct (uploadFile_kept E src dst w) as [K _].
    destruct (uploadFile E src dst w) as [[v2 w2] t2].
    injection Heq as <- <- <-. exact K.
Qed.

(** X12.  Whatever fails, [Download] changes nothing on the remote side: when
    it returns, the remote file system is as before, every handle it opened
    is closed, and the connection is as it was; only the local file system
    can have changed. *)
Theorem Download_changes_only_the_local_side (src dst : path) (w : World) :
  let r := Download E src dst w in
  rfs (world r) = rfs w /\ opened (world r) = opened w /\
  alive (world r) = alive w.
Proof.
  cbv zeta. destruct (Download E src dst w) as [[v w'] tr] eqn:Heq.
  unfold world. simpl.
  unfold Download, NewSftp in Heq. unfold bind at 1 in Heq.
  destruct (sftp_NewClient_cases E w) as [Hc|[e Hc]]; rewrite Hc in Heq.
  2:{ unfold ret in Heq. injection Heq as <- <- <-. auto. }
  match type of Heq with
  | context [defer ?cl ?body ?w0] =>
      destruct (defer cl body w0) as [[v2 w2] t2] eqn:Hd
  end.
  injection Heq as <- <- <-.
  exact (proj1 (defer_client_kept Remote _ w
                  (Download_inner_kept src dst _) _ _ _ Hd)).
Qed.

(** X13.  A transfer uses one sub-channel, however many files and
    directories it copies.  Among the calls of [Upload], and of [Download],
    those that open or close a file transfer sub-channel are: none, when the
    transfer gave up before; or the one opening that failed; or one opening
    and, as the last of them, one close. *)
Theorem transfer_opens_one_sub_channel (src dst : path) (w : World) :
  one_sub_channel (trace (Upload E src dst w)) /\
  one_sub_channel (trace (Download E src dst w)).
Proof.
  split.
  - destruct (Upload E src dst w) as [[v w'] tr] eqn:Heq.
    unfold one_sub_channel, trace. simpl.
    unfold Upload in Heq. unfold bind at 1 in Heq. unfold os_Stat in Heq.
    destruct (fs_Stat_cases E Local src w) as [(en & _ & Hs)|[e Hs]];
      rewrite Hs in Heq.
    2:{ unfold ret in Heq. injection Heq as <- <- <-. simpl. auto. }
    destruct (IsDir en).
    + unfold uploadDirectory in Heq. unfold bind at 1 in Heq.
      destruct (sftp_NewClient_cases E w) as [Hc|[e Hc]]; rewrite Hc in Heq.
      2:{ unfold ret in Heq. injection Heq as <- <- <-. simpl.
          right. left. eauto. }
      match type of Heq with
      | context [defer ?cl ?body ?w0] =>
          destruct (defer cl body w0) as [[v2 w2] t2] eqn:Hd
      end.
      injection Heq as <- <- <-. right. right.
      exists (fault E CloseClient).
      exact (proj2 (defer_client_kept Local _ w
                      (uploadDirectory_walk_kept E SftpClient src dst _)
                      _ _ _ Hd)).
    + destruct (uploadFile_kept E src dst w) as [_ K].
      destruct (uploadFile E src dst w) as [[v2 w2] t2].
      injection Heq as <- <- <-. exact K.
  - destruct (Download E src dst w) as [[v w'] tr] eqn:Heq.
    unfold one_sub_channel, trace. simpl.
    unfold Download, NewSftp in Heq. unfold bind at 1 in Heq.
    destruct (sftp_NewClient_cases E w) as [Hc|[e Hc]]; rewrite Hc in Heq.
    2:{ unfold ret in Heq. injection Heq as <- <- <-. simpl.
        right. left. eauto. }
    match type of Heq with
    | context [defer ?cl ?body ?w0] =>
        destruct (defer cl body w0) as [[v2 w2] t2] eqn:Hd
    end.
    injection Heq as <- <- <-. right. right.
    exists (fault E CloseClient).
    exact (proj2 (defer_client_kept Remote _ w
                    (Download_inner_kept src dst _) _ _ _ Hd)).
Qed.

End OneSubChannel.

(** ** The download of a directory *)

(** No component of a path that is a directory is a regular file. *)
Lemma dir_has_no_file_prefix fs p :
  stat_fs fs p = Some EDir ->
  forall q b, prefixb q p = true -> stat_fs fs q <> Some (EFile b).
Proof.
  intros H. exact (mkdirAll_no_file p fs fs (mkdirAll_existing p fs H)).
Qed.

Section DownloadMirror.

Variable E : Env.
Variable c : sftpClient.
Variables s d : path.

Let body := downloadDirectory_body E c s d.

Lemma download_body_file_nil q b0 w w' tr :
  body (s ++ q) (Some (EFile b0)) None w = (None, w', tr) ->
  exists b, stat_fs (rfs w) (s ++ q) = Some (EFile b) /\
            stat_fs (lfs w') (d ++ q) = Some (EFile b).
Proof.
  unfold body, downloadDirectory_body. rewrite Rel_app. unfold Join.
  change (IsDir (EFile b0)) with false. cbv iota. unfold bind.
  pose proof (downloadFile_spec E c (s ++ q) (d ++ q) w) as H.
  destruct (downloadFile E c (s ++ q) (d ++ q) w) as [[v w1] t1].
  unfold value, world in H. simpl in H.
  destruct v; unfold ret; intros Heq; [discriminate|].
  injection Heq as <- <-.
  destruct H as (_ & _ & _ & H). destruct (H eq_refl) as (b & Hr & _ & Hl).
  exists b. split; [exact Hr|]. now rewrite Hl, path_eqb_refl.
Qed.

Lemma download_body_dir_nil q w w' tr :
  body (s ++ q) (Some EDir) None w = (None, w', tr) ->
  rfs w' = rfs w /\ stat_fs (lfs w') (d ++ q) = Some EDir /\
  tr = [Ev (MkdirAll Local (d ++ q)) None].
Proof.
  intros Heq.
  destruct (download_body_dir E c s d q w) as (v & w1 & res & Hb & Hv & Hpost).
  fold body in Hb. rewrite Hb in Heq. injection Heq as -> -> <-.
  assert (res = None) as -> by now apply Hv.
  destruct Hpost as ((Hr & _ & _) & _ & _ & _ & HD).
  unfold world, trace in *. simpl in *. split; [exact Hr|].
  split; [|reflexivity]. apply HD. now left.
Qed.

Lemma download_loop_nil q :
  forall es,
  nodupb (map fst es) = true ->
  forallb (fun kc => wf_node (snd kc)) es = true ->
  Forall (fun kc =>
            wf_node (snd kc) = true ->
            forall q w w' tr,
              src_agrees (snd kc) (rfs w) (s ++ q) ->
              walker_loop E (s ++ q) (snd kc) body w = (None, w', tr) ->
              forall rel e, stat_fs (snd kc) rel = Some e ->
                            stat_fs (lfs w') ((d ++ q) ++ rel) = Some e) es ->
  forall w w' tr,
  (forall n ch, In (n, ch) es -> src_agrees ch (rfs w) (s ++ q ++ [n])) ->
  for_entries (fun name ch => walker_loop E (Join (s ++ q) [name]) ch body) es w =
  (None, w', tr) ->
  forall n ch, In (n, ch) es ->
    forall rel e, stat_fs ch rel = Some e ->
                  stat_fs (lfs w') (((d ++ q) ++ [n]) ++ rel) = Some e.
Proof.
  induction es as [|[n ch] es IHes]; intros Hnd Hwfs HF w w' tr Hsrc Heq.
  - intros n ch [].
  - apply nodupb_cons in Hnd as [Hn Hnd]. simpl in Hn.
    simpl in Hwfs. apply andb_true_iff in Hwfs as [Hwf Hwfs].
    rewrite for_entries_cons in Heq. unfold Join at 1 in Heq.
    pose proof (download_walk_general E c s d ch Hwf (q ++ [n]) w) as Hpost.
    rewrite (app_assoc s q [n]) in Hpost. fold body in Hpost.
    destruct (walker_loop E ((s ++ q) ++ [n]) ch body w) as [[v1 w1] t1] eqn:Hchild.
    destruct v1 as [e1|]; [discriminate|].
    destruct Hpost as ((Hr1 & _ & _) & _). unfold world in Hr1. simpl in Hr1.
    assert (HF' : Forall (fun kc => forall q w,
                    walk_post Remote Local s d q w
                      (walker_loop E (s ++ q) (snd kc) body w)) es).
    { apply Forall_forall. intros kc Hin q' w0.
      apply download_walk_general. rewrite forallb_forall in Hwfs. now apply Hwfs. }
    pose proof (download_loop E c s d q es Hnd HF' w1) as Hloop. fold body in Hloop.
    match type of Hloop with
    | loop_post _ _ _ _ _ _ _ (?f ?es ?w) =>
        destruct (f es w) as [[v2 w2] t2] eqn:Hrest
    end.
    injection Heq as -> <- <-.
    destruct Hloop as (_ & Hfr2 & _). unfold world in Hfr2. simpl in Hfr2.
    intros n0 ch0 [Hin|Hin] rel e He.
    + injection Hin as <- <-.
      assert (Hm : stat_fs (lfs w1) (((d ++ q) ++ [n]) ++ rel) = Some e).
      { rewrite <- (app_assoc d q [n]).
        apply (Forall_inv HF Hwf (q ++ [n]) w w1 t1); auto.
        - apply (Hsrc n ch). now left.
        - simpl. rewrite (app_assoc s q [n]). exact Hchild. }
      destruct (Hfr2 (((d ++ q) ++ [n]) ++ rel)) as [Hsame|(_ & Hnone & _)].
      * intros n' Hn'. rewrite <- (app_assoc (d ++ q) [n] rel). simpl.
        apply sibling_not_prefix. intros ->. contradiction.
      * now rewrite Hsame.
      * rewrite Hm in Hnone. discriminate.
    + assert (Hsrc1 : forall n' ch', In (n', ch') es ->
                        src_agrees ch' (rfs w1) (s ++ q ++ [n'])).
      { intros n' ch' Hin'. simpl in Hr1. rewrite Hr1.
        apply (Hsrc n' ch'). now right. }
      exact (IHes Hnd Hwfs (Forall_inv_tail HF) w1 w2 t2 Hsrc1 Hrest
               n0 ch0 Hin rel e He).
Qed.

(** Whatever fails: when the walk of the remote tree [T] at [s ++ q] returns
    no error, the local file system reports below [d ++ q] what [T] holds. *)
Lemma download_walk_nil :
  forall T, wf_node T = true ->
  forall q w w' tr,
    src_agrees T (rfs w) (s ++ q) ->
    walker_loop E (s ++ q) T body w = (None, w', tr) ->
    forall rel e, stat_fs T rel = Some e ->
                  stat_fs (lfs w') ((d ++ q) ++ rel) = Some e.
Proof.
  induction T as [b0|es IH] using node_ind_nested;
    intros Hwf q w w' tr Hsrc Heq rel e He;
    rewrite walker_loop_eq in Heq; unfold bind at 1 in Heq; simpl entry_of in Heq.
  - destruct (body (s ++ q) (Some (EFile b0)) None w) as [[v w1] t1] eqn:Hb.
    destruct v; [discriminate|]. unfold ret in Heq. injection Heq as <- <-.
    apply download_body_file_nil in Hb as (b & Hr & Hl).
    apply stat_File_inv in He as [-> ->]. rewrite app_nil_r.
    specialize (Hsrc [] (EFile b0) eq_refl). rewrite app_nil_r in Hsrc.
    rewrite Hsrc in Hr. injection Hr as <-. exact Hl.
  - apply wf_node_Dir in Hwf as [Hnd Hwfs].
    destruct (body (s ++ q) (Some EDir) None w) as [[v w1] t1] eqn:Hb.
    destruct v; [discriminate|].
    apply download_body_dir_nil in Hb as (Hr1 & Hd1 & ->).
    unfold bind at 1 in Heq. rewrite fs_ReadDir_cases in Heq.
    destruct (fault E (ReadDir Remote (s ++ q))) as [e0|]; cbv beta iota in Heq.
    { unfold body in Heq. rewrite download_body_err in Heq. discriminate. }
    assert (HF' : Forall (fun kc => forall q w,
                    walk_post Remote Local s d q w
                      (walker_loop E (s ++ q) (snd kc) body w)) es).
    { apply Forall_forall. intros kc Hin q' w0.
      apply download_walk_general. rewrite forallb_forall in Hwfs. now apply Hwfs. }
    pose proof (download_loop E c s d q es Hnd HF' w1) as Hloop. fold body in Hloop.
    match type of Hloop with
    | loop_post _ _ _ _ _ _ _ (?f ?es ?w) =>
        destruct (f es w) as [[v2 w2] t2] eqn:Hrest
    end.
    injection Heq as -> <- <-.
    destruct Hloop as (_ & _ & Hm2 & _). unfold world in Hm2. simpl in Hm2.
    destruct rel as [|n rel].
    + rewrite stat_nil in He. injection He as <-. rewrite app_nil_r. auto.
    + rewrite stat_cons_dir in He.
      destruct (assoc n es) as [ch|] eqn:Ha; [|discriminate].
      apply assoc_In in Ha.
      replace ((d ++ q) ++ n :: rel) with (((d ++ q) ++ [n]) ++ rel)
        by (now rewrite <- !app_assoc).
      apply (download_loop_nil q es Hnd Hwfs IH w1 w2 t2) with (ch := ch); auto.
      intros n' ch' Hin rel' e' He'. rewrite Hr1.
      replace ((s ++ q ++ [n']) ++ rel') with ((s ++ q) ++ n' :: rel')
        by (now rewrite <- !app_assoc).
      apply Hsrc. rewrite stat_cons_dir. now rewrite (In_assoc _ _ _ Hnd Hin).
Qed.

Hypothesis Hnf : forall pr, fault E pr = None.

Lemma download_body_file_ok q b b0 w :
  stat_fs (rfs w) (s ++ q) = Some (EFile b) ->
  d ++ q <> [] -> stat_fs (lfs w) (Dir_of (d ++ q)) = Some EDir ->
  stat_fs (lfs w) (d ++ q) <> Some EDir ->
  exists w' tr, body (s ++ q) (Some (EFile b0)) None w = (None, w', tr).
Proof.
  intros Hsrc Hne Hpar Hnd.
  pose proof (downloadFile_succeeds E c (s ++ q) (d ++ q) w b Hnf Hsrc Hne
                (dir_has_no_file_prefix _ _ Hpar) Hnd) as Hv.
  unfold body, downloadDirectory_body. rewrite Rel_app. unfold Join.
  change (IsDir (EFile b0)) with false. cbv iota. unfold bind.
  destruct (downloadFile E c (s ++ q) (d ++ q) w) as [[v w1] t1].
  unfold value in Hv. simpl in Hv. subst v. unfold ret. eauto.
Qed.

Lemma download_body_dir_ok q w :
  (forall x b, prefixb x (d ++ q) = true -> stat_fs (lfs w) x <> Some (EFile b)) ->
  exists w' tr, body (s ++ q) (Some EDir) None w = (None, w', tr) /\
                rfs w' = rfs w /\ all_dirs (lfs w') (d ++ q) /\
                forall x, framed (d ++ q) (lfs w) (lfs w') x.
Proof.
  intros Hroot. destruct (mkdirAll_succeeds _ _ Hroot) as [fs' Hm].
  unfold body, downloadDirectory_body. rewrite Rel_app. unfold Join.
  unfold_prims. simpl. rewrite Hnf, Hm. simpl.
  eexists _, _. split; [reflexivity|]. destruct w; simpl in *.
  split; [reflexivity|]. split.
  - intros x Hx. now rewrite (stat_mkdirAll _ _ _ _ Hm), Hx.
  - intros x. now apply mkdirAll_frame.
Qed.

Lemma download_loop_ok q :
  forall es,
  nodupb (map fst es) = true ->
  forallb (fun kc => wf_node (snd kc)) es = true ->
  Forall (fun kc =>
            wf_node (snd kc) = true ->
            forall q w,
              src_agrees (snd kc) (rfs w) (s ++ q) ->
              compat (snd kc) (d ++ q) (lfs w) ->
              root_ok (snd kc) (d ++ q) (lfs w) ->
              exists w' tr,
                walker_loop E (s ++ q) (snd kc) body w = (None, w', tr)) es ->
  forall w,
  all_dirs (lfs w) (d ++ q) ->
  (forall n ch, In (n, ch) es ->
                src_agrees ch (rfs w) (s ++ q ++ [n]) /\
                compat ch ((d ++ q) ++ [n]) (lfs w)) ->
  exists w' tr,
    for_entries (fun name ch => walker_loop E (Join (s ++ q) [name]) ch body) es w =
    (None, w', tr).
Proof.
  induction es as [|[n ch] es IHes]; intros Hnd Hwfs HF w Hdirs Hch.
  - exists w, []. reflexivity.
  - apply nodupb_cons in Hnd as [Hn Hnd]. simpl in Hn.
    simpl in Hwfs. apply andb_true_iff in Hwfs as [Hwf Hwfs].
    destruct (Hch n ch (or_introl eq_refl)) as [Hsrc Hcompat].
    rewrite for_entries_cons. unfold Join at 1.
    assert (Hroot : root_ok ch (d ++ q ++ [n]) (lfs w)).
    { rewrite (app_assoc d q [n]). destruct ch as [b|es']; simpl.
      - split; [now destruct (d ++ q)|].
        rewrite Dir_of_snoc. apply Hdirs, prefixb_refl.
      - intros x b Hx Hfile. apply prefixb_snoc in Hx as [->|Hx].
        + apply (Hcompat [] EDir eq_refl b). now rewrite ?app_nil_r.
        + rewrite (Hdirs x Hx) in Hfile. discriminate. }
    assert (Hcompat' : compat ch (d ++ q ++ [n]) (lfs w))
      by (rewrite (app_assoc d q [n]); exact Hcompat).
    destruct (Forall_inv HF Hwf (q ++ [n]) w Hsrc Hcompat' Hroot)
      as (w1 & t1 & Hwalk).
    simpl in Hwalk. rewrite (app_assoc s q [n]) in Hwalk.
    pose proof (download_walk_general E c s d ch Hwf (q ++ [n]) w) as Hpost.
    rewrite (app_assoc s q [n]) in Hpost. fold body in Hpost.
    rewrite Hwalk in Hpost. rewrite Hwalk.
    destruct Hpost as ((Hr1 & _ & _) & Hfr1 & Hm1 & _ & _).
    rewrite (app_assoc d q [n]) in Hfr1.
    unfold world in *. simpl in Hr1, Hfr1, Hm1.
    assert (Hdirs1 : all_dirs (lfs w1) (d ++ q)).
    { intros x Hx. apply Hm1. now apply Hdirs. }
    assert (Hch1 : forall n' ch', In (n', ch') es ->
                     src_agrees ch' (rfs w1) (s ++ q ++ [n']) /\
                     compat ch' ((d ++ q) ++ [n']) (lfs w1)).
    { intros n' ch' Hin. destruct (Hch n' ch' (or_intror Hin)) as [Hs' Hc'].
      split; [now rewrite Hr1|].
      assert (Hne : n <> n').
      { intros ->. apply Hn. apply in_map_iff. now exists (n', ch'). }
      intros rel e He. specialize (Hc' rel e He).
      assert (Hsame : stat_fs (lfs w1) (((d ++ q) ++ [n']) ++ rel) =
                      stat_fs (lfs w) (((d ++ q) ++ [n']) ++ rel)).
      { rewrite <- app_assoc. simpl.
        destruct (Hfr1 ((d ++ q) ++ n' :: rel)) as [Heq|(Hp & _)].
        - now apply sibling_not_prefix.
        - exact Heq.
        - rewrite prefixb_app_l in Hp. simpl in Hp.
          destruct (String.eqb_spec n' n); [congruence | discriminate]. }
      now rewrite Hsame. }
    destruct (IHes Hnd Hwfs (Forall_inv_tail HF) w1 Hdirs1 Hch1)
      as (w2 & t2 & Hrest).
    rewrite Hrest. eauto.
Qed.

(** When nothing fails, the walk of the remote tree [T] at [s ++ q] returns
    no error. *)
Lemma download_walk_ok :
  forall T, wf_node T = true ->
  forall q w,
    src_agrees T (rfs w) (s ++ q) ->
    compat T (d ++ q) (lfs w) ->
    root_ok T (d ++ q) (lfs w) ->
    exists w' tr, walker_loop E (s ++ q) T body w = (None, w', tr).
Proof.
  induction T as [b0|es IH] using node_ind_nested;
    intros Hwf q w Hsrc Hcompat Hroot;
    rewrite walker_loop_eq; unfold bind at 1; simpl entry_of.
  - destruct Hroot as [Hne Hpar].
    destruct (download_body_file_ok q b0 b0 w) as (w1 & t1 & ->); auto.
    { rewrite <- (app_nil_r q), app_assoc. apply Hsrc. reflexivity. }
    { specialize (Hcompat [] (EFile b0) eq_refl).
      now rewrite ?app_nil_r in Hcompat. }
    unfold ret. eauto.
  - apply wf_node_Dir in Hwf as [Hnd Hwfs].
    destruct (download_body_dir_ok q w Hroot) as (w1 & t1 & -> & Hr1 & Hdirs & Hfr1).
    unfold bind at 1. rewrite fs_ReadDir_cases, Hnf. cbv beta iota.
    destruct (download_loop_ok q es Hnd Hwfs IH w1 Hdirs) as (w2 & t2 & ->).
    { intros n ch Hin. apply (In_assoc _ _ _ Hnd) in Hin. split.
      - intros rel e He. rewrite Hr1.
        replace ((s ++ q ++ [n]) ++ rel) with ((s ++ q) ++ n :: rel)
          by (now rewrite <- !app_assoc).
        apply Hsrc. now rewrite stat_cons_dir, Hin.
      - intros rel e He.
        assert (Hc := Hcompat (n :: rel) e). rewrite stat_cons_dir, Hin in Hc.
        specialize (Hc He).
        replace (((d ++ q) ++ [n]) ++ rel) with ((d ++ q) ++ n :: rel)
          by (now rewrite <- !app_assoc).
        destruct (Hfr1 ((d ++ q) ++ n :: rel)) as [->|(Hp & _)]; [exact Hc|].
        now rewrite prefixb_longer in Hp. }
    eauto.
Qed.

End DownloadMirror.

Lemma Rel_refl s : Rel s s = Ok [].
Proof. rewrite <- (app_nil_r s) at 2. apply Rel_app. Qed.

Section DownloadDirectory.

Variable E : Env.

(** A [Download] of a directory that returns no error has walked it without
    an error. *)
Lemma Download_dir_nil src dst w T w' tr :
  entry_of T = EDir -> lookup (rfs w) src = Some T ->
  Download E src dst w = (None, w', tr) ->
  exists w2 t2,
    walker_loop E src T (downloadDirectory_body E SftpClient src dst)
      (acquire HClient w) = (None, w2, t2) /\
    lfs w' = lfs w2.
Proof.
  intros Hdir Hlook Heq.
  unfold Download, NewSftp in Heq. unfold bind at 1 in Heq.
  destruct (sftp_NewClient_cases E w) as [Hc|[e Hc]]; rewrite Hc in Heq;
    [|discriminate].
  set (w0 := acquire HClient w) in *.
  unfold defer in Heq. unfold bind at 1 2 in Heq. unfold sftp_Stat in Heq.
  destruct (fs_Stat_cases E Remote src w0) as [(en & Hst & Hs)|[e Hs]];
    rewrite Hs in Heq; [|discriminate].
  replace (fs_of Remote w0) with (rfs w) in Hst by (now destruct w).
  rewrite (stat_lookup _ _ _ Hlook), Hdir in Hst. injection Hst as <-.
  change (IsDir EDir) with true in Heq. cbv iota in Heq.
  unfold downloadDirectory, sftp_Walk_loop in Heq. unfold bind at 1 in Heq.
  destruct (fs_Lstat_fail_fast E Remote src w0) as [[en Hl]|[e Hl]];
    rewrite Hl in Heq; [|discriminate].
  replace (lookup (rfs w0) src) with (Some T) in Heq by (now destruct w).
  destruct (walker_loop E src T (downloadDirectory_body E SftpClient src dst) w0)
    as [[v w2] t2].
  unfold bind, sftp_Close, ret in Heq. injection Heq as -> <- <-.
  exists w2, t2. split; [reflexivity|]. now destruct w2.
Qed.

(** [Download] of a directory tree when nothing stands in the way. *)
Lemma Download_dir_run (w : World) (src dst : path) (T : node) :
  download_ready E w src dst T ->
  exists tr w2 t2,
    Download E src dst w = (None, drop HClient w2, tr) /\
    walker_loop E src T (downloadDirectory_body E SftpClient src dst)
      (acquire HClient w) = (None, w2, t2) /\
    forall rel e, stat_fs T rel = Some e ->
                  stat_fs (lfs w2) (dst ++ rel) = Some e.
Proof.
  intros (Hnf & Halive & Hlook & Hdir & Hwf & Hanc & Hcompat).
  assert (Hsrc : src_agrees T (rfs (acquire HClient w)) src).
  { intros rel e He. destruct w; simpl in *. now rewrite (stat_app _ _ rel _ Hlook). }
  assert (Hwalk := download_walk_ok E SftpClient src dst Hnf T Hwf []
                     (acquire HClient w)).
  rewrite !app_nil_r in Hwalk.
  destruct Hwalk as (w2 & t2 & Hwalk).
  - exact Hsrc.
  - intros rel e He. destruct w; simpl. now apply Hcompat.
  - destruct T as [b|es]; [discriminate|]. destruct w; simpl. exact Hanc.
  - eexists. exists w2, t2. split; [|split; [exact Hwalk|]].
    + unfold Download, NewSftp. unfold bind at 1.
      rewrite (sftp_NewClient_ok E w (Hnf _) Halive).
      unfold defer. unfold bind at 1 2. unfold sftp_Stat.
      rewrite (fs_Stat_ok E Remote src (acquire HClient w) EDir (Hnf _)).
      2:{ destruct w; simpl in *. rewrite (stat_lookup _ _ _ Hlook).
          now rewrite Hdir. }
      change (IsDir EDir) with true. cbv iota.
      unfold downloadDirectory, sftp_Walk_loop. unfold bind at 1.
      rewrite (fs_Lstat_ok E Remote src (acquire HClient w) EDir (Hnf _)).
      2:{ destruct w; simpl in *. rewrite (stat_lookup _ _ _ Hlook).
          now rewrite Hdir. }
      replace (lookup (rfs (acquire HClient w)) src) with (Some T)
        by (now destruct w).
      rewrite Hwalk. unfold bind, sftp_Close, ret. reflexivity.
    + pose proof (download_walk_nil E SftpClient src dst T Hwf []
                    (acquire HClient w) w2 t2) as Hm.
      rewrite !app_nil_r in Hm. now apply Hm.
Qed.

(** X14.  Let [T] be what the remote file system holds at [src], a regular
    file or a directory tree that lists no name twice.  Whatever fails:
    whenever [Download src dst] returns no error, the local file system
    reports below [dst], at the same relative path, every node of [T]: a
    directory where [T] has a directory, an empty one included, and a
    regular file with the same bytes where [T] has a regular file. *)
Theorem Download_without_error_has_mirrored
  (w : World) (src dst : path) (T : node) :
  wf_node T = true -> lookup (rfs w) src = Some T ->
  let r := Download E src dst w in
  value r = None ->
  forall rel e, stat_fs T rel = Some e ->
                stat_fs (lfs (world r)) (dst ++ rel) = Some e.
Proof.
  intros Hwf Hlook r Hv rel e He. subst r.
  destruct T as [b|es].
  - apply stat_File_inv in He as [-> ->]. rewrite app_nil_r.
    destruct (Download_file_spec E src dst w b) as (_ & _ & _ & Hspec).
    { now rewrite (stat_lookup _ _ _ Hlook). }
    destruct (Hspec Hv) as [_ Hst]. now rewrite Hst, path_eqb_refl.
  - destruct (Download E src dst w) as [[v w'] tr] eqn:Heq.
    unfold value, world in *. simpl in *. subst v.
    destruct (Download_dir_nil src dst w (Dir es) w' tr eq_refl Hlook Heq)
      as (w2 & t2 & Hwalk & ->).
    pose proof (download_walk_nil E SftpClient src dst (Dir es) Hwf []
                  (acquire HClient w) w2 t2) as Hm.
    rewrite !app_nil_r in Hm. apply Hm; auto.
    intros rel' e' He'. destruct w; simpl in *.
    now rewrite (stat_app _ _ rel' _ Hlook).
Qed.

(** X15.  Let [T] be the directory tree at the remote path [src], and let
    nothing stand in the way of its download to [dst].  Then [Download]
    returns no error, and afterwards the local file system reports below
    [dst] every node of [T], empty directories included. *)
Theorem Download_mirrors_directory_tree
  (w : World) (src dst : path) (T : node) :
  download_ready E w src dst T ->
  let r := Download E src dst w in
  value r = None /\
  forall rel e, stat_fs T rel = Some e ->
                stat_fs (lfs (world r)) (dst ++ rel) = Some e.
Proof.
  intros Hready.
  destruct (Download_dir_run w src dst T Hready)
    as (tr & w2 & t2 & Hdown & _ & Hmirror).
  cbv zeta. rewrite Hdown. unfold value, world. cbn [fst snd].
  split; [reflexivity|]. intros rel e He.
  replace (lfs (drop HClient w2)) with (lfs w2) by (now destruct w2).
  now apply Hmirror.
Qed.

(** X16.  Unlike the upload, the download looks at what the [MkdirAll] of a
    directory returns.  Let nothing fail for a reason outside the model, let
    the remote path be a directory, and let a component of the local path be
    a regular file: [Download] returns the error of [MkdirAll], which names
    that component, wrapped as the failure to create the local directory,
    after that one local call, and the world is as before. *)
Theorem Download_returns_MkdirAll_error (w : World) (src dst x : path) (b : list byte) :
  (forall pr, fault E pr = None) -> alive w = true ->
  stat_fs (rfs w) src = Some EDir ->
  prefixb x dst = true -> stat_fs (lfs w) x = Some (EFile b) ->
  Download E src dst w =
  (Some (Wrapped "failed to create local directory" (PathError "mkdir" x ENOTDIR)),
   w,
   [Ev NewClient None; Ev (Stat Remote src) None; Ev (Lstat Remote src) None;
    Ev (MkdirAll Local dst) (Some ENOTDIR); Ev CloseClient None]).
Proof.
  intros Hnf Ha Hsrc Hx Hfile.
  assert (Hm : mkdirAll_fs dst (lfs w) = None).
  { destruct (mkdirAll_fs dst (lfs w)) as [l1|] eqn:Hm; [|reflexivity].
    now destruct (mkdirAll_no_file _ _ _ Hm x b Hx). }
  assert (exists es, lookup (rfs w) src = Some (Dir es)) as [es Hlook].
  { unfold stat_fs in Hsrc. destruct (lookup (rfs w) src) as [[d|es]|];
      try discriminate. eauto. }
  unfold Download, NewSftp. unfold bind at 1.
  rewrite (sftp_NewClient_ok E w (Hnf _) Ha).
  unfold defer. unfold bind at 1 2. unfold sftp_Stat.
  rewrite (fs_Stat_ok E Remote src (acquire HClient w) EDir (Hnf _))
    by (now destruct w).
  change (IsDir EDir) with true. cbv iota.
  unfold downloadDirectory, sftp_Walk_loop. unfold bind at 1.
  rewrite (fs_Lstat_ok E Remote src (acquire HClient w) EDir (Hnf _))
    by (now destruct w).
  replace (lookup (rfs (acquire HClient w)) src) with (Some (Dir es))
    by (now destruct w).
  rewrite walker_loop_eq. unfold bind at 1. simpl entry_of.
  unfold downloadDirectory_body at 1. rewrite Rel_refl. unfold Join.
  rewrite app_nil_r. change (IsDir EDir) with true. cbv iota.
  destruct w as [l r a o]. simpl in *. subst a.
  unfold_prims. simpl. rewrite !Hnf, Hm. simpl. norm_world.
  now rewrite (blocker_file l x dst b Hx Hfile).
Qed.

End DownloadDirectory.

Lemma Download_without_error_has_mirrored_witness :
  let r := Download no_faults ["srv"] ["out"] remote_site_world in
  stat_fs (lfs (world r)) ["out"; "empty"] = Some EDir /\
  stat_fs (lfs (world r)) ["out"; "css"; "a.css"] =
  Some (EFile [x61; x7b; x7d]%byte).
Proof.
  pose proof (Download_without_error_has_mirrored no_faults remote_site_world
                ["srv"] ["out"] site_tree eq_refl eq_refl eq_refl) as Hm.
  split.
  - exact (Hm ["empty"] EDir eq_refl).
  - exact (Hm ["css"; "a.css"] (EFile [x61; x7b; x7d]%byte) eq_refl).
Defined.

Lemma Download_mirrors_directory_tree_witness :
  let r := Download no_faults ["srv"] ["out"; "copy"] remote_site_world in
  value r = None /\
  stat_fs (lfs (world r)) ["out"; "copy"; "index.html"] =
  Some (EFile [x3c; x68; x3e]%byte).
Proof.
  assert (Hready : download_ready no_faults remote_site_world ["srv"]
                     ["out"; "copy"] site_tree).
  { repeat split; try reflexivity.
    - intros x b Hx Hst. destruct x as [|c1 x]; [discriminate Hst|].
      destruct x; destruct c1; discriminate Hst.
    - intros rel e _. destruct e; [|intros b]; destruct rel; discriminate. }
  destruct (Download_mirrors_directory_tree no_faults remote_site_world ["srv"]
              ["out"; "copy"] site_tree Hready) as [Hv Hm].
  split; [exact Hv|].
  exact (Hm ["index.html"] (EFile [x3c; x68; x3e]%byte) eq_refl).
Defined.

Lemma Download_returns_MkdirAll_error_witness :
  (Download no_faults ["srv"] ["out"] blocked_download_world =
   (Some (Wrapped "failed to create local directory"
            (PathError "mkdir" ["out"] ENOTDIR)),
    blocked_download_world,
    [Ev NewClient None; Ev (Stat Remote ["srv"]) None;
     Ev (Lstat Remote ["srv"]) None;
     Ev (MkdirAll Local ["out"]) (Some ENOTDIR); Ev CloseClient None])) /\
  (Download no_faults ["srv"] ["out"; "sub"] blocked_download_world =
   (Some (Wrapped "failed to create local directory"
            (PathError "mkdir" ["out"] ENOTDIR)),
    blocked_download_world,
    [Ev NewClient None; Ev (Stat Remote ["srv"]) None;
     Ev (Lstat Remote ["srv"]) None;
     Ev (MkdirAll Local ["out"; "sub"]) (Some ENOTDIR); Ev CloseClient None])).
Proof.
  split.
  - apply (Download_returns_MkdirAll_error no_faults blocked_download_world
             ["srv"] ["out"] ["out"] [x2a]%byte); reflexivity.
  - apply (Download_returns_MkdirAll_error no_faults blocked_download_world
             ["srv"] ["out"; "sub"] ["out"] [x2a]%byte); reflexivity.
Defined.

(** ** File systems stay well formed *)

Lemma names_set_child k v es :
  map fst (set_child k v es) =
  if existsb (String.eqb k) (map fst es) then map fst es else map fst es ++ [k].
Proof.
  induction es as [|[k' v'] es IH]; simpl; [reflexivity|].
  destruct (String.eqb_spec k k') as [->|Hk]; simpl; [reflexivity|].
  rewrite IH. now destruct (existsb (String.eqb k) (map fst es)).
Qed.

Lemma nodupb_set_child k v es :
  nodupb (map fst es) = true -> nodupb (map fst (set_child k v es)) = true.
Proof.
  intros H. rewrite names_set_child.
  destruct (existsb (String.eqb k) (map fst es)) eqn:Hk; [assumption|].
  apply nodupb_NoDup. apply nodupb_NoDup in H.
  apply (Permutation_NoDup (Permutation_cons_append (map fst es) k)).
  constructor; [|assumption].
  intros Hin. assert (existsb (String.eqb k) (map fst es) = true); [|congruence].
  apply existsb_exists. exists k. split; [assumption | apply String.eqb_refl].
Qed.

Lemma wf_set_child k v es :
  wf_node v = true -> forallb (fun kc => wf_node (snd kc)) es = true ->
  forallb (fun kc => wf_node (snd kc)) (set_child k v es) = true.
Proof.
  intros Hv. induction es as [|[k' v'] es IH]; simpl.
  - now rewrite Hv.
  - intros H. apply andb_true_iff in H as [H1 H2].
    destruct (String.eqb k k'); simpl; [now rewrite Hv | now rewrite H1, IH].
Qed.

Lemma wf_child c ch es :
  wf_node (Dir es) = true -> assoc c es = Some ch -> wf_node ch = true.
Proof.
  intros Hwf Ha. apply wf_node_Dir in Hwf as [_ Hwfs].
  rewrite forallb_forall in Hwfs. exact (Hwfs (c, ch) (assoc_In _ _ _ Ha)).
Qed.

Lemma wf_Dir_set_child k v es :
  wf_node (Dir es) = true -> wf_node v = true ->
  wf_node (Dir (set_child k v es)) = true.
Proof.
  intros Hwf Hv. apply wf_node_Dir in Hwf as [Hnd Hwfs]. simpl.
  now rewrite nodupb_set_child, wf_set_child.
Qed.

Lemma wf_lookup p : forall n m,
  wf_node n = true -> lookup n p = Some m -> wf_node m = true.
Proof.
  induction p as [|c p IH]; intros n m Hwf H.
  - now injection H as <-.
  - destruct n as [b|es]; [discriminate|]. simpl in H.
    destruct (assoc c es) as [ch|] eqn:Ha; [|discriminate].
    exact (IH ch m (wf_child _ _ _ Hwf Ha) H).
Qed.

Lemma wf_put p x : forall n,
  wf_node n = true -> wf_node x = true -> wf_node (put p x n) = true.
Proof.
  induction p as [|c p IH]; intros n Hwf Hx; [exact Hx|].
  destruct n as [b|es]; [exact Hwf|]. simpl.
  destruct (assoc c es) as [ch|] eqn:Ha.
  - apply wf_Dir_set_child; [assumption|]. apply IH; [|assumption].
    exact (wf_child _ _ _ Hwf Ha).
  - destruct p; [|assumption]. now apply wf_Dir_set_child.
Qed.

Lemma wf_mkdirAll p : forall n n',
  wf_node n = true -> mkdirAll_fs p n = Some n' -> wf_node n' = true.
Proof.
  induction p as [|c p IH]; intros n n' Hwf H.
  - destruct n; [discriminate|]. now injection H as <-.
  - destruct n as [b|es]; [discriminate|]. simpl in H.
    destruct (mkdirAll_fs p _) as [ch'|] eqn:Hm; [|discriminate].
    injection H as <-. apply wf_Dir_set_child; [assumption|].
    refine (IH _ _ _ Hm). destruct (assoc c es) as [ch|] eqn:Ha; [|reflexivity].
    exact (wf_child _ _ _ Hwf Ha).
Qed.

Lemma wf_create p fs fs' :
  wf_node fs = true -> create_fs p fs = inr fs' -> wf_node fs' = true.
Proof.
  intros Hwf. unfold create_fs. destruct p as [|c p]; [discriminate|].
  destruct (stat_fs fs (Dir_of (c :: p))) as [[d|]|]; try discriminate.
  destruct (stat_fs fs (c :: p)) as [[d|]|]; try discriminate;
    intros [= <-]; exact (wf_put (c :: p) (File []) fs Hwf eq_refl).
Qed.

Lemma wf_write p data fs :
  wf_node fs = true -> wf_node (write_fs p data fs) = true.
Proof.
  intros Hwf. unfold write_fs.
  destruct (stat_fs fs p) as [[d|]|]; try assumption.
  exact (wf_put p (File data) fs Hwf eq_refl).
Qed.

Section RemoteStaysWf.

Variable E : Env.
Variable c : sftpClient.

Lemma upload_fn_wf s d p info err w v w' tr :
  uploadDirectory_fn E c s d p info err w = (v, w', tr) ->
  wf_node (rfs w) = true -> wf_node (rfs w') = true.
Proof.
  intros Heq Hwf.
  assert (K : wf_node (rfs (world (uploadDirectory_fn E c s d p info err w))) = true).
  { clear Heq. destruct w as [l r a o]. simpl in Hwf. unfold uploadDirectory_fn.
    destruct err as [err|]; [exact Hwf|].
    destruct (Rel s p) as [rel|err]; [|exact Hwf].
    unfold Join. set (t := d ++ rel).
    destruct info as [[b|]|]; simpl.
    2:{ unfold_prims. simpl.
        destruct (fault E (MkdirAll Remote t)); simpl; [exact Hwf|].
        destruct (mkdirAll_fs t r) eqn:Hm; simpl; [|exact Hwf].
        exact (wf_mkdirAll _ _ _ Hwf Hm). }
    all: unfold_prims; simpl;
      (destruct (fault E (Open Local p)); simpl; [exact Hwf|]);
      (destruct (stat_fs l p) as [en|] eqn:Hsrc; simpl; [|exact Hwf]);
      (destruct (fault E (Create Remote t)); simpl; [exact Hwf|]);
      (destruct (create_fs t r) as [e|r1] eqn:Hc; simpl; [exact Hwf|]);
      pose proof (wf_create _ _ _ Hwf Hc) as Hwf1;
      (destruct (fault E (Read Local p)); simpl; [exact Hwf1|]);
      rewrite Hsrc; (destruct en as [b'|]; simpl; [|exact Hwf1]);
      destruct (fault E (Write Remote t)); simpl; now apply wf_write. }
  now rewrite Heq in K.
Qed.

Lemma uploadDirectory_walk_wf s d w v w' tr :
  filepath_Walk E s (uploadDirectory_fn E c s d) w = (v, w', tr) ->
  wf_node (rfs w) = true -> wf_node (rfs w') = true.
Proof.
  apply (filepath_Walk_rel E
           (fun w w' _ => wf_node (rfs w) = true -> wf_node (rfs w') = true));
    auto.
  intros p info err w0 v0 w0' tr0. apply upload_fn_wf.
Qed.

End RemoteStaysWf.

(** ** A directory, uploaded and downloaded again *)

Section DirectoryRoundTrip.

Variable E : Env.

(** [Upload] of a directory tree when nothing stands in the way. *)
Lemma Upload_dir_run (w : World) (src dst : path) (T : node) :
  upload_ready E w src dst T ->
  exists tr w2 t2,
    Upload E src dst w = (None, drop HClient w2, tr) /\
    filepath_Walk E src (uploadDirectory_fn E SftpClient src dst)
      (acquire HClient w) = (None, w2, t2) /\
    forall rel e, stat_fs T rel = Some e ->
                  stat_fs (rfs w2) (dst ++ rel) = Some e.
Proof.
  intros (Hnf & Halive & Hlook & Hdir & Hwf & Hanc & Hcompat).
  assert (Hwalk := upload_walk_ok E SftpClient src dst Hnf (sort_tree T)
                     (wf_sort_tree T Hwf) [] (acquire HClient w)).
  rewrite !app_nil_r in Hwalk.
  destruct Hwalk as (w' & tr & Hwalk & Hmirror).
  - intros rel e He. rewrite stat_sort_tree in He.
    destruct w; simpl in *. now rewrite (stat_app _ _ rel _ Hlook).
  - intros rel e He. rewrite stat_sort_tree in He.
    destruct w; simpl. now apply Hcompat.
  - destruct T as [b|es]; [discriminate|]. destruct w; simpl. exact Hanc.
  - assert (Hst : stat_fs (lfs (acquire HClient w)) src = Some EDir).
    { destruct w; simpl in *. rewrite (stat_lookup _ _ _ Hlook). now rewrite Hdir. }
    assert (Hfw : filepath_Walk E src (uploadDirectory_fn E SftpClient src dst)
                    (acquire HClient w) =
                  (None, w', [Ev (Lstat Local src) None] ++ tr)).
    { unfold filepath_Walk. unfold bind at 1.
      rewrite (fs_Lstat_ok E Local src (acquire HClient w) EDir (Hnf _) Hst).
      replace (lookup (lfs (acquire HClient w)) src) with (Some T)
        by (now destruct w).
      now rewrite Hwalk. }
    eexists. exists w'. eexists.
    split; [|split; [exact Hfw|]].
    + unfold Upload. unfold bind at 1. unfold os_Stat.
      rewrite (fs_Stat_ok E Local src w EDir (Hnf _)) by (now destruct w).
      unfold uploadDirectory. change (IsDir EDir) with true. cbv iota.
      unfold bind at 1. rewrite (sftp_NewClient_ok E w (Hnf _) Halive).
      unfold defer. unfold bind at 1 2. rewrite Hfw.
      unfold sftp_Close, ret. reflexivity.
    + intros rel e He. apply Hmirror. now rewrite stat_sort_tree.
Qed.

(** X17.  Let [T] be the directory tree at the local path [src], let nothing
    stand in the way of its upload to [dst], and let the remote file system
    list no name twice.  Then [Upload src dst] returns no error, and whenever
    the [Download] of [dst] to [back] that follows returns no error, the
    local file system reports below [back], at the same relative path, every
    node of [T]: the directories, empty ones included, and the regular files
    with their bytes. *)
Theorem directory_round_trip (w : World) (src dst back : path) (T : node) :
  upload_ready E w src dst T -> wf_node (rfs w) = true ->
  let up := Upload E src dst w in
  let down := Download E dst back (world up) in
  value up = None /\
  (value down = None ->
   forall rel e, stat_fs T rel = Some e ->
                 stat_fs (lfs (world down)) (back ++ rel) = Some e).
Proof.
  intros Hready Hwf.
  destruct (Upload_dir_run w src dst T Hready)
    as (tr & w2 & t2 & Hup & Hfw & Hmirror).
  destruct Hready as (_ & _ & _ & Hdir & _).
  set (w1 := drop HClient w2) in *.
  assert (Hrfs : rfs w1 = rfs w2) by (now destruct w2).
  rewrite <- Hrfs in Hmirror.
  cbv zeta. rewrite Hup. unfold value, world. cbn [fst snd].
  split; [reflexivity|]. intros Hv rel e He.
  assert (Hwf1 : wf_node (rfs w1) = true).
  { rewrite Hrfs.
    apply (uploadDirectory_walk_wf E SftpClient src dst _ _ _ _ Hfw).
    now destruct w. }
  assert (exists T', lookup (rfs w1) dst = Some T' /\ entry_of T' = EDir)
    as (T' & Hlook' & Hdir').
  { pose proof (Hmirror [] (entry_of T) eq_refl) as Hst.
    rewrite app_nil_r, Hdir in Hst. unfold stat_fs in Hst.
    destruct (lookup (rfs w1) dst) as [T'|]; [|discriminate].
    exists T'. split; [reflexivity|]. now injection Hst. }
  destruct (Download E dst back w1) as [[v w'] tr'] eqn:Heq.
  cbn [fst snd] in *. subst v.
  destruct (Download_dir_nil E dst back w1 T' w' tr' Hdir' Hlook' Heq)
    as (w3 & t3 & Hwalk & ->).
  pose proof (download_walk_nil E SftpClient dst back T'
                (wf_lookup _ _ _ Hwf1 Hlook') [] (acquire HClient w1) w3 t3) as Hm.
  rewrite !app_nil_r in Hm. apply Hm; auto.
  - intros rel' e' He'. destruct w1; simpl in *.
    now rewrite (stat_app _ _ rel' _ Hlook').
  - rewrite <- (stat_app _ _ rel _ Hlook'). now apply Hmirror.
Qed.

End DirectoryRoundTrip.

Lemma directory_round_trip_witness :
  let up := Upload no_faults ["site"] ["srv"; "www"] site_world in
  let down := Download no_faults ["srv"; "www"] ["back"] (world up) in
  value up = None /\ value down = None /\
  stat_fs (lfs (world down)) ["back"; "empty"] = Some EDir /\
  stat_fs (lfs (world down)) ["back"; "css"; "a.css"] =
  Some (EFile [x61; x7b; x7d]%byte).
Proof.
  assert (Hready : upload_ready no_faults site_world ["site"] ["srv"; "www"]
                     site_tree).
  { repeat split; try reflexivity.
    - intros x b Hx Hst. destruct x as [|c1 [|c2 [|c3 x]]]; simpl in Hx.
      + discriminate Hst.
      + rewrite andb_true_r in Hx. apply String.eqb_eq in Hx. subst c1.
        discriminate Hst.
      + rewrite andb_true_r in Hx. apply andb_true_iff in Hx as [H1 H2].
        apply String.eqb_eq in H1, H2. subst c1 c2. discriminate Hst.
      + rewrite !andb_false_r in Hx. discriminate Hx.
    - intros rel e _. destruct e; discriminate. }
  destruct (directory_round_trip no_faults site_world ["site"] ["srv"; "www"]
              ["back"] site_tree Hready eq_refl) as [Hup Hdown].
  split; [exact Hup|]. split; [reflexivity|]. split.
  - exact (Hdown eq_refl ["empty"] EDir eq_refl).
  - exact (Hdown eq_refl ["css"; "a.css"] (EFile [x61; x7b; x7d]%byte) eq_refl).
Defined.

(** ** Transfers that are run again *)

Section Repeat.

Variable E : Env.

(** What is there, node for node, is of no other kind. *)
Lemma mirrored_compat T t fs :
  (forall rel e, stat_fs T rel = Some e -> stat_fs fs (t ++ rel) = Some e) ->
  compat T t fs.
Proof.
  intros Hm rel e He. rewrite (Hm rel e He). destruct e; [|intros b]; discriminate.
Qed.

(** X18.  An upload can be run again.  Let [T] be the directory tree at the
    local path [src] and let nothing stand in the way of its upload to [dst].
    Then [Upload src dst] returns no error, a second [Upload src dst] right
    after it returns no error either, although every directory and every
    file is there already, and the remote file system still reports below
    [dst] every node of [T]. *)
Theorem Upload_can_be_repeated (w : World) (src dst : path) (T : node) :
  upload_ready E w src dst T ->
  let up := Upload E src dst w in
  let again := Upload E src dst (world up) in
  value up = None /\ value again = None /\
  forall rel e, stat_fs T rel = Some e ->
                stat_fs (rfs (world again)) (dst ++ rel) = Some e.
Proof.
  intros Hready.
  destruct (Upload_dir_run E w src dst T Hready)
    as (tr & w2 & t2 & Hup & Hfw & Hmirror).
  destruct (uploadDirectory_walk_kept E SftpClient src dst _ _ _ _ Hfw)
    as ((Hl & _ & Ha) & _).
  destruct Hready as (Hnf & Halive & Hlook & Hdir & Hwf & _ & _).
  assert (Hready1 : upload_ready E (drop HClient w2) src dst T).
  { split; [exact Hnf|]. split; [|split; [|split; [exact Hdir|split; [exact Hwf|]]]].
    - destruct w, w2; simpl in *. congruence.
    - destruct w, w2; simpl in *. congruence.
    - split.
      + apply dir_has_no_file_prefix.
        pose proof (Hmirror [] (entry_of T) eq_refl) as Hst.
        rewrite app_nil_r, Hdir in Hst. now destruct w2.
      + apply mirrored_compat. now destruct w2. }
  destruct (Upload_dir_run E _ src dst T Hready1)
    as (tr' & w3 & t3 & Hup' & _ & Hmirror').
  cbv zeta. rewrite Hup. unfold value, world. cbn [fst snd]. rewrite Hup'.
  cbn [fst snd]. split; [reflexivity|]. split; [reflexivity|].
  intros rel e He. replace (rfs (drop HClient w3)) with (rfs w3) by (now destruct w3).
  now apply Hmirror'.
Qed.

(** X19.  A download can be run again.  Let [T] be the directory tree at the
    remote path [src] and let nothing stand in the way of its download to
    [dst].  Then [Download src dst] returns no error, a second
    [Download src dst] right after it returns no error either, and the local
    file system still reports below [dst] every node of [T]. *)
Theorem Download_can_be_repeated (w : World) (src dst : path) (T : node) :
  download_ready E w src dst T ->
  let down := Download E src dst w in
  let again := Download E src dst (world down) in
  value down = None /\ value again = None /\
  forall rel e, stat_fs T rel = Some e ->
                stat_fs (lfs (world again)) (dst ++ rel) = Some e.
Proof.
  intros Hready.
  destruct (Download_dir_run E w src dst T Hready)
    as (tr & w2 & t2 & Hdown & Hwalk & Hmirror).
  assert (Hkept : source_kept Remote (acquire HClient w) w2 t2).
  { eapply (walker_loop_rel E (source_kept Remote)); try exact Hwalk.
    - apply source_kept_nil.
    - intros. now apply source_kept_one.
    - apply source_kept_app.
    - intros p info err w0 v0 w0' tr0. apply download_body_kept. }
  destruct Hkept as ((Hr & _ & Ha) & _).
  destruct Hready as (Hnf & Halive & Hlook & Hdir & Hwf & _ & _).
  assert (Hready1 : download_ready E (drop HClient w2) src dst T).
  { split; [exact Hnf|]. split; [|split; [|split; [exact Hdir|split; [exact Hwf|]]]].
    - destruct w, w2; simpl in *. congruence.
    - destruct w, w2; simpl in *. congruence.
    - split.
      + apply dir_has_no_file_prefix.
        pose proof (Hmirror [] (entry_of T) eq_refl) as Hst.
        rewrite app_nil_r, Hdir in Hst. now destruct w2.
      + apply mirrored_compat. now destruct w2. }
  destruct (Download_dir_run E _ src dst T Hready1)
    as (tr' & w3 & t3 & Hdown' & _ & Hmirror').
  cbv zeta. rewrite Hdown. unfold value, world. cbn [fst snd]. rewrite Hdown'.
  cbn [fst snd]. split; [reflexivity|]. split; [reflexivity|].
  intros rel e He. replace (lfs (drop HClient w3)) with (lfs w3) by (now destruct w3).
  now apply Hmirror'.
Qed.

(** X20.  The upload of an empty directory.  Let nothing fail for a reason
    outside the model and let the local path be a directory without entries.
    [Upload] reads the directory, asks for the remote directory to be made,
    creates and writes no file, and returns no error: with the remote
    directory there when no component of the remote path is a regular file,
    and with the remote file system as before when one is. *)
Theorem Upload_of_empty_directory (w : World) (src dst : path) :
  (forall pr, fault E pr = None) -> alive w = true ->
  lookup (lfs w) src = Some (Dir []) ->
  Upload E src dst w =
  (None,
   match mkdirAll_fs dst (rfs w) with
   | Some fs' => set_fs Remote fs' w
   | None => w
   end,
   [Ev (Stat Local src) None; Ev NewClient None; Ev (Lstat Local src) None;
    Ev (ReadDir Local src) None;
    Ev (MkdirAll Remote dst)
       (match mkdirAll_fs dst (rfs w) with Some _ => None | None => Some ENOTDIR end);
    Ev CloseClient None]).
Proof.
  intros Hnf Ha Hlook.
  unfold Upload. unfold bind at 1. unfold os_Stat.
  rewrite (fs_Stat_ok E Local src w EDir (Hnf _))
    by (simpl; now rewrite (stat_lookup _ _ _ Hlook)).
  unfold uploadDirectory. change (IsDir EDir) with true. cbv iota.
  unfold bind at 1. rewrite (sftp_NewClient_ok E w (Hnf _) Ha).
  unfold defer. unfold bind at 1 2. unfold filepath_Walk. unfold bind at 1.
  rewrite (fs_Lstat_ok E Local src (acquire HClient w) EDir (Hnf _))
    by (destruct w; simpl in *; now rewrite (stat_lookup _ _ _ Hlook)).
  replace (lookup (lfs (acquire HClient w)) src) with (Some (Dir []))
    by (now destruct w).
  change (sort_tree (Dir [])) with (Dir []).
  rewrite walk_Dir. unfold bind at 1. rewrite fs_ReadDir_cases, Hnf.
  cbv beta iota. unfold bind at 1.
  rewrite <- (app_nil_r src) at 2. rewrite upload_fn_dir, Hnf, app_nil_r.
  destruct w as [l r a o]. simpl in *.
  destruct (mkdirAll_fs dst r) as [fs'|]; simpl; unfold_prims; simpl;
    rewrite Hnf; norm_world; reflexivity.
Qed.

End Repeat.

Lemma Upload_can_be_repeated_witness :
  let up := Upload no_faults ["site"] ["srv"; "www"] site_world in
  let again := Upload no_faults ["site"] ["srv"; "www"] (world up) in
  value up = None /\ value again = None /\
  stat_fs (rfs (world again)) ["srv"; "www"; "css"; "a.css"] =
  Some (EFile [x61; x7b; x7d]%byte).
Proof.
  assert (Hready : upload_ready no_faults site_world ["site"] ["srv"; "www"]
                     site_tree).
  { repeat split; try reflexivity.
    - intros x b Hx Hst. destruct x as [|c1 [|c2 [|c3 x]]]; simpl in Hx.
      + discriminate Hst.
      + rewrite andb_true_r in Hx. apply String.eqb_eq in Hx. subst c1.
        discriminate Hst.
      + rewrite andb_true_r in Hx. apply andb_true_iff in Hx as [H1 H2].
        apply String.eqb_eq in H1, H2. subst c1 c2. discriminate Hst.
      + rewrite !andb_false_r in Hx. discriminate Hx.
    - intros rel e _. destruct e; discriminate. }
  destruct (Upload_can_be_repeated no_faults site_world ["site"] ["srv"; "www"]
              site_tree Hready) as (Hup & Hagain & Hm).
  split; [exact Hup|]. split; [exact Hagain|].
  exact (Hm ["css"; "a.css"] (EFile [x61; x7b; x7d]%byte) eq_refl).
Defined.

Lemma Download_can_be_repeated_witness :
  let down := Download no_faults ["srv"] ["out"; "copy"] remote_site_world in
  let again := Download no_faults ["srv"] ["out"; "copy"] (world down) in
  value down = None /\ value again = None /\
  stat_fs (lfs (world again)) ["out"; "copy"; "empty"] = Some EDir.
Proof.
  assert (Hready : download_ready no_faults remote_site_world ["srv"]
                     ["out"; "copy"] site_tree).
  { repeat split; try reflexivity.
    - intros x b Hx Hst. destruct x as [|c1 x]; [discriminate Hst|].
      destruct x; destruct c1; discriminate Hst.
    - intros rel e _. destruct e; [|intros b]; destruct rel; discriminate. }
  destruct (Download_can_be_repeated no_faults remote_site_world ["srv"]
              ["out"; "copy"] site_tree Hready) as (Hdown & Hagain & Hm).
  split; [exact Hdown|]. split; [exact Hagain|].
  exact (Hm ["empty"] EDir eq_refl).
Defined.

Lemma Upload_of_empty_directory_witness :
  Upload no_faults ["d"] ["up"; "d"] local_dir_world =
  (None,
   mkWorld (Dir [("d", Dir [])]) (Dir [("up", Dir [("d", Dir [])])]) true [],
   [Ev (Stat Local ["d"]) None; Ev NewClient None; Ev (Lstat Local ["d"]) None;
    Ev (ReadDir Local ["d"]) None; Ev (MkdirAll Remote ["up"; "d"]) None;
    Ev CloseClient None]).
Proof.
  exact (Upload_of_empty_directory no_faults local_dir_world ["d"] ["up"; "d"]
           (fun _ => eq_refl) eq_refl eq_refl).
Defined.

(** ** What a transfer leaves alone at its destination side *)

(** Of two paths that begin a third one, one begins the other. *)
Lemma prefixb_comparable x : forall d rel,
  prefixb x (d ++ rel) = true -> prefixb d x = false -> prefixb x d = true.
Proof.
  induction x as [|a x IH]; intros d rel Hx Hd; [reflexivity|].
  destruct d as [|b d]; [discriminate|]. simpl in *.
  apply andb_true_iff in Hx as [Hab Hx]. apply String.eqb_eq in Hab. subst b.
  rewrite String.eqb_refl in *. simpl in *. eauto.
Qed.

Lemma framed_mkdirAll d rel fs fs' x :
  mkdirAll_fs (d ++ rel) fs = Some fs' -> prefixb d x = false ->
  framed d fs fs' x.
Proof.
  intros Hm Hx. destruct (mkdirAll_frame _ _ _ x Hm) as [H|(Hp & Hn & Hd)].
  - now left.
  - right. repeat split; auto. now apply (prefixb_comparable x d rel).
Qed.

Lemma outside_neq d rel x : prefixb d x = false -> path_eqb x (d ++ rel) = false.
Proof.
  intros Hx. apply path_eqb_false. intros ->.
  assert (prefixb d (d ++ rel) = true) by (apply prefixb_true; eauto). congruence.
Qed.

Section Outside.

Variable E : Env.
Variable c : sftpClient.
Variable d : path.

(** Outside [d] the file system of side [to] is as it was, but for missing
    ancestors of [d] that have become directories. *)
Let outside (to : side) (w w' : World) (tr : list event) : Prop :=
  forall x, prefixb d x = false -> framed d (fs_of to w) (fs_of to w') x.

Lemma outside_refl to w tr : outside to w w tr.
Proof. intros x _. apply framed_refl. Qed.

Lemma outside_trans to w w1 w2 t1 t2 :
  outside to w w1 t1 -> outside to w1 w2 t2 -> outside to w w2 (t1 ++ t2).
Proof. intros H1 H2 x Hx. eapply framed_trans; eauto. Qed.

Ltac same_outside :=
  let x := fresh "x" in let Hx := fresh "Hx" in
  intros x Hx; simpl; try apply framed_refl.

(** The copy of one file to [d ++ rel] on the remote side. *)
Lemma copy_to_remote_outside rel p w :
  outside Remote w
    (world
       ((r0 <- os_Open E p ;;
         match r0 with
         | Err err => ret (Some err)
         | Ok srcFile =>
             defer (file_Close E srcFile)
               (r1 <- sftp_Create E c (d ++ rel) ;;
                match r1 with
                | Err err => ret (Some err)
                | Ok dstFile =>
                    defer (file_Close E dstFile)
                      (err <- io_Copy E dstFile srcFile ;;
                       match err with
                       | Some err => ret (Some err)
                       | None => ret None
                       end)
                end)
         end) w)) [].
Proof.
  destruct w as [l r a o]. set (t := d ++ rel). unfold_prims. simpl.
  destruct (fault E (Open Local p)); simpl; [same_outside|].
  destruct (stat_fs l p) as [en|] eqn:Hsrc; simpl; [|same_outside].
  destruct (fault E (Create Remote t)); simpl; [same_outside|].
  destruct (create_fs t r) as [e|r1] eqn:Hc; simpl; [same_outside|].
  assert (Hneq : forall x, prefixb d x = false -> path_eqb x t = false)
    by (intros x Hx; now apply outside_neq).
  assert (H1 : forall x, prefixb d x = false -> framed d r r1 x).
  { intros x Hx. left. now rewrite (stat_create _ _ _ x Hc), (Hneq x Hx). }
  assert (H2 : forall data x, prefixb d x = false ->
                 framed d r (write_fs t data r1) x).
  { intros data x Hx. left.
    now rewrite (stat_create_write _ _ _ _ x Hc), (Hneq x Hx). }
  destruct (fault E (Read Local p)); simpl; [same_outside; auto|].
  rewrite Hsrc. destruct en as [b|]; simpl; [|same_outside; auto].
  destruct (fault E (Write Remote t)); simpl; same_outside; auto.
Qed.

Lemma upload_fn_outside s p info err w v w' tr :
  uploadDirectory_fn E c s d p info err w = (v, w', tr) -> outside Remote w w' tr.
Proof.
  intros Heq.
  assert (K : outside Remote w
                (world (uploadDirectory_fn E c s d p info err w)) []).
  { clear Heq. unfold uploadDirectory_fn.
    destruct err as [err|]; [apply outside_refl|].
    destruct (Rel s p) as [rel|err]; [|apply outside_refl].
    unfold Join.
    destruct info as [[b|]|]; simpl; try apply copy_to_remote_outside.
    destruct w as [l r a o]. unfold_prims. simpl.
    destruct (fault E (MkdirAll Remote (d ++ rel))); simpl; [same_outside|].
    destruct (mkdirAll_fs (d ++ rel) r) eqn:Hm; simpl; [|same_outside].
    intros x Hx. simpl. exact (framed_mkdirAll d rel _ _ x Hm Hx). }
  rewrite Heq in K. exact K.
Qed.

Lemma uploadFile_outside s w :
  outside Remote w (world (uploadFile E s d w)) [].
Proof.
  destruct w as [l r a o]. unfold uploadFile. unfold_prims. simpl.
  destruct (fault E NewClient); simpl; [same_outside|].
  destruct a; simpl; [|same_outside].
  destruct (fault E (Open Local s)); simpl; [same_outside|].
  destruct (stat_fs l s) as [en|] eqn:Hsrc; simpl; [|same_outside].
  destruct (fault E (Create Remote d)); simpl; [same_outside|].
  destruct (create_fs d r) as [e|r1] eqn:Hc; simpl; [same_outside|].
  assert (Hneq : forall x, prefixb d x = false -> path_eqb x d = false).
  { intros x Hx. rewrite <- (app_nil_r d). now apply outside_neq. }
  assert (H1 : forall x, prefixb d x = false -> framed d r r1 x).
  { intros x Hx. left. now rewrite (stat_create _ _ _ x Hc), (Hneq x Hx). }
  assert (H2 : forall data x, prefixb d x = false ->
                 framed d r (write_fs d data r1) x).
  { intros data x Hx. left.
    now rewrite (stat_create_write _ _ _ _ x Hc), (Hneq x Hx). }
  destruct (fault E (Read Local s)); simpl; [same_outside; auto|].
  rewrite Hsrc. destruct en as [b|]; simpl; [|same_outside; auto].
  destruct (fault E (Write Remote d)); simpl; same_outside; auto.
Qed.

(** The download of one file to [d ++ rel]. *)
Lemma downloadFile_outside rp rel w v w' tr :
  downloadFile E c rp (d ++ rel) w = (v, w', tr) -> outside Local w w' tr.
Proof.
  intros Heq x Hx.
  destruct (downloadFile_step E c rp (d ++ rel) w) as (_ & Hfr & _).
  rewrite Heq in Hfr. unfold world in Hfr. simpl in Hfr.
  destruct (Hfr x (outside_neq d rel x Hx)) as [H|(Hp & Hn & Hd)]; [now left|].
  right. repeat split; auto. now apply (prefixb_comparable x d rel).
Qed.

Lemma download_body_outside s p info err w v w' tr :
  downloadDirectory_body E c s d p info err w = (v, w', tr) ->
  outside Local w w' tr.
Proof.
  unfold downloadDirectory_body.
  destruct err as [err|]; [intros [= <- <- <-]; apply outside_refl|].
  destruct (Rel s p) as [rel|err]; [|intros [= <- <- <-]; apply outside_refl].
  unfold Join.
  assert (Hfile : forall v w' tr,
            (err <- downloadFile E c p (d ++ rel) ;;
             match err with
             | Some err => ret (Some err)
             | None => ret None
             end) w = (v, w', tr) -> outside Local w w' tr).
  { intros v0 w0 tr0 Heq. unfold bind in Heq.
    pose proof (downloadFile_outside p rel w) as K.
    destruct (downloadFile E c p (d ++ rel) w) as [[v1 w1] t1].
    specialize (K _ _ _ eq_refl).
    destruct v1; unfold ret in Heq; injection Heq as <- <- <-; exact K. }
  destruct info as [[b|]|]; simpl; try exact (Hfile v w' tr).
  destruct w as [l r a o]. unfold_prims. simpl.
  destruct (fault E (MkdirAll Local (d ++ rel))); simpl;
    [intros [= <- <- <-]; same_outside|].
  destruct (mkdirAll_fs (d ++ rel) l) eqn:Hm; simpl; intros [= <- <- <-];
    [|same_outside].
  intros x Hx. simpl. exact (framed_mkdirAll d rel _ _ x Hm Hx).
Qed.

End Outside.

Section OutsideTransfers.

Variable E : Env.

(** X21.  Whatever fails, [Upload] leaves every remote path that is not [dst]
    or below it as it was, but for missing ancestors of [dst], which can have
    become directories: it writes, creates and truncates nothing outside its
    destination. *)
Theorem Upload_touches_nothing_outside_destination (src dst : path) (w : World) :
  forall x, prefixb dst x = false ->
            framed dst (rfs w) (rfs (world (Upload E src dst w))) x.
Proof.
  destruct (Upload E src dst w) as [[v w'] tr] eqn:Heq.
  unfold world. simpl.
  unfold Upload in Heq. unfold bind at 1 in Heq. unfold os_Stat in Heq.
  destruct (fs_Stat_cases E Local src w) as [(en & _ & Hs)|[e Hs]];
    rewrite Hs in Heq.
  2:{ unfold ret in Heq. injection Heq as <- <- <-. intros. apply framed_refl. }
  destruct (IsDir en).
  - unfold uploadDirectory in Heq. unfold bind at 1 in Heq.
    destruct (sftp_NewClient_cases E w) as [Hc|[e Hc]]; rewrite Hc in Heq.
    2:{ unfold ret in Heq. injection Heq as <- <- <-. intros. apply framed_refl. }
    unfold defer in Heq. unfold bind at 1 2 in Heq.
    destruct (filepath_Walk E src (uploadDirectory_fn E SftpClient src dst)
                (acquire HClient w)) as [[v2 w2] t2] eqn:Hw.
    unfold bind, sftp_Close, ret in Heq. injection Heq as <- <- <-.
    assert (K : forall x, prefixb dst x = false ->
                  framed dst (fs_of Remote (acquire HClient w)) (fs_of Remote w2) x).
    { eapply (filepath_Walk_rel E
                (fun w w' _ => forall x, prefixb dst x = false ->
                   framed dst (fs_of Remote w) (fs_of Remote w') x));
        try exact Hw.
      - intros. apply framed_refl.
      - intros. apply framed_refl.
      - intros. apply framed_refl.
      - intros w0 w1 w3 _ _ H1 H2 x Hx. eapply framed_trans; eauto.
      - intros p info err w0 v0 w0' tr0 Hfn.
        exact (upload_fn_outside E SftpClient dst src p info err w0 v0 w0' tr0 Hfn). }
    intros x Hx. specialize (K x Hx). now destruct w, w2.
  - pose proof (uploadFile_outside E dst src w) as K.
    destruct (uploadFile E src dst w) as [[v2 w2] t2].
    injection Heq as <- <- <-. exact K.
Qed.

(** X22.  Whatever fails, [Download] leaves every local path that is not
    [dst] or below it as it was, but for missing ancestors of [dst], which
    can have become directories. *)
Theorem Download_touches_nothing_outside_destination (src dst : path) (w : World) :
  forall x, prefixb dst x = false ->
            framed dst (lfs w) (lfs (world (Download E src dst w))) x.
Proof.
  destruct (Download E src dst w) as [[v w'] tr] eqn:Heq.
  unfold world. simpl.
  unfold Download, NewSftp in Heq. unfold bind at 1 in Heq.
  destruct (sftp_NewClient_cases E w) as [Hc|[e Hc]]; rewrite Hc in Heq.
  2:{ unfold ret in Heq. injection Heq as <- <- <-. intros. apply framed_refl. }
  set (w0 := acquire HClient w) in *.
  unfold defer in Heq. unfold bind at 1 2 in Heq. unfold sftp_Stat in Heq.
  destruct (fs_Stat_cases E Remote src w0) as [(en & _ & Hs)|[e Hs]];
    rewrite Hs in Heq.
  2:{ unfold bind, sftp_Close, ret in Heq. injection Heq as <- <- <-.
      intros. subst w0. destruct w. apply framed_refl. }
  assert (K : forall v2 w2 t2,
            (if IsDir en then downloadDirectory E SftpClient src dst
             else downloadFile E SftpClient src dst) w0 = (v2, w2, t2) ->
            forall x, prefixb dst x = false ->
                      framed dst (fs_of Local w0) (fs_of Local w2) x).
  { intros v2 w2 t2 Hb. destruct (IsDir en).
    - eapply sftp_Walk_loop_rel
        with (R := fun w w' _ => forall x, prefixb dst x = false ->
                     framed dst (fs_of Local w) (fs_of Local w') x)
             (c := SftpClient);
        try exact Hb.
      + intros. apply framed_refl.
      + intros. apply framed_refl.
      + intros. apply framed_refl.
      + intros w1 w3 w4 _ _ H1 H2 x Hx. eapply framed_trans; eauto.
      + intros p info err w1 v1 w1' tr1 Hfn.
        exact (download_body_outside E SftpClient dst src p info err w1 v1 w1'
                 tr1 Hfn).
    - rewrite <- (app_nil_r dst) in Hb at 1.
      exact (downloadFile_outside E SftpClient dst src [] w0 v2 w2 t2 Hb). }
  match type of Heq with
  | context [(if IsDir en then ?a else ?b) w0] =>
      destruct ((if IsDir en then a else b) w0) as [[v2 w2] t2] eqn:Hb
  end.
  specialize (K _ _ _ eq_refl).
  unfold bind, sftp_Close, ret in Heq. injection Heq as <- <- <-.
  intros x Hx. specialize (K x Hx). subst w0. now destruct w, w2.
Qed.

End OutsideTransfers.

Lemma Upload_touches_nothing_outside_destination_witness :
  stat_fs (rfs blocked_world) ["r"] = Some (EFile [x2a]%byte) /\
  framed ["up"] (rfs blocked_world)
    (rfs (world (Upload no_faults ["d"] ["up"] blocked_world))) ["r"].
Proof.
  split; [reflexivity|].
  apply (Upload_touches_nothing_outside_destination no_faults ["d"] ["up"]
           blocked_world ["r"]).
  reflexivity.
Defined.

Lemma Download_touches_nothing_outside_destination_witness :
  stat_fs (lfs blocked_download_world) ["out"] = Some (EFile [x2a]%byte) /\
  framed ["copy"] (lfs blocked_download_world)
    (lfs (world (Download no_faults ["srv"] ["copy"] blocked_download_world)))
    ["out"].
Proof.
  split; [reflexivity|].
  apply (Download_touches_nothing_outside_destination no_faults ["srv"] ["copy"]
           blocked_download_world ["out"]).
  reflexivity.
Defined.

(** ** The order of the calls of a download *)

Lemma precedes_app_l a b t1 t2 : precedes a b t1 -> precedes a b (t1 ++ t2).
Proof.
  intros (x & y & z & ->). exists x, y, (z ++ t2).
  now rewrite <- !app_assoc, <- !app_comm_cons, <- app_assoc.
Qed.

Lemma precedes_app_r a b t1 t2 : precedes a b t2 -> precedes a b (t1 ++ t2).
Proof.
  intros (x & y & z & ->). exists (t1 ++ x), y, z. now rewrite <- app_assoc.
Qed.

Lemma parents_first_app t1 t2 :
  parents_first t1 -> parents_first t2 -> parents_first (t1 ++ t2).
Proof.
  intros H1 H2 lp r Hin. apply in_app_or in Hin as [Hin|Hin].
  - now apply precedes_app_l, H1.
  - now apply precedes_app_r, H2.
Qed.

Lemma parents_first_one pr res :
  (forall lp, pr <> Create Local lp) -> parents_first [Ev pr res].
Proof.
  intros Hne lp r [H|[]]. injection H as -> _. now destruct (Hne lp).
Qed.

Lemma parents_first_nil : parents_first [].
Proof. intros lp r []. Qed.

Section ParentsFirst.

Variable E : Env.

Lemma downloadFile_parents_first c rp lp w :
  parents_first (trace (downloadFile E c rp lp w)).
Proof.
  unfold parents_first.
  destruct w as [l r a o]. unfold downloadFile. unfold_prims. simpl.
  destruct (fault E (Open Remote rp)) as [e1|]; simpl.
  { intros ? ? H; pick_event H. }
  destruct (stat_fs r rp) as [en|] eqn:Hsrc; simpl.
  2:{ intros ? ? H; pick_event H. }
  destruct (fault E (MkdirAll Local (Dir_of lp))) as [e2|]; simpl.
  { intros ? ? H; pick_event H. }
  destruct (mkdirAll_fs (Dir_of lp) l) as [l1|] eqn:Hm; simpl.
  2:{ intros ? ? H; pick_event H. }
  destruct (fault E (Create Local lp)) as [e3|]; simpl.
  { intros ? ? H; pick_event H. injection H as <- <-. by_precedesb. }
  destruct (create_fs lp l1) as [e|l2] eqn:Hc; simpl.
  { intros ? ? H; pick_event H. injection H as <- <-. by_precedesb. }
  destruct (fault E (Read Remote rp)) as [e4|]; simpl.
  { intros ? ? H; pick_event H. injection H as <- <-. by_precedesb. }
  rewrite Hsrc. destruct en as [b|]; simpl.
  2:{ intros ? ? H; pick_event H. injection H as <- <-. by_precedesb. }
  destruct (fault E (Write Local lp)) as [e5|]; simpl.
  { intros ? ? H; pick_event H. injection H as <- <-. by_precedesb. }
  destruct (fault E (Sync lp)) as [e6|]; simpl;
    intros ? ? H; pick_event H; injection H as <- <-; by_precedesb.
Qed.

Lemma download_body_parents_first c s d p info err w v w' tr :
  downloadDirectory_body E c s d p info err w = (v, w', tr) -> parents_first tr.
Proof.
  unfold downloadDirectory_body.
  destruct err as [err|]; [intros [= <- <- <-]; apply parents_first_nil|].
  destruct (Rel s p) as [rel|err]; [|intros [= <- <- <-]; apply parents_first_nil].
  unfold Join.
  assert (Hfile : forall v w' tr,
            (err <- downloadFile E c p (d ++ rel) ;;
             match err with
             | Some err => ret (Some err)
             | None => ret None
             end) w = (v, w', tr) -> parents_first tr).
  { intros v0 w0 tr0 Heq. unfold bind in Heq.
    pose proof (downloadFile_parents_first c p (d ++ rel) w) as K.
    destruct (downloadFile E c p (d ++ rel) w) as [[v1 w1] t1].
    unfold trace in K. simpl in K.
    destruct v1; unfold ret in Heq; injection Heq as <- <- <-;
      now rewrite ?app_nil_r. }
  destruct info as [[b|]|]; simpl; try exact (Hfile v w' tr).
  destruct w as [l r a o]. unfold_prims. simpl.
  destruct (fault E (MkdirAll Local (d ++ rel))); simpl;
    [intros [= <- <- <-]; now apply parents_first_one|].
  destruct (mkdirAll_fs (d ++ rel) l); simpl; intros [= <- <- <-];
    now apply parents_first_one.
Qed.

(** X23.  In every run of [Download], of a file or of a directory tree,
    whatever fails: a local file is only created after a [MkdirAll] of its
    parent directory has succeeded.  No file is ever created in a directory
    that the download has not made sure of. *)
Theorem Download_makes_parent_before_each_file (src dst : path) (w : World) :
  forall lp r,
    In (Ev (Create Local lp) r) (trace (Download E src dst w)) ->
    precedes (Ev (MkdirAll Local (Dir_of lp)) None) (Ev (Create Local lp) r)
      (trace (Download E src dst w)).
Proof.
  change (parents_first (trace (Download E src dst w))).
  destruct (Download E src dst w) as [[v w'] tr] eqn:Heq.
  unfold trace. simpl.
  unfold Download, NewSftp in Heq. unfold bind at 1 in Heq.
  destruct (sftp_NewClient_cases E w) as [Hc|[e Hc]]; rewrite Hc in Heq.
  2:{ unfold ret in Heq. injection Heq as <- <- <-.
      now apply parents_first_one. }
  set (w0 := acquire HClient w) in *.
  unfold defer in Heq. unfold bind at 1 2 in Heq. unfold sftp_Stat in Heq.
  destruct (fs_Stat_cases E Remote src w0) as [(en & _ & Hs)|[e Hs]];
    rewrite Hs in Heq.
  2:{ unfold bind, sftp_Close, ret in Heq. injection Heq as <- <- <-.
      intros lp r H. pick_event H. }
  assert (K : forall v2 w2 t2,
            (if IsDir en then downloadDirectory E SftpClient src dst
             else downloadFile E SftpClient src dst) w0 = (v2, w2, t2) ->
            parents_first t2).
  { intros v2 w2 t2 Hb. destruct (IsDir en).
    - eapply sftp_Walk_loop_rel
        with (R := fun _ _ tr => parents_first tr) (c := SftpClient);
        try exact Hb.
      + intros. apply parents_first_nil.
      + intros. now apply parents_first_one.
      + intros. now apply parents_first_one.
      + intros w1 w3 w4 t1 t3. apply parents_first_app.
      + intros p info err w1 v1 w1' tr1 Hfn.
        exact (download_body_parents_first SftpClient src dst p info err w1 v1
                 w1' tr1 Hfn).
    - pose proof (downloadFile_parents_first SftpClient src dst w0) as Hf.
      now rewrite Hb in Hf. }
  match type of Heq with
  | context [(if IsDir en then ?a else ?b) w0] =>
      destruct ((if IsDir en then a else b) w0) as [[v2 w2] t2] eqn:Hb
  end.
  specialize (K _ _ _ eq_refl).
  unfold bind, sftp_Close, ret in Heq. injection Heq as <- <- <-.
  apply (parents_first_app [Ev NewClient None]);
    [now apply parents_first_one|].
  apply (parents_first_app [Ev (Stat Remote src) None]);
    [now apply parents_first_one|].
  apply parents_first_app; [exact K|].
  apply (parents_first_app [Ev CloseClient (fault E CloseClient)] []);
    [now apply parents_first_one | apply parents_first_nil].
Qed.

End ParentsFirst.

Lemma Download_makes_parent_before_each_file_witness :
  let tr := trace (Download no_faults ["srv"] ["out"] remote_site_world) in
  precedes (Ev (MkdirAll Local ["out"; "css"]) None)
           (Ev (Create Local ["out"; "css"; "a.css"]) None) tr.
Proof.
  apply (Download_makes_parent_before_each_file no_faults ["srv"] ["out"]
           remote_site_world ["out"; "css"; "a.css"] None).
  vm_compute. tauto.
Defined.
